(** * cmake-profile-stat: the trace-to-tree reconstruction, embedded in Rocq

    The development follows [cmake-profile-stat.py]:
    - [_CmakeTrace] objects live in a heap indexed by object identity, so
      that the parent pointers and the in-place [duration] updates of the
      constructor are the ones of the script;
    - exceptions are values of [result];
    - time stamps and durations are exact rationals ([Qc]): every finite
      binary64 value is a rational, the additions and subtractions of the
      script are taken without rounding, and [inf]/[nan] are left out;
    - the conversions [float(...)] and [int(...)] of the parser and the
      call-site formatter handed to [_print_traces] are parameters. *)

From Stdlib Require Import ZArith QArith Qcanon Ascii String Lia.
From stdpp Require Import base decidable option numbers list strings pretty sorting.

Set Warnings "-register-all".

Local Open Scope string_scope.
Local Open Scope list_scope.
Local Open Scope Z_scope.

(** ** Exceptions *)

Inductive exn : Type :=
  | AssertionError (msg : string)
  | IndexError
  | ValueError
  | TypeError
  | ZeroDivisionError
  | Fault. (* dangling reference or exhausted fuel: not a behaviour of the script *)

Inductive result (A : Type) : Type :=
  | Ok (a : A)
  | Raise (e : exn).
Arguments Ok {A} a.
Arguments Raise {A} e.

Definition result_bind {A B : Type} (f : A → result B) (m : result A) : result B :=
  match m with
  | Ok a => f a
  | Raise e => Raise e
  end.

#[global] Instance result_ret : MRet result := λ A a, Ok a.
#[global] Instance result_mbind : MBind result := λ A B f m, result_bind f m.

Definition is_ok {A : Type} (m : result A) : bool :=
  match m with Ok _ => true | Raise _ => false end.

(** ** Data model *)

Record CmakeTraceInfo : Type := mkTraceInfo {
  cmake_file : string;
  cmake_line : Z;
  cmake_code_line : string
}.

Abbreviation ref := nat (only parsing).

Record CmakeTrace : Type := mkTrace {
  duration : Qc;
  trace_info : option CmakeTraceInfo;
  parent_trace : option ref;
  subtraces : list ref
}.

(** The heap of [_CmakeTrace] objects: the reference of an object is its
    index, a constructor call allocates at the end. *)
Abbreviation heap := (list CmakeTrace) (only parsing).

Definition deref (h : heap) (r : ref) : result CmakeTrace :=
  match h !! r with
  | Some n => Ok n
  | None => Raise Fault
  end.

Definition set_duration (d : Qc) (n : CmakeTrace) : CmakeTrace :=
  mkTrace d (trace_info n) (parent_trace n) (subtraces n).

Definition push_subtrace (c : ref) (n : CmakeTrace) : CmakeTrace :=
  mkTrace (duration n) (trace_info n) (parent_trace n) (subtraces n ++ [c]).

(** [sys.maxint] of a 64-bit CPython 2. *)
Definition sys_maxint : Z := 9223372036854775807.

(** ** [_CmakeTrace.__init__] *)

(** The [while True] loop of the constructor: [parent.duration] grows by
    [duration] for [parent] and each of its ancestors; the loop is left by
    the [AttributeError] of [None.duration]. *)
Fixpoint propagate (fuel : nat) (h : heap) (parent : option ref) (d : Qc)
    : result heap :=
  match parent with
  | None => Ok h
  | Some p =>
      match fuel with
      | O => Raise Fault
      | S fuel' =>
          match h !! p with
          | None => Raise Fault
          | Some n =>
              propagate fuel'
                (<[p := set_duration (duration n + d)%Qc n]> h)
                (parent_trace n) d
          end
      end
  end.

Definition CmakeTrace_init (h : heap) (d : Qc) (ti : option CmakeTraceInfo)
    (parent : option ref) : result (heap * ref) :=
  let self := length h in
  h' ← propagate (length h) (h ++ [mkTrace d ti parent []]) parent d;
  Ok (h', self).

(** [parent_trace.subtraces.append(_CmakeTrace(duration, ti, parent_trace))] *)
Definition append_new_trace (h : heap) (parent_trace : ref) (d : Qc)
    (ti : CmakeTraceInfo) : result heap :=
  '(h1, c) ← CmakeTrace_init h d (Some ti) (Some parent_trace);
  n ← deref h1 parent_trace;
  Ok (<[parent_trace := push_subtrace c n]> h1).

(** ** [_update_traces] *)

Abbreviation frame := (nat * option string * option Z)%type (only parsing).

(** The generator [enumerate_frames], from its first [yield] on. *)
Fixpoint frames_from (fuel : nat) (h : heap) (trace : ref)
    : result (list frame) :=
  match fuel with
  | O => Raise Fault
  | S fuel' =>
      n ← deref h trace;
      let fr : frame :=
        match trace_info n with
        | None => (trace, None, None)
        | Some ti => (trace, Some (cmake_file ti), Some (cmake_line ti))
        end in
      match parent_trace n with
      | None => Ok [fr]
      | Some p => rest ← frames_from fuel' h p; Ok (fr :: rest)
      end
  end.

Definition enumerate_frames (h : heap) (trace : ref) : result (list frame) :=
  n ← deref h trace;
  let trace := match last (subtraces n) with Some c => c | None => trace end in
  frames_from (length h) h trace.

(** One iteration of the [for] loop over the frames. *)
Definition insertion_step (h : heap) (previous_trace_info : CmakeTraceInfo)
    (insertion_trace : Z * option ref) (fr : frame)
    : result (Z * option ref) :=
  let '(trace, file, line) := fr in
  if decide (file = Some (cmake_file previous_trace_info)) then
    match line with
    | None => Raise TypeError
    | Some line =>
        let distance := Z.abs (line - cmake_line previous_trace_info) in
        if distance <? insertion_trace.1 then
          n ← deref h trace; Ok (distance, parent_trace n)
        else Ok insertion_trace
    end
  else
    match insertion_trace.2 with
    | None => Ok (sys_maxint, Some trace)
    | Some _ => Ok insertion_trace
    end.

Fixpoint insertion_loop (h : heap) (previous_trace_info : CmakeTraceInfo)
    (insertion_trace : Z * option ref) (frames : list frame)
    : result (Z * option ref) :=
  match frames with
  | [] => Ok insertion_trace
  | fr :: frames =>
      ins ← insertion_step h previous_trace_info insertion_trace fr;
      insertion_loop h previous_trace_info ins frames
  end.

(** The attachment point chosen when the nesting is unknown. *)
Definition resolve_parent (h : heap) (parent_trace : ref)
    (previous_trace_info : CmakeTraceInfo) : result ref :=
  frames ← enumerate_frames h parent_trace;
  ins ← insertion_loop h previous_trace_info (sys_maxint, None) frames;
  Ok (match ins.2 with Some p => p | None => parent_trace end).

(** [for _ in range(nesting_diff, 0)] with its assertion. *)
Fixpoint ascend (h : heap) (steps : nat) (parent : ref) : result ref :=
  match steps with
  | O => Ok parent
  | S steps' =>
      n ← deref h parent;
      match parent_trace n with
      | None => Raise (AssertionError "")
      | Some p => ascend h steps' p
      end
  end.

Definition clamp_duration (current_timeval previous_timeval : Qc) : Qc :=
  let d := (current_timeval - previous_timeval)%Qc in
  if bool_decide (d < 0)%Qc then 0%Qc else d.

Definition update_traces (h : heap) (traces : list ref) (parent_trace : ref)
    (current_timeval previous_timeval : Qc)
    (current_nesting previous_nesting : Z)
    (previous_trace_info : CmakeTraceInfo)
    : result (heap * list ref * ref) :=
  let duration := clamp_duration current_timeval previous_timeval in
  '(h, parent_trace) ←
    (if current_nesting =? 0 then
       parent_trace ← resolve_parent h parent_trace previous_trace_info;
       h ← append_new_trace h parent_trace duration previous_trace_info;
       Ok (h, parent_trace)
     else
       let nesting_diff := current_nesting - previous_nesting in
       if nesting_diff =? 0 then
         h ← append_new_trace h parent_trace duration previous_trace_info;
         Ok (h, parent_trace)
       else if nesting_diff <? 0 then
         parent_trace ← ascend h (Z.to_nat (- nesting_diff)) parent_trace;
         h ← append_new_trace h parent_trace duration previous_trace_info;
         Ok (h, parent_trace)
       else if nesting_diff =? 1 then
         n ← deref h parent_trace;
         match last (subtraces n) with
         | None => Raise IndexError
         | Some parent_trace =>
             h ← append_new_trace h parent_trace duration previous_trace_info;
             Ok (h, parent_trace)
         end
       else Raise (AssertionError "Frames nesting increased by more than 1"));
  n ← deref h parent_trace;
  match trace_info n with
  | None =>
      match last (subtraces n) with
      | None => Raise IndexError
      | Some c => Ok (h, traces ++ [c], parent_trace)
      end
  | Some _ => Ok (h, traces, parent_trace)
  end.

(** ** [_parse_cmake_log] *)

(** The characters of [\s] and of [str.rstrip()] in Python 2:
    tab, newline, vertical tab, form feed, carriage return, space. *)
Definition is_space (c : ascii) : bool :=
  let n := nat_of_ascii c in
  ((9 <=? n)%nat && (n <=? 13)%nat) || (n =? 32)%nat.

Fixpoint lstrip (s : string) : string :=
  match s with
  | String c s' => if is_space c then lstrip s' else s
  | EmptyString => EmptyString
  end.

Fixpoint rstrip (s : string) : string :=
  match s with
  | String c s' =>
      match rstrip s' with
      | EmptyString => if is_space c then EmptyString else String c EmptyString
      | t => String c t
      end
  | EmptyString => EmptyString
  end.

(** [split_at c s]: the text before the first [c] of [s] and the text
    after it; this is how [[^c]*] followed by [c] matches. *)
Fixpoint split_at (c : ascii) (s : string) : option (string * string) :=
  match s with
  | EmptyString => None
  | String a s' =>
      if Ascii.eqb a c then Some (EmptyString, s')
      else '(pre, post) ← split_at c s'; Some (String a pre, post)
  end.

Fixpoint has_newline (s : string) : bool :=
  match s with
  | EmptyString => false
  | String a s' => Ascii.eqb a "010" || has_newline s'
  end.

Fixpoint starts_with (p s : string) : option string :=
  match p, s with
  | EmptyString, _ => Some s
  | String a p', String b s' => if Ascii.eqb a b then starts_with p' s' else None
  | String _ _, EmptyString => None
  end.

(** The groups of a match of the pattern [matcher]: an opening
    parenthesis, [timestamp] (no closing parenthesis in it), a closing
    parenthesis, white space, optionally a parenthesised [frame] and white
    space, then the call site. *)
Record line_match : Type := mkMatch {
  g_timestamp : string;
  g_frame : option string;
  g_file : string;
  g_line : string;
  g_code : string
}.

(** The call site: [file] (no opening parenthesis in it), the
    parenthesised [line], a colon, white space, and [code], which runs to
    the end of the line and holds no newline. *)
Definition match_site (s : string) : option (string * string * string) :=
  '(file, s) ← split_at "(" s;
  '(line, s) ← split_at ")" s;
  match s with
  | String ":" s =>
      let code := lstrip s in
      if has_newline code then None else Some (file, line, code)
  | _ => None
  end.

(** [matcher.match(line)]: the alternative with the frame group is tried
    first, the one without it on backtracking. *)
Definition matcher_match (line : string) : option line_match :=
  match line with
  | String "(" s =>
      '(timestamp, s) ← split_at ")" s;
      let s := lstrip s in
      let with_frame :=
        match s with
        | String "(" s' =>
            '(frame, s') ← split_at ")" s';
            '(file, line, code) ← match_site (lstrip s');
            Some (mkMatch timestamp (Some frame) file line code)
        | _ => None
        end in
      match with_frame with
      | Some m => Some m
      | None =>
          '(file, line, code) ← match_site s;
          Some (mkMatch timestamp None file line code)
      end
  | _ => None
  end.

Fixpoint paren_nesting (code : string) (nesting : Z) : Z :=
  match code with
  | EmptyString => nesting
  | String c code' =>
      paren_nesting code'
        (if Ascii.eqb c "(" then nesting + 1
         else if Ascii.eqb c ")" then nesting - 1
         else nesting)
  end.

Definition match_parens (code : string) : bool := paren_nesting code 0 =? 0.

(** [cmake_commands_with_nesting_bugs_re.search(code)]: the code starts
    with [else] or [elseif], then white space, then an opening parenthesis.
    The pattern is compiled without flags, so the keyword is matched as
    written. *)
Definition opens_paren (s : string) : bool :=
  match lstrip s with
  | String "(" _ => true
  | _ => false
  end.

Definition cmake_commands_with_nesting_bugs_re (code : string) : bool :=
  match starts_with "else" code with
  | Some rest =>
      opens_paren rest ||
      match starts_with "if" rest with
      | Some rest' => opens_paren rest'
      | None => false
      end
  | None => false
  end.

(** An event as the generator yields it. *)
Abbreviation event := (option Z * Qc * CmakeTraceInfo)%type (only parsing).

(** What the generator did: the events it yielded, the lines it wrote to
    stderr, and the exception that ended it, if one did. *)
Record parse_output : Type := mkOutput {
  yielded : list event;
  ignored : list string;
  raised : option exn
}.

Definition yield (ev : option event) (out : parse_output) : parse_output :=
  match ev with
  | Some ev => mkOutput (ev :: yielded out) (ignored out) (raised out)
  | None => out
  end.

Definition print_ignored (line : string) (out : parse_output) : parse_output :=
  mkOutput (yielded out) (("Ignored: " ++ line)%string :: ignored out) (raised out).

Definition extend_code (ti : CmakeTraceInfo) (line : string) : CmakeTraceInfo :=
  mkTraceInfo (cmake_file ti) (cmake_line ti)
    (cmake_code_line ti ++ "\n" ++ line)%string.

Definition pending_event (current_nesting : option Z)
    (current : option (Qc * CmakeTraceInfo)) : option event :=
  match current with
  | Some (current_timeval, current_trace_info) =>
      Some (current_nesting, current_timeval, current_trace_info)
  | None => None
  end.

Section Parser.

(** [float(s)] and [int(s)]; [None] stands for [ValueError]. *)
Variable py_float : string → option Qc.
Variable py_int : string → option Z.

(** The lines from [cmake_code = match.group('code')] to the end of the
    loop body: the new values of [current_nesting] and of
    ([current_timeval], [current_trace_info]). *)
Definition parse_match (ignore_nesting : bool) (current_nesting : option Z)
    (m : line_match) : result (option Z * (Qc * CmakeTraceInfo)) :=
  let cmake_code := g_code m in
  current_nesting ←
    (if ignore_nesting then Ok current_nesting
     else
       match g_frame m with
       | None => Ok None
       | Some frame =>
           match py_int frame with
           | None => Raise ValueError
           | Some n =>
               Ok (Some (if cmake_commands_with_nesting_bugs_re cmake_code
                         then n + 1 else n))
           end
       end);
  match py_float (g_timestamp m) with
  | None => Raise ValueError
  | Some current_timeval =>
      match py_int (g_line m) with
      | None => Raise ValueError
      | Some line =>
          Ok (current_nesting,
              (current_timeval, mkTraceInfo (g_file m) line cmake_code))
      end
  end.

(** The [for line in file_obj] loop with its [else] clause;
    [current_timeval] and [current_trace_info] are assigned together and
    kept as one optional pair. *)
Fixpoint parse_loop (ignore_nesting : bool) (file_obj : list string)
    (current_nesting : option Z) (current : option (Qc * CmakeTraceInfo))
    : parse_output :=
  match file_obj with
  | [] => yield (pending_event current_nesting current) (mkOutput [] [] None)
  | line :: file_obj =>
      let line := rstrip line in
      match matcher_match line with
      | None =>
          match current with
          | Some (current_timeval, current_trace_info) =>
              if match_parens (cmake_code_line current_trace_info) then
                print_ignored line
                  (parse_loop ignore_nesting file_obj current_nesting current)
              else
                parse_loop ignore_nesting file_obj current_nesting
                  (Some (current_timeval, extend_code current_trace_info line))
          | None =>
              print_ignored line
                (parse_loop ignore_nesting file_obj current_nesting current)
          end
      | Some m =>
          yield (pending_event current_nesting current)
            match parse_match ignore_nesting current_nesting m with
            | Raise e => mkOutput [] [] (Some e)
            | Ok (current_nesting, current) =>
                parse_loop ignore_nesting file_obj current_nesting (Some current)
            end
      end
  end.

Definition parse_cmake_log (file_obj : list string) (ignore_nesting : bool)
    : parse_output :=
  parse_loop ignore_nesting file_obj None None.

End Parser.

(** ** [_collect_stats] *)

(** The local variables of [_collect_stats], with the heap and the list
    [traces] it mutates. [previous_timeval] and [previous_trace_info] are
    assigned together and kept as one optional pair. *)
Record collect_state : Type := mkState {
  st_heap : heap;
  st_traces : list ref;
  st_parent : ref;
  previous_nesting : Z;
  previous : option (Qc * CmakeTraceInfo);
  previous_nesting_diff : Z
}.

(** [10E-7] *)
Definition last_duration : Qc := Q2Qc (1 # 1000000).

(** The body of the [for] loop over the yielded events. *)
Definition collect_step (s : collect_state) (ev : event) : result collect_state :=
  let '(current_nesting, current_timeval, current_trace_info) := ev in
  '(h, traces, parent) ←
    match previous s with
    | Some (previous_timeval, previous_trace_info) =>
        update_traces (st_heap s) (st_traces s) (st_parent s)
          current_timeval previous_timeval
          (previous_nesting s) (previous_nesting s - previous_nesting_diff s)
          previous_trace_info
    | None => Ok (st_heap s, st_traces s, st_parent s)
    end;
  let '(nesting, diff) :=
    match current_nesting with
    | None => (0, 0)
    | Some current_nesting =>
        (current_nesting, current_nesting - previous_nesting s)
    end in
  Ok (mkState h traces parent nesting
        (Some (current_timeval, current_trace_info)) diff).

Fixpoint collect_loop (s : collect_state) (events : list event)
    : result collect_state :=
  match events with
  | [] => Ok s
  | ev :: events => s' ← collect_step s ev; collect_loop s' events
  end.

(** The [else] clause of the loop: the last event gets its node. *)
Definition collect_finish (s : collect_state) : result (heap * list ref) :=
  match previous s with
  | Some (previous_timeval, previous_trace_info) =>
      '(h, traces, _) ←
        update_traces (st_heap s) (st_traces s) (st_parent s)
          (previous_timeval + last_duration)%Qc previous_timeval
          (previous_nesting s) (previous_nesting s) previous_trace_info;
      Ok (h, traces)
  | None => Ok (st_heap s, st_traces s)
  end.

(** The state before the first event: [parent_trace = _CmakeTrace(0, None, None)]
    is the first object ever allocated. *)
Definition collect_init (traces : list ref) : result collect_state :=
  '(h, root) ← CmakeTrace_init [] 0%Qc None None;
  Ok (mkState h traces root 1 None 0).

(** The consumer of the generator, on the events it yields. An exception
    of the generator ends the loop after the events yielded before it have
    been consumed, and the [else] clause is not run. *)
Definition collect_events (traces : list ref) (out : parse_output)
    : result (heap * list ref) :=
  s ← collect_init traces;
  s ← collect_loop s (yielded out);
  match raised out with
  | Some e => Raise e
  | None => collect_finish s
  end.

Definition collect_stats (py_float : string → option Qc)
    (py_int : string → option Z) (traces : list ref)
    (file_obj : list string) (ignore_nesting : bool)
    : result (heap * list ref) :=
  collect_events traces (parse_cmake_log py_float py_int file_obj ignore_nesting).

(** The builder on a stream of events that the generator yields to its end. *)
Definition build (events : list event) : result (heap * list ref) :=
  collect_events [] (mkOutput events [] None).

(** ** [_StoredTrace] and [store_trace] *)

Inductive StoredTrace : Type :=
  | mkStored (s_trace_info : option CmakeTraceInfo) (s_duration : Qc)
      (s_subtraces : list StoredTrace).

Definition s_trace_info (t : StoredTrace) : option CmakeTraceInfo :=
  match t with mkStored ti _ _ => ti end.
Definition s_duration (t : StoredTrace) : Qc :=
  match t with mkStored _ d _ => d end.
Definition s_subtraces (t : StoredTrace) : list StoredTrace :=
  match t with mkStored _ _ l => l end.

Fixpoint result_mapM {A B : Type} (f : A → result B) (l : list A)
    : result (list B) :=
  match l with
  | [] => Ok []
  | x :: l => y ← f x; ys ← result_mapM f l; Ok (y :: ys)
  end.

Fixpoint store_trace (fuel : nat) (h : heap) (trace : ref) : result StoredTrace :=
  match fuel with
  | O => Raise Fault
  | S fuel' =>
      n ← deref h trace;
      subs ← result_mapM (store_trace fuel' h) (subtraces n);
      Ok (mkStored (trace_info n) (duration n) subs)
  end.

(** [[store_trace(t) for t in all_traces]] *)
Definition store_traces (h : heap) (all_traces : list ref)
    : result (list StoredTrace) :=
  result_mapM (store_trace (length h) h) all_traces.

(** The number of nodes of a stored forest. *)
Fixpoint count_nodes (t : StoredTrace) : nat :=
  match t with
  | mkStored _ _ subs =>
      S ((fix count_list (l : list StoredTrace) : nat :=
            match l with
            | [] => O
            | t :: l => (count_nodes t + count_list l)%nat
            end) subs)
  end.

Definition count_forest (l : list StoredTrace) : nat :=
  foldr (λ t acc, (count_nodes t + acc)%nat) O l.

(** ** [_print_traces] *)

Record arguments : Type := mkArgs {
  threshold : Qc;
  depth : Z;
  trace_info_width : option Z;
  sort_traces : bool;
  one : bool
}.

(** A printed line: the number of leading spaces, the formatted call
    site, the duration and the percentage. *)
Record report_line : Type := mkLine {
  rl_indent : nat;
  rl_ti_str : string;
  rl_duration : Qc;
  rl_percent : Qc
}.

(** What was printed, and the exception that stopped the printing. *)
Abbreviation printed := (list report_line * option exn)%type (only parsing).

Definition then_print (p : printed) (k : printed) : printed :=
  match p.2 with
  | Some e => p
  | None => (p.1 ++ k.1, k.2)
  end.

(** [sorted(traces, key=lambda x: x.duration, reverse=True)]: stable,
    by decreasing duration. *)
Fixpoint insert_by_duration (x : StoredTrace) (l : list StoredTrace)
    : list StoredTrace :=
  match l with
  | [] => [x]
  | y :: l' =>
      if bool_decide (s_duration x < s_duration y)%Qc
      then y :: insert_by_duration x l'
      else x :: l
  end.

Definition sorted_by_duration (traces : list StoredTrace) : list StoredTrace :=
  foldr insert_by_duration [] traces.

(** [a / b] on floats. *)
Definition py_div (a b : Qc) : result Qc :=
  if bool_decide (b = 0%Qc) then Raise ZeroDivisionError else Ok (a / b)%Qc.

Definition indent_step : nat := 2.

Section Printer.

Variable args : arguments.
(** [ti_to_string(trace_info, width, nesting)], an argument of
    [_print_traces]. *)
Variable ti_to_string :
  option CmakeTraceInfo → option Z → string → result string.
Variable whole_duration : Qc.

(** [depth_exceeded indent]: [args.depth and indent + 1 > args.depth] *)
Definition depth_exceeded (indent : nat) : bool :=
  negb (depth args =? 0) && (Z.of_nat indent + 1 >? depth args).

(** [trace.duration / whole_duration < args.threshold] *)
Definition below_threshold (trace : StoredTrace) : result bool :=
  frac ← py_div (s_duration trace) whole_duration;
  Ok (bool_decide (frac < threshold args)%Qc).

(** The [for trace in ordered_traces] loop; [rec] is the recursive
    call [print_traces_loop(trace.subtraces, indent + 1)]. *)
Definition print_for (rec : list StoredTrace → nat → printed) (indent : nat)
    : list StoredTrace → printed :=
  fix for_loop (l : list StoredTrace) : printed :=
    match l with
    | [] => ([], None)
    | trace :: l =>
        if depth_exceeded indent then ([], None)
        else
          match below_threshold trace with
          | Raise e => ([], Some e)
          | Ok true => ([], None)
          | Ok false =>
              match ti_to_string (s_trace_info trace)
                      (trace_info_width args)
                      (pretty (indent + 1)%nat) with
              | Raise e => ([], Some e)
              | Ok ti_str =>
                  then_print
                    ([mkLine (indent * indent_step) ti_str
                        (s_duration trace)
                        (s_duration trace / whole_duration * Q2Qc 100)%Qc],
                     None)
                    (then_print
                       (rec (s_subtraces trace) (S indent))
                       (if one args && (indent =? 0)%nat
                        then ([], None) else for_loop l))
              end
          end
    end.

Definition ordered_traces (traces : list StoredTrace) : list StoredTrace :=
  if sort_traces args then sorted_by_duration traces else traces.

(** [print_traces_loop]; the fuel bounds the depth of the recursion. *)
Fixpoint print_traces_loop (fuel : nat) (traces : list StoredTrace)
    (indent : nat) : printed :=
  match fuel with
  | O => ([], Some Fault)
  | S fuel' =>
      print_for (print_traces_loop fuel') indent (ordered_traces traces)
  end.

End Printer.

(** The height of a stored forest bounds the recursion of the printer. *)
Fixpoint height (t : StoredTrace) : nat :=
  match t with
  | mkStored _ _ subs =>
      S ((fix height_list (l : list StoredTrace) : nat :=
            match l with
            | [] => O
            | t :: l => Nat.max (height t) (height_list l)
            end) subs)
  end.

Definition forest_height (l : list StoredTrace) : nat :=
  foldr (λ t acc, Nat.max (height t) acc) O l.

(** [_print_traces(args, ti_to_string, all_traces, whole_duration)] *)
Definition print_traces (args : arguments)
    (ti_to_string : option CmakeTraceInfo → option Z → string → result string)
    (all_traces : list StoredTrace) (whole_duration : Qc) : printed :=
  print_traces_loop args ti_to_string whole_duration
    (S (forest_height all_traces)) all_traces 0.

(** [sum(t.duration for t in all_traces)] *)
Definition whole_duration_of (all_traces : list StoredTrace) : Qc :=
  foldl Qcplus 0%Qc (s_duration <$> all_traces).

(** ** Plain decimal readers

    [read_int] and [read_float] read unsigned decimal numerals ([12],
    [10.5]); on these [int] and [float] of Python give the same numbers.
    They serve to run the model on sample traces. *)

Definition digit_of (c : ascii) : option Z :=
  let n := nat_of_ascii c in
  if (48 <=? n)%nat && (n <=? 57)%nat then Some (Z.of_nat (n - 48)) else None.

Fixpoint read_digits (s : string) (acc : Z) : option Z :=
  match s with
  | EmptyString => Some acc
  | String c s' => d ← digit_of c; read_digits s' (10 * acc + d)
  end.

Definition read_int (s : string) : option Z :=
  match s with
  | EmptyString => None
  | _ => read_digits s 0
  end.

Definition read_float (s : string) : option Qc :=
  match split_at "." s with
  | None => n ← read_int s; Some (Q2Qc (inject_Z n))
  | Some (ip, fp) =>
      n ← read_int ip;
      f ← read_int fp;
      let scale := 10 ^ Z.of_nat (String.length fp) in
      Some (Q2Qc (Qmake (n * scale + f) (Z.to_pos scale)))
  end.

(** ** Shape of the heap *)

Local Open Scope nat_scope.

(** [chain fuel h p]: [p], its parent, the parent of its parent, ... as
    far as the parent pointers of [h] lead. *)
Fixpoint chain (fuel : nat) (h : heap) (p : ref) : list ref :=
  match fuel with
  | O => []
  | S fuel' =>
      match h !! p with
      | None => []
      | Some n =>
          p :: match parent_trace n with
               | None => []
               | Some q => chain fuel' h q
               end
      end
  end.

Definition ancestors (h : heap) (p : ref) : list ref := chain (S p) h p.

Definition parent_of (h : heap) (i : ref) : option ref :=
  n ← h !! i; parent_trace n.

(** Parent pointers lead to older objects. *)
Definition decreasing (h : heap) : Prop :=
  ∀ i n q, h !! i = Some n → parent_trace n = Some q → q < i.

(** The durations of the objects listed in [A] grow by [d]. *)
Definition bump (A : list ref) (d : Qc) (h : heap) : heap :=
  imap (λ i n, if decide (i ∈ A)
               then set_duration (duration n + d)%Qc n else n) h.

(** The heaps the builder makes: object [0] is the root sentinel, every
    other object has a call site and an older parent, and the [subtraces]
    of an object list its children, each once. *)
Record wf (h : heap) : Prop := mkWf {
  wf_root : ∃ n, h !! 0 = Some n ∧ parent_trace n = None ∧ trace_info n = None;
  wf_node : ∀ i n, h !! i = Some n → i ≠ 0 →
      is_Some (trace_info n) ∧ ∃ q, parent_trace n = Some q ∧ q < i;
  wf_nodup : ∀ i n, h !! i = Some n → NoDup (subtraces n);
  wf_child : ∀ i n k, h !! i = Some n →
      k ∈ subtraces n ↔ parent_of h k = Some i
}.

(** The heap after
    [parent.subtraces.append(_CmakeTrace(d, ti, parent))], written as one
    pass over the objects. *)
Definition appended (h : heap) (p : ref) (d : Qc) (ti : CmakeTraceInfo) : heap :=
  imap (λ i n,
          mkTrace
            (if decide (i ∈ ancestors h p) then (duration n + d)%Qc else duration n)
            (trace_info n) (parent_trace n)
            (if decide (i = p) then subtraces n ++ [length h] else subtraces n)) h
  ++ [mkTrace d (Some ti) (Some p) []].

(** Duration of an object, [0] for a dangling reference. *)
Definition dur (h : heap) (i : ref) : Qc :=
  match h !! i with
  | Some n => duration n
  | None => 0%Qc
  end.

Definition sum_list_Qc (l : list Qc) : Qc := foldr Qcplus 0%Qc l.


(** ** Attributed durations of a stream of events *)

Definition timeval (ev : event) : Qc := ev.1.2.
Definition site (ev : event) : CmakeTraceInfo := ev.2.
Definition nesting (ev : event) : option Z := ev.1.1.

(** The duration of every event that has a successor, given the time
    stamp [prev] of the event before the first one. *)
Fixpoint gaps (prev : option Qc) (events : list event) : list Qc :=
  match events with
  | [] => []
  | ev :: events =>
      match prev with
      | Some t => [clamp_duration (timeval ev) t]
      | None => []
      end ++ gaps (Some (timeval ev)) events
  end.

(** The per-event attributed durations: the time to the next event,
    clamped at zero, and the nominal duration for the last event. *)
Definition attributed (events : list event) : list Qc :=
  gaps None events ++
  match last events with
  | Some ev => [clamp_duration (timeval ev + last_duration)%Qc (timeval ev)]
  | None => []
  end.

(** The state of the builder after consuming [events]. *)
Definition builder_state (events : list event) : result collect_state :=
  s ← collect_init []; collect_loop s events.

(** ** Weights on the tree

    A weight [W] on the objects is balanced when the weight of every
    object is its own share [w] plus the weights of its children. The
    cumulative durations are one such weight, the subtree sizes another. *)

Section Weights.

Context {M : Type} (add : M → M → M) (zero : M).

Definition msum (W : ref → M) (l : list ref) : M :=
  foldr (λ k acc, add (W k) acc) zero l.

Definition balanced (h : heap) (w W : ref → M) : Prop :=
  ∀ i n, h !! i = Some n → W i = add (w i) (msum W (subtraces n)).

End Weights.

(** ** The parent chosen by [_update_traces] *)

(** The frame that [enumerate_frames] yields for the object [i]. *)
Definition frame_of (h : heap) (i : ref) : frame :=
  match h !! i with
  | Some n =>
      match trace_info n with
      | Some ti => (i, Some (cmake_file ti), Some (cmake_line ti))
      | None => (i, None, None)
      end
  | None => (i, None, None)
  end.

(** The first frame of [enumerate_frames(parent_trace)]: the last child
    of the cursor, or the cursor when it has no child. *)
Definition innermost (h : heap) (p : ref) : ref :=
  match h !! p with
  | Some n => default p (last (subtraces n))
  | None => p
  end.

(** The value of [parent_trace] when the node is created. *)
Definition attach_point (h : heap) (p : ref) (current_nesting previous_nesting : Z)
    (previous_trace_info : CmakeTraceInfo) : result ref :=
  if (current_nesting =? 0)%Z then resolve_parent h p previous_trace_info
  else
    let nesting_diff := (current_nesting - previous_nesting)%Z in
    if (nesting_diff =? 0)%Z then Ok p
    else if (nesting_diff <? 0)%Z then ascend h (Z.to_nat (- nesting_diff)) p
    else if (nesting_diff =? 1)%Z then
      n ← deref h p;
      match last (subtraces n) with
      | None => Raise IndexError
      | Some c => Ok c
      end
    else Raise (AssertionError "Frames nesting increased by more than 1").

(** ** The nesting resolver in the words of the specification

    Among the frames whose call site shares the file of the event, the one
    at the smallest distance in lines wins, the first one met on ties, and
    its parent becomes the attachment point; when no frame shares the
    file the first frame is the attachment point. *)

Definition same_file_distance (ti : CmakeTraceInfo) (fr : frame) : option Z :=
  match fr with
  | (_, Some file, Some line) =>
      if decide (file = cmake_file ti)
      then Some (Z.abs (line - cmake_line ti)) else None
  | _ => None
  end.

Fixpoint nearest_frame (ti : CmakeTraceInfo) (frames : list frame)
    : option (ref * Z) :=
  match frames with
  | [] => None
  | fr :: frames =>
      match same_file_distance ti fr, nearest_frame ti frames with
      | Some d, Some (w, dw) => if (d <=? dw)%Z then Some (fr.1.1, d) else Some (w, dw)
      | Some d, None => Some (fr.1.1, d)
      | None, r => r
      end
  end.


(** The first frame whose file is not the one of the event. *)
Definition first_other_file (ti : CmakeTraceInfo) (frames : list frame)
    : option ref :=
  fr ← head (filter (λ fr : frame, fr.1.2 ≠ Some (cmake_file ti)) frames);
  Some fr.1.1.

(** The pair [insertion_trace] after the loop over [frames], started
    with [(best, cand)]. *)
Definition fallback (ti : CmakeTraceInfo) (best : Z) (cand : option ref)
    (frames : list frame) : Z * option ref :=
  match cand with
  | Some _ => (best, cand)
  | None =>
      match first_other_file ti frames with
      | Some t => (sys_maxint, Some t)
      | None => (best, None)
      end
  end.

Definition loop_result (h : heap) (ti : CmakeTraceInfo) (best : Z)
    (cand : option ref) (frames : list frame) : Z * option ref :=
  match nearest_frame ti frames with
  | Some (w, dw) =>
      if (dw <? best)%Z then (dw, parent_of h w) else fallback ti best cand frames
  | None => fallback ti best cand frames
  end.

(** ** The invariant of the builder

    [own] lists the duration every object was created with (the root
    with [0]) and [sites] the call sites of the objects after the root,
    both in the order of creation. *)
Record heap_ok (h : heap) (traces : list ref) (p : ref)
    (own : list Qc) (sites : list CmakeTraceInfo) : Prop := mkHeapOk {
  ok_wf : wf h;
  ok_cursor : p < length h;
  ok_traces : ∃ r, h !! 0 = Some r ∧ traces = subtraces r;
  ok_own_length : length own = length h;
  ok_own_root : own !! 0 = Some 0%Qc;
  ok_own_nonneg : ∀ d, d ∈ own → (0 ≤ d)%Qc;
  ok_balanced :
    balanced Qcplus 0%Qc h (λ i, default 0%Qc (own !! i)) (dur h);
  ok_total : dur h 0 = sum_list_Qc own;
  ok_sizes : ∃ sz : ref → nat,
    balanced Nat.add 0 h (λ _, 1) sz ∧ sz 0 = length h;
  ok_child : 1 < length h → ∃ n, h !! p = Some n ∧ subtraces n ≠ [];
  ok_sites : trace_info <$> h = None :: (Some <$> sites)
}.

(** The call site of every event that has a successor, given the call
    site [prev] of the event before the first one. *)
Fixpoint sites_before (prev : option CmakeTraceInfo) (events : list event)
    : list CmakeTraceInfo :=
  match events with
  | [] => []
  | ev :: events =>
      match prev with
      | Some ti => [ti]
      | None => []
      end ++ sites_before (Some (site ev)) events
  end.

(** The pending event after [events], [prev] when there is none. *)
Definition pending_after (prev : option (Qc * CmakeTraceInfo))
    (events : list event) : option (Qc * CmakeTraceInfo) :=
  match last events with
  | Some ev => Some (timeval ev, site ev)
  | None => prev
  end.

Definition state_ok (s : collect_state) (own : list Qc)
    (sites : list CmakeTraceInfo) : Prop :=
  heap_ok (st_heap s) (st_traces s) (st_parent s) own sites.

(** The state made by [collect_init []]. *)
Definition init_state : collect_state :=
  mkState [mkTrace 0%Qc None None []] [] 0 1%Z None 0%Z.


(** ** Sample streams *)

Definition mk_event (n : option Z) (t : Q) (file : string) (line : Z)
    (code : string) : event :=
  (n, Q2Qc t, mkTraceInfo file line code).

(** Seven events with the nesting levels 1, 2, 1, 2, 3, 2, 1. *)
Definition sample_events : list event :=
  [ mk_event (Some 1%Z) 1 "a.cmake" 1 "f()";
    mk_event (Some 2%Z) 2 "a.cmake" 2 "g()";
    mk_event (Some 1%Z) (7 # 2) "a.cmake" 3 "h()";
    mk_event (Some 2%Z) 4 "a.cmake" 4 "i()";
    mk_event (Some 3%Z) 5 "a.cmake" 5 "j()";
    mk_event (Some 2%Z) 6 "a.cmake" 6 "k()";
    mk_event (Some 1%Z) 7 "a.cmake" 7 "l()" ].


(** A line is parseable when [matcher] matches it. *)
Definition parseable (line : string) : bool :=
  match matcher_match (rstrip line) with
  | Some _ => true
  | None => false
  end.

Definition count_parseable (file_obj : list string) : nat :=
  length (filter (λ line, Is_true (parseable line)) file_obj).

(** A depth-annotated trace with a message line and a statement that
    runs over two lines. *)
Definition sample_trace : list string :=
  [ "(1.0) (1) a.cmake(1):  f()";
    "-- Configuring";
    "(2.0) (2) a.cmake(2):  g(x";
    "    y)";
    "(3.5) (1) a.cmake(3):  h()" ].


(** Three events without nesting levels in two files. *)
Definition flat_events : list event :=
  [ mk_event None 1 "a.cmake" 10 "f()";
    mk_event None 2 "b.cmake" 1 "g()";
    mk_event None 3 "a.cmake" 12 "h()" ].

(** ** The keyword test of the parser, in two readings *)

Fixpoint all_space (s : string) : bool :=
  match s with
  | EmptyString => true
  | String c s' => is_space c && all_space s'
  end.





(** ** Depth transitions in the words of the specification

    The cursor is [level] steps below the root. An increase of the depth
    by more than one is fatal, a decrease by [d] ascends [d] levels and is
    fatal when it would pass the root, an increase by one descends one
    level. The depth before the first event is 1, as in the script. *)
Fixpoint spec_fatal (level : nat) (previous_depth : Z) (depths : list Z) : bool :=
  match depths with
  | [] => false
  | d :: depths =>
      let diff := (d - previous_depth)%Z in
      if (1 <? diff)%Z then true
      else if (diff <? 0)%Z && (Z.of_nat level <? - diff)%Z then true
      else spec_fatal (Z.to_nat (Z.of_nat level + diff)) d depths
  end.

(** Three events with the depths 1, 0, 1. *)
Definition zero_depth_events : list event :=
  [ mk_event (Some 1%Z) 1 "a.cmake" 1 "f()";
    mk_event (Some 0%Z) 2 "a.cmake" 2 "g()";
    mk_event (Some 1%Z) 3 "a.cmake" 3 "h()" ].

(** The depth of an event as [_collect_stats] keeps it: [0] when unknown. *)
Definition depth_of (ev : event) : Z := default 0%Z (nesting ev).

(** Two events whose depth jumps from 1 to 3, and two events at depth 2. *)
Definition jump_events : list event :=
  [ mk_event (Some 1%Z) 1 "a.cmake" 1 "f()";
    mk_event (Some 3%Z) 2 "a.cmake" 2 "g()" ].

Definition deep_start_events : list event :=
  [ mk_event (Some 2%Z) 1 "a.cmake" 1 "f()";
    mk_event (Some 2%Z) 2 "a.cmake" 2 "g()" ].

(** ** Further definitions *)

(** The number of occurrences of a character. *)
Fixpoint count_char (c : ascii) (s : string) : Z :=
  match s with
  | EmptyString => 0%Z
  | String a s' => ((if Ascii.eqb a c then 1 else 0) + count_char c s')%Z
  end.

(** A carriage return and a newline, the line end of a Windows file. *)
Definition crlf : string := String "013" (String "010" EmptyString).

(** The groups of the lines that [matcher] matches, in their order. *)
Definition matched_lines (file_obj : list string) : list line_match :=
  omap (λ line, matcher_match (rstrip line)) file_obj.

(** [ti'] is [ti] with more code appended. *)
Definition extends (ti ti' : CmakeTraceInfo) : Prop :=
  cmake_file ti' = cmake_file ti ∧ cmake_line ti' = cmake_line ti ∧
  ∃ suffix, cmake_code_line ti' = (cmake_code_line ti ++ suffix)%string.

(** The event [ev] is the event of the matched line with the groups [m]. *)
Definition event_of_line (py_float : string → option Qc)
    (py_int : string → option Z) (m : line_match) (ev : event) : Prop :=
  py_float (g_timestamp m) = Some (timeval ev) ∧
  ∃ line, py_int (g_line m) = Some line ∧
          extends (mkTraceInfo (g_file m) line (g_code m)) (site ev).

(** The lines that [matcher] does not match, stripped. *)
Definition unmatched_lines (file_obj : list string) : list string :=
  omap (λ line, match matcher_match (rstrip line) with
                | Some _ => None
                | None => Some (rstrip line)
                end) file_obj.

(** The stored tree [t] is a copy of the object [i] of the heap and of
    everything below it: call sites, durations, children in order. *)
Inductive mirrors (h : heap) : ref → StoredTrace → Prop :=
  | mirrors_node (i : ref) (n : CmakeTrace) (subs : list StoredTrace) :
      h !! i = Some n →
      Forall2 (mirrors h) (subtraces n) subs →
      mirrors h i (mkStored (trace_info n) (duration n) subs).

(** A sequence of depths that starts at 1, never falls below 1 and never
    grows by more than one; [prev] is the depth before the first. *)
Fixpoint well_nested (prev : Z) (depths : list Z) : bool :=
  match depths with
  | [] => true
  | d :: depths => (1 <=? d)%Z && (d <=? prev + 1)%Z && well_nested d depths
  end.

(** The number of objects above the object [i], the root included. *)
Definition level (h : heap) (i : ref) : Z :=
  Z.of_nat (length (ancestors h i)) - 1.


(** The builder follows the depths of [events]: the state remembers the
    depth of the last event, the cursor sits one level above the depth of
    the event before it, and every event that has a successor has its
    object at the level of its depth. The object of the event at position
    [i] is the object [S i]. *)
Definition follows_depths (events : list event) (s : collect_state) : Prop :=
  previous_nesting s = default 1%Z (last (depth_of <$> events)) ∧
  (1 ≤ previous_nesting s)%Z ∧
  (level (st_heap s) (st_parent s) + 1 =
     previous_nesting s - previous_nesting_diff s)%Z ∧
  (previous_nesting_diff s ≤ 1)%Z ∧
  (length (st_heap s) = 1 → previous_nesting_diff s = 0%Z) ∧
  ∀ i ev, events !! i = Some ev → S i < length events →
          level (st_heap s) (S i) = depth_of ev.

(** ** The call-site formatters and the report of [_main] *)

(** [len(n)] for an [int] [n]: an [int] has no length. *)
Definition py_len_int (n : Z) : result Z := Raise TypeError.

(** The position that the slice bound [k] names in a string of length
    [len]: a negative bound counts from the end, and bounds are clipped. *)
Definition py_bound (len k : Z) : nat :=
  Z.to_nat (if (k <? 0)%Z then Z.max 0 (len + k) else Z.min k len).

(** [s[:k]] *)
Definition slice_to (s : string) (k : Z) : string :=
  substring 0 (py_bound (Z.of_nat (String.length s)) k) s.

(** [s[k:]] *)
Definition slice_from (s : string) (k : Z) : string :=
  let n := py_bound (Z.of_nat (String.length s)) k in
  substring n (String.length s - n) s.

Fixpoint dots (n : nat) : string :=
  match n with
  | O => EmptyString
  | S n => String "." (dots n)
  end.

(** [s.ljust(width, '.')] *)
Definition ljust (s : string) (width : Z) : string :=
  (s ++ dots (Z.to_nat (width - Z.of_nat (String.length s))))%string.

(** ['[{}]{}({}):  {}'.format(nesting, file, line, code)] *)
Definition format_site (nesting file : string) (line : Z) (code : string)
    : string :=
  ("[" ++ nesting ++ "]" ++ file ++ "(" ++ pretty line ++ "):  " ++ code)%string.

(** [_CmakeTraceInfo.to_string_adjusted], called as an unbound method:
    the first argument has to be a [_CmakeTraceInfo]. The first statement
    takes [len] of [self.cmake_line], which the parser made an [int]. *)
Definition to_string_adjusted (self : option CmakeTraceInfo)
    (width : option Z) (nesting : string) : result string :=
  match self with
  | None => Raise TypeError
  | Some self =>
      line_len ← py_len_int (cmake_line self);
      match width with
      | None => Raise TypeError
      | Some width =>
          let file_width :=
            (width - (line_len + Z.of_nat (String.length nesting)))%Z in
          let cmake_file_len := Z.of_nat (String.length (cmake_file self)) in
          adjusted_file ←
            (if (file_width <? cmake_file_len)%Z then
               if (5 <=? file_width)%Z then
                 let half_file_width := (file_width / 2)%Z in
                 Ok (slice_to (cmake_file self) (half_file_width - 1) ++
                     "..." ++
                     slice_from (cmake_file self)
                       (cmake_file_len + 2 - half_file_width))%string
               else Raise (AssertionError EmptyString)
             else Ok (cmake_file self));
          Ok (format_site nesting (ljust adjusted_file file_width)
                (cmake_line self) (cmake_code_line self))
      end
  end.

(** [_CmakeTraceInfo.to_string_plain], called as an unbound method. *)
Definition to_string_plain (self : option CmakeTraceInfo)
    (width : option Z) (nesting : string) : result string :=
  match self with
  | None => Raise TypeError
  | Some self =>
      match width with
      | Some _ => Raise (AssertionError EmptyString)
      | None =>
          Ok (format_site nesting (cmake_file self) (cmake_line self)
                (cmake_code_line self))
      end
  end.

(** The formatter that [_main] selects. *)
Definition trace_info_to_string (args : arguments)
    : option CmakeTraceInfo → option Z → string → result string :=
  match trace_info_width args with
  | None => to_string_plain
  | Some _ => to_string_adjusted
  end.

(** The end of [_main]: the whole duration, the formatter and the call
    of [_print_traces], on the traces collected or read from the shelf. *)
Definition report (args : arguments) (all_traces : list StoredTrace) : printed :=
  print_traces args (trace_info_to_string args) all_traces
    (whole_duration_of all_traces).

(** The nodes of a stored tree in the order of the trace, each with its
    distance from the top level. *)
Fixpoint preorder (indent : nat) (t : StoredTrace) : list (nat * StoredTrace) :=
  match t with
  | mkStored _ _ subs =>
      (indent, t) ::
      (fix preorder_list (l : list StoredTrace) : list (nat * StoredTrace) :=
         match l with
         | [] => []
         | t' :: l' => preorder (S indent) t' ++ preorder_list l'
         end) subs
  end.

Definition preorder_forest (indent : nat) (l : list StoredTrace)
    : list (nat * StoredTrace) :=
  foldr (λ t acc, preorder indent t ++ acc) [] l.

(** The line that the report prints for the node [it.2] at the level
    [it.1] with the plain formatter. *)
Definition plain_line (whole_duration : Qc) (it : nat * StoredTrace)
    : report_line :=
  mkLine (it.1 * indent_step)
    (match to_string_plain (s_trace_info it.2) None (pretty (it.1 + 1)%nat) with
     | Ok ti_str => ti_str
     | Raise _ => EmptyString
     end)
    (s_duration it.2)
    (s_duration it.2 / whole_duration * Q2Qc 100)%Qc.

(** Every node of the tree has a call site and a duration that is not
    negative. *)
Fixpoint printable (t : StoredTrace) : bool :=
  match t with
  | mkStored ti d subs =>
      bool_decide (is_Some ti) && bool_decide (0 ≤ d)%Qc &&
      (fix printable_list (l : list StoredTrace) : bool :=
         match l with
         | [] => true
         | t' :: l' => printable t' && printable_list l'
         end) subs
  end.

(** ** The order of the trace

    The objects are numbered in the order of their creation. The tree
    keeps that order when the objects below every object [i] are the
    [sz i - 1] objects that follow [i], the children of [i] one block
    after the other. *)

(** The children [l] are the heads of consecutive blocks that begin at
    [start], the block of [c] being [sz c] objects long. *)
Fixpoint tiles (sz : ref → nat) (start : nat) (l : list ref) : Prop :=
  match l with
  | [] => True
  | c :: l' => c = start ∧ tiles sz (start + sz c) l'
  end.

Record tiled (h : heap) (sz : ref → nat) : Prop := mkTiled {
  tiled_sizes : balanced Nat.add 0 h (λ _, 1) sz;
  tiled_children : ∀ i n, h !! i = Some n → tiles sz (S i) (subtraces n);
  tiled_bound : ∀ i, i < length h → i + sz i ≤ length h
}.

(** The sizes after a leaf was appended below [p]. *)
Definition sizes_after (h : heap) (p : ref) (sz : ref → nat) : ref → nat :=
  λ i, if decide (i = length h) then 1
       else if decide (i ∈ ancestors h p) then sz i + 1 else sz i.

(** The call site of the object [i]. *)
Definition site_at (h : heap) (i : ref) : option CmakeTraceInfo :=
  n ← h !! i; trace_info n.

(** The builder keeps the order of the trace: the blocks are in place,
    and the object made last is the first frame seen from the cursor. *)
Definition in_trace_order (h : heap) (p : ref) : Prop :=
  (∃ sz, tiled h sz) ∧ innermost h p = length h - 1.

(** ** The shape of a trace line *)

(** The character [c] does not occur in [s]. *)
Fixpoint lacks (c : ascii) (s : string) : bool :=
  match s with
  | EmptyString => true
  | String a s' => negb (Ascii.eqb a c) && lacks c s'
  end.

(** A line made of the groups [m], with the white space [ws1] after the
    time stamp, [ws2] after the depth and [ws3] before the code. *)
Definition trace_line (ws1 ws2 ws3 : string) (m : line_match) : string :=
  let call_site :=
    (g_file m ++ "(" ++ g_line m ++ "):" ++ ws3 ++ g_code m)%string in
  ("(" ++ g_timestamp m ++ ")" ++ ws1 ++
   match g_frame m with
   | Some frame => "(" ++ frame ++ ")" ++ ws2 ++ call_site
   | None => call_site
   end)%string.

(** ** Nesting without depth *)

(** The file of the call site of the object [i], [None] for the root. *)
Definition file_at (h : heap) (i : ref) : option string :=
  n ← h !! i; ti ← trace_info n; Some (cmake_file ti).

(** No object has the file of its parent. *)
Definition across_files (h : heap) : Prop :=
  ∀ i q, parent_of h i = Some q → file_at h i ≠ file_at h q.

(** ** Statements that span lines *)

(** The code [code] followed by the lines [ls], each behind a backslash
    and the letter n, as [_parse_cmake_log] joins them. *)
Definition join_lines (code : string) (ls : list string) : string :=
  foldl (λ c l, c ++ "\n" ++ l)%string code ls.

(** The call site [ti] with the code [code]. *)
Definition with_code (ti : CmakeTraceInfo) (code : string) : CmakeTraceInfo :=
  mkTraceInfo (cmake_file ti) (cmake_line ti) code.
(** ** Lemmas on the exception monad *)

Lemma bind_Ok {A B : Type} (m : result A) (f : A → result B) (b : B) :
  (m ≫= f) = Ok b → ∃ a, m = Ok a ∧ f a = Ok b.
Proof. destruct m as [a|e]; simpl; [eauto | discriminate]. Qed.

Lemma bind_Raise {A B : Type} (m : result A) (f : A → result B) (e : exn) :
  (m ≫= f) = Raise e → m = Raise e ∨ ∃ a, m = Ok a ∧ f a = Raise e.
Proof. destruct m as [a|e']; simpl; [eauto | intros [= ->]; auto]. Qed.

Lemma deref_Ok (h : heap) (r : ref) (n : CmakeTrace) :
  deref h r = Ok n ↔ h !! r = Some n.
Proof. unfold deref. destruct (h !! r); split; congruence. Qed.

Ltac inv_bind H :=
  let a := fresh "a" in
  let Ha := fresh "Ha" in
  apply bind_Ok in H; destruct H as (a & Ha & H).

(** ** Parent chains *)

Lemma wf_decreasing (h : heap) : wf h → decreasing h.
Proof.
  intros Hwf i n q Hi Hq. destruct (decide (i = 0)) as [->|Hne].
  - destruct (wf_root h Hwf) as (r & Hr & Hp & _). congruence.
  - destruct (wf_node h Hwf i n Hi Hne) as (_ & q' & Hq' & Hlt). congruence.
Qed.

Section Decreasing.

Variable h : heap.
Hypothesis Hdec : decreasing h.

Lemma wf_parent_lt (i q : ref) (n : CmakeTrace) :
  h !! i = Some n → parent_trace n = Some q → q < i.
Proof. apply Hdec. Qed.

Lemma chain_fuel (f1 f2 : nat) (p : ref) :
  p < f1 → p < f2 → chain f1 h p = chain f2 h p.
Proof.
  revert f2 p. induction f1 as [|f1 IH]; intros f2 p H1 H2; [lia|].
  destruct f2 as [|f2]; [lia|]. simpl.
  destruct (h !! p) as [n|] eqn:Hp; [|done].
  destruct (parent_trace n) as [q|] eqn:Hq; [|done].
  pose proof (wf_parent_lt p q n Hp Hq). f_equal. apply IH; lia.
Qed.

Lemma chain_S (f : nat) (p : ref) :
  chain (S f) h p =
    match h !! p with
    | None => []
    | Some n =>
        p :: match parent_trace n with None => [] | Some q => chain f h q end
    end.
Proof. reflexivity. Qed.

Lemma ancestors_unfold (p : ref) (n : CmakeTrace) :
  h !! p = Some n →
  ancestors h p =
    p :: match parent_trace n with None => [] | Some q => ancestors h q end.
Proof.
  intros Hp. unfold ancestors. rewrite chain_S, Hp.
  destruct (parent_trace n) as [q|] eqn:Hq; [|done].
  pose proof (wf_parent_lt p q n Hp Hq). f_equal. apply chain_fuel; lia.
Qed.

Lemma ancestors_dangling (p : ref) : h !! p = None → ancestors h p = [].
Proof. intros Hp. unfold ancestors. simpl. by rewrite Hp. Qed.

Lemma ancestors_le (p i : ref) : i ∈ ancestors h p → i ≤ p.
Proof.
  induction p as [p IH] using lt_wf_ind. intros Hi.
  destruct (h !! p) as [n|] eqn:Hp.
  - rewrite (ancestors_unfold p n Hp) in Hi.
    apply elem_of_cons in Hi as [->|Hi]; [lia|].
    destruct (parent_trace n) as [q|] eqn:Hq; [|by apply elem_of_nil in Hi].
    pose proof (wf_parent_lt p q n Hp Hq). specialize (IH q H Hi). lia.
  - rewrite ancestors_dangling in Hi by done. by apply elem_of_nil in Hi.
Qed.

Lemma ancestors_valid (p i : ref) : i ∈ ancestors h p → i < length h.
Proof.
  induction p as [p IH] using lt_wf_ind. intros Hi.
  destruct (h !! p) as [n|] eqn:Hp.
  - rewrite (ancestors_unfold p n Hp) in Hi.
    apply elem_of_cons in Hi as [->|Hi]; [by eapply lookup_lt_Some|].
    destruct (parent_trace n) as [q|] eqn:Hq; [|by apply elem_of_nil in Hi].
    eapply IH; [|done]. by eapply wf_parent_lt.
  - rewrite ancestors_dangling in Hi by done. by apply elem_of_nil in Hi.
Qed.

Lemma ancestors_self (p : ref) : p < length h → p ∈ ancestors h p.
Proof.
  intros Hp. apply lookup_lt_is_Some in Hp as [n Hn].
  rewrite (ancestors_unfold p n Hn). apply elem_of_cons. by left.
Qed.

End Decreasing.

Section Chains.

Variable h : heap.
Hypothesis Hwf : wf h.

Let Hdec : decreasing h := wf_decreasing h Hwf.

Lemma ancestors_root (p : ref) : p < length h → 0 ∈ ancestors h p.
Proof.
  induction p as [p IH] using lt_wf_ind. intros Hp.
  apply lookup_lt_is_Some in Hp as [n Hn].
  rewrite (ancestors_unfold h Hdec p n Hn).
  destruct (decide (p = 0)) as [->|Hne]; [apply elem_of_cons; by left|].
  destruct (wf_node h Hwf p n Hn Hne) as (_ & q & Hq & Hlt).
  rewrite Hq. apply elem_of_cons. right. apply IH; [done|].
  pose proof (lookup_lt_Some _ _ _ Hn). lia.
Qed.

Lemma child_parent (i k : ref) (n : CmakeTrace) :
  h !! i = Some n → k ∈ subtraces n → parent_of h k = Some i.
Proof. intros Hi Hk. by apply (wf_child h Hwf i n k Hi). Qed.

Lemma child_gt (i k : ref) (n : CmakeTrace) :
  h !! i = Some n → k ∈ subtraces n → i < k < length h.
Proof.
  intros Hi Hk. pose proof (child_parent i k n Hi Hk) as Hpar.
  unfold parent_of in Hpar. destruct (h !! k) as [m|] eqn:Hm; [|done].
  simpl in Hpar. split; [by eapply (wf_parent_lt h Hdec) | by eapply lookup_lt_Some].
Qed.

(** The children of an object [i] and the chain of [p]: a strict
    ancestor of [p] has exactly one child on the chain, any other
    object has none. *)
Lemma chain_child (p i : ref) (n : CmakeTrace) :
  h !! i = Some n →
  (i ∈ ancestors h p ∧ i ≠ p ∧
     ∃ l1 k l2, subtraces n = l1 ++ k :: l2 ∧ k ∈ ancestors h p ∧
                ∀ k', k' ∈ l1 ++ l2 → k' ∉ ancestors h p)
  ∨ ((i = p ∨ i ∉ ancestors h p) ∧
     ∀ k, k ∈ subtraces n → k ∉ ancestors h p).
Proof.
  intros Hi. induction p as [p IH] using lt_wf_ind.
  destruct (h !! p) as [m|] eqn:Hp; cycle 1.
  { right. rewrite ancestors_dangling by done.
    split; [right|intros k _]; apply not_elem_of_nil. }
  rewrite (ancestors_unfold h Hdec p m Hp).
  destruct (parent_trace m) as [q|] eqn:Hq; cycle 1.
  { right. split.
    - destruct (decide (i = p)); [by left|right].
      apply not_elem_of_cons. split; [done|apply not_elem_of_nil].
    - intros k Hk. apply not_elem_of_cons. split; [|apply not_elem_of_nil].
      intros ->. apply (child_parent i p n Hi) in Hk.
      unfold parent_of in Hk. rewrite Hp in Hk. simpl in Hk. congruence. }
  pose proof (wf_parent_lt h Hdec p q m Hp Hq) as Hlt.
  assert (Hpar : parent_of h p = Some q).
  { unfold parent_of. rewrite Hp. done. }
  destruct (IH q Hlt) as [(Hin & Hne & l1 & k & l2 & Hsplit & Hk & Hrest)
                         |([->|Hnin] & Hall)].
  - left. split; [apply elem_of_cons; by right|].
    split; [apply (ancestors_le h Hdec) in Hin; lia|].
    exists l1, k, l2. split; [done|]. split; [apply elem_of_cons; by right|].
    intros k' Hk'. apply not_elem_of_cons. split; [|by apply Hrest].
    intros ->. assert (Hc : p ∈ subtraces n).
    { rewrite Hsplit. apply elem_of_app in Hk' as [?|?];
        [apply elem_of_app; by left
        |apply elem_of_app; right; apply elem_of_cons; by right]. }
    apply (child_parent i p n Hi) in Hc. congruence.
  - left. assert (Hc : p ∈ subtraces n) by by apply (wf_child h Hwf q n p Hi).
    split; [apply elem_of_cons; right; apply (ancestors_self h Hdec);
            by eapply lookup_lt_Some|].
    split; [lia|].
    apply list_elem_of_split in Hc as (l1 & l2 & Hsplit).
    exists l1, p, l2. split; [done|]. split; [apply elem_of_cons; by left|].
    intros k' Hk'. pose proof (wf_nodup h Hwf q n Hi) as Hnd.
    rewrite Hsplit in Hnd. apply NoDup_app in Hnd as (_ & Hd1 & Hnd).
    apply NoDup_cons in Hnd as (Hd2 & _).
    apply not_elem_of_cons. split.
    + intros ->. apply elem_of_app in Hk' as [H1|H2]; [|done].
      apply (Hd1 p H1). apply elem_of_cons. by left.
    + apply Hall. rewrite Hsplit.
      apply elem_of_app in Hk' as [?|?];
        [apply elem_of_app; by left
        |apply elem_of_app; right; apply elem_of_cons; by right].
  - right. split.
    + destruct (decide (i = p)) as [->|Hne]; [by left|right].
      apply not_elem_of_cons. by split.
    + intros k Hk. apply not_elem_of_cons. split; [|by apply Hall].
      intros ->. apply (child_parent i p n Hi) in Hk.
      assert (i = q) as -> by congruence.
      apply Hnin, (ancestors_self h Hdec). by eapply lookup_lt_Some.
Qed.

End Chains.

(** ** The constructor and the append *)

Lemma chain_agree (g1 g2 : heap) (f : nat) (p : ref) :
  decreasing g1 →
  (∀ i, i ≤ p → parent_trace <$> g1 !! i = parent_trace <$> g2 !! i) →
  chain f g1 p = chain f g2 p.
Proof.
  intros Hdec. revert p. induction f as [|f IH]; intros p Hagree; [done|].
  simpl. pose proof (Hagree p (le_n p)) as Hp.
  destruct (g1 !! p) as [n1|] eqn:H1, (g2 !! p) as [n2|] eqn:H2;
    simpl in Hp; try done.
  injection Hp as Hp. rewrite <- Hp. f_equal.
  destruct (parent_trace n1) as [q|] eqn:Hq; [|done].
  pose proof (Hdec p n1 q H1 Hq). apply IH. intros i Hi. apply Hagree. lia.
Qed.

Lemma ancestors_agree (g1 g2 : heap) (p : ref) :
  decreasing g1 →
  (∀ i, i ≤ p → parent_trace <$> g1 !! i = parent_trace <$> g2 !! i) →
  ancestors g1 p = ancestors g2 p.
Proof. apply chain_agree. Qed.

Lemma decreasing_insert (g : heap) (p : ref) (n n' : CmakeTrace) :
  decreasing g → g !! p = Some n → parent_trace n' = parent_trace n →
  decreasing (<[p := n']> g).
Proof.
  intros Hdec Hp Hpar i m q Hi Hq.
  destruct (decide (i = p)) as [->|Hne].
  - rewrite list_lookup_insert_eq in Hi by by eapply lookup_lt_Some.
    injection Hi as <-. rewrite Hpar in Hq. by eapply Hdec.
  - rewrite list_lookup_insert_ne in Hi by done. by eapply Hdec.
Qed.

Lemma propagate_None (fuel : nat) (g : heap) (d : Qc) :
  propagate fuel g None d = Ok g.
Proof. by destruct fuel. Qed.

Lemma propagate_bump (d : Qc) (fuel : nat) (g : heap) (p : ref) :
  decreasing g → p < length g → p < fuel →
  propagate fuel g (Some p) d = Ok (bump (ancestors g p) d g).
Proof.
  revert g p. induction fuel as [|fuel IH]; intros g p Hdec Hp Hfuel; [lia|].
  simpl. apply lookup_lt_is_Some in Hp as [n Hn]. rewrite Hn.
  rewrite (ancestors_unfold g Hdec p n Hn).
  set (n' := set_duration (duration n + d)%Qc n).
  assert (Hlen : p < length g) by by eapply lookup_lt_Some.
  destruct (parent_trace n) as [q|] eqn:Hq.
  - pose proof (Hdec p n q Hn Hq) as Hlt.
    assert (Hdec' : decreasing (<[p := n']> g)) by by eapply decreasing_insert.
    rewrite IH; [|done|rewrite length_insert; lia|lia].
    assert (Hanc : ancestors (<[p := n']> g) q = ancestors g q).
    { apply ancestors_agree; [done|]. intros i Hi.
      rewrite list_lookup_insert_ne by lia. done. }
    rewrite Hanc. f_equal. apply list_eq. intros i. unfold bump.
    rewrite !list_lookup_imap.
    destruct (decide (i = p)) as [->|Hne].
    + rewrite list_lookup_insert_eq by done. rewrite Hn. simpl.
      rewrite decide_False, decide_True; [done|apply elem_of_cons; by left|].
      intros Hin. apply (ancestors_le g Hdec) in Hin. lia.
    + rewrite list_lookup_insert_ne by done.
      destruct (g !! i) as [m|]; [simpl|done].
      destruct (decide (i ∈ ancestors g q)) as [Hin|Hnin].
      * rewrite decide_True; [done|apply elem_of_cons; by right].
      * rewrite decide_False; [done|]. apply not_elem_of_cons. by split.
  - rewrite propagate_None. f_equal. apply list_eq. intros i. unfold bump.
    rewrite list_lookup_imap.
    destruct (decide (i = p)) as [->|Hne].
    + rewrite list_lookup_insert_eq by done. rewrite Hn. simpl.
      rewrite decide_True; [done|apply elem_of_cons; by left].
    + rewrite list_lookup_insert_ne by done.
      destruct (g !! i) as [m|]; [simpl|done].
      rewrite decide_False; [done|].
      apply not_elem_of_cons. split; [done|apply not_elem_of_nil].
Qed.

Section Append.

Variables (h : heap) (p : ref) (d : Qc) (ti : CmakeTraceInfo).
Hypothesis Hwf : wf h.
Hypothesis Hp : p < length h.

Let Hdec : decreasing h := wf_decreasing h Hwf.

Lemma decreasing_alloc : decreasing (h ++ [mkTrace d (Some ti) (Some p) []]).
Proof.
  intros i n q Hi Hq. destruct (decide (i < length h)) as [Hlt|Hge].
  - rewrite lookup_app_l in Hi by done. by eapply Hdec.
  - rewrite lookup_app_r in Hi by lia.
    destruct (i - length h) as [|k] eqn:Hk; simpl in Hi; [|done].
    injection Hi as <-. simpl in Hq. injection Hq as <-. lia.
Qed.

Lemma ancestors_alloc (q : ref) :
  q < length h →
  ancestors (h ++ [mkTrace d (Some ti) (Some p) []]) q = ancestors h q.
Proof.
  intros Hq. apply ancestors_agree; [apply decreasing_alloc|].
  intros i Hi. rewrite lookup_app_l by lia. done.
Qed.

Lemma append_new_trace_appended :
  append_new_trace h p d ti = Ok (appended h p d ti).
Proof.
  unfold append_new_trace, CmakeTrace_init.
  rewrite propagate_bump;
    [|apply decreasing_alloc|rewrite length_app; simpl; lia|done].
  simpl. rewrite ancestors_alloc by done.
  pose proof Hp as Hp'. apply lookup_lt_is_Some in Hp' as [n Hn].
  unfold deref, bump. rewrite list_lookup_imap, lookup_app_l, Hn by done.
  simpl. f_equal. apply list_eq. intros i. unfold appended.
  destruct (decide (i = p)) as [->|Hne].
  - rewrite list_lookup_insert_eq
      by (rewrite length_imap, length_app; simpl; lia).
    rewrite lookup_app_l by (rewrite length_imap; lia).
    rewrite list_lookup_imap, Hn. simpl.
    rewrite (decide_True (P := p = p)) by done.
    by destruct (decide (p ∈ ancestors h p)).
  - rewrite list_lookup_insert_ne by done. rewrite list_lookup_imap.
    destruct (decide (i < length h)) as [Hlt|Hge].
    + rewrite !lookup_app_l by (rewrite ?length_imap; lia).
      rewrite list_lookup_imap.
      destruct (h !! i) as [m|]; [simpl|done].
      rewrite (decide_False (P := i = p)) by done.
      by destruct (decide (i ∈ ancestors h p)), m.
    + rewrite !lookup_app_r by (rewrite ?length_imap; lia).
      rewrite length_imap.
      destruct (i - length h) as [|k] eqn:Hk; simpl; [|done].
      rewrite decide_False; [done|].
      intros Hin. apply (ancestors_valid h Hdec) in Hin. lia.
Qed.

Lemma appended_length : length (appended h p d ti) = S (length h).
Proof. unfold appended. rewrite length_app, length_imap. simpl. lia. Qed.

Lemma appended_new :
  appended h p d ti !! length h = Some (mkTrace d (Some ti) (Some p) []).
Proof.
  unfold appended. rewrite lookup_app_r by (rewrite length_imap; lia).
  rewrite length_imap, Nat.sub_diag. done.
Qed.

Lemma appended_old (i : ref) (n : CmakeTrace) :
  h !! i = Some n →
  appended h p d ti !! i =
    Some (mkTrace
            (if decide (i ∈ ancestors h p) then (duration n + d)%Qc
             else duration n)
            (trace_info n) (parent_trace n)
            (if decide (i = p) then subtraces n ++ [length h]
             else subtraces n)).
Proof.
  intros Hi. unfold appended.
  rewrite lookup_app_l by (rewrite length_imap; by eapply lookup_lt_Some).
  rewrite list_lookup_imap, Hi. done.
Qed.

Lemma appended_inv (i : ref) (n' : CmakeTrace) :
  appended h p d ti !! i = Some n' →
  (i = length h ∧ n' = mkTrace d (Some ti) (Some p) []) ∨
  (∃ n, h !! i = Some n ∧
     n' = mkTrace
            (if decide (i ∈ ancestors h p) then (duration n + d)%Qc
             else duration n)
            (trace_info n) (parent_trace n)
            (if decide (i = p) then subtraces n ++ [length h]
             else subtraces n)).
Proof.
  intros Hi. destruct (h !! i) as [n|] eqn:Hn.
  - right. exists n. split; [done|]. rewrite (appended_old i n Hn) in Hi. congruence.
  - left. apply lookup_ge_None in Hn.
    pose proof (lookup_lt_Some _ _ _ Hi) as Hlt. rewrite appended_length in Hlt.
    assert (i = length h) as -> by lia. rewrite appended_new in Hi.
    split; congruence.
Qed.

Lemma appended_parent_of (k : ref) :
  parent_of (appended h p d ti) k =
    if decide (k = length h) then Some p else parent_of h k.
Proof.
  unfold parent_of. destruct (decide (k = length h)) as [->|Hne].
  - rewrite appended_new. done.
  - destruct (h !! k) as [n|] eqn:Hn.
    + rewrite (appended_old k n Hn). done.
    + apply lookup_ge_None in Hn.
      rewrite (proj2 (lookup_ge_None _ _)); [done|].
      rewrite appended_length. lia.
Qed.

Lemma appended_wf : wf (appended h p d ti).
Proof.
  split.
  - destruct (wf_root h Hwf) as (r & Hr & Hpar & Hti).
    eexists. split; [by apply appended_old|]. done.
  - intros i n' Hi Hne. apply appended_inv in Hi as [[-> ->]|(n & Hn & ->)]; simpl.
    + split; [by eexists|]. exists p. done.
    + by apply (wf_node h Hwf).
  - intros i n' Hi. apply appended_inv in Hi as [[-> ->]|(n & Hn & ->)]; simpl.
    + apply NoDup_nil_2.
    + pose proof (wf_nodup h Hwf i n Hn) as Hnd.
      destruct (decide (i = p)); [|done].
      apply NoDup_app. split; [done|]. split; [|apply NoDup_singleton].
      intros k Hk Hk'. apply list_elem_of_singleton in Hk' as ->.
      apply (child_gt h Hwf i _ n Hn) in Hk. lia.
  - intros i n' k Hi. rewrite appended_parent_of.
    apply appended_inv in Hi as [[-> ->]|(n & Hn & ->)]; simpl.
    + split; [intros Hk; by apply elem_of_nil in Hk|].
      destruct (decide (k = length h)) as [->|Hne]; [intros [= Heq]; lia|].
      intros Hk. unfold parent_of in Hk.
      destruct (h !! k) as [m|] eqn:Hm; [simpl in Hk|done].
      pose proof (Hdec k m _ Hm Hk). pose proof (lookup_lt_Some _ _ _ Hm). lia.
    + pose proof (lookup_lt_Some _ _ _ Hn) as Hlt.
      destruct (decide (k = length h)) as [->|Hne].
      * destruct (decide (i = p)) as [->|Hip].
        -- split; [done|]. intros _. apply elem_of_app. right.
           by apply list_elem_of_singleton.
        -- split; [|congruence]. intros Hk.
           apply (child_gt h Hwf i _ n Hn) in Hk. lia.
      * rewrite <- (wf_child h Hwf i n k Hn).
        destruct (decide (i = p)); [|done].
        rewrite elem_of_app, list_elem_of_singleton.
        split; [intros [Hk|Hk]; [done|lia] | by left].
Qed.

End Append.

(** ** Balanced weights survive the creation of a node *)

Section WeightLemmas.

Context {M : Type} (add : M → M → M) (zero : M).
Context `{!Assoc (=) add, !Comm (=) add, !LeftId (=) zero add}.

Lemma add_zero_r (x : M) : add x zero = x.
Proof. by rewrite (comm add), (left_id zero add). Qed.

Lemma msum_app (W : ref → M) (l1 l2 : list ref) :
  msum add zero W (l1 ++ l2) = add (msum add zero W l1) (msum add zero W l2).
Proof.
  induction l1 as [|k l1 IH]; simpl.
  - by rewrite (left_id zero add).
  - by rewrite IH, (assoc add).
Qed.

Lemma msum_ext (W W' : ref → M) (l : list ref) :
  (∀ k, k ∈ l → W' k = W k) → msum add zero W' l = msum add zero W l.
Proof.
  induction l as [|k l IH]; intros Hl; simpl; [done|].
  rewrite Hl by (apply elem_of_cons; by left).
  rewrite IH; [done|]. intros k' Hk'. apply Hl, elem_of_cons. by right.
Qed.

Lemma msum_one_bumped (W W' : ref → M) (x : M) (l1 l2 : list ref) (k : ref) :
  W' k = add (W k) x →
  (∀ k', k' ∈ l1 ++ l2 → W' k' = W k') →
  msum add zero W' (l1 ++ k :: l2) = add (msum add zero W (l1 ++ k :: l2)) x.
Proof.
  intros Hk Hrest. rewrite !msum_app. simpl. rewrite Hk.
  rewrite (msum_ext W W' l1), (msum_ext W W' l2);
    try (intros k' Hk'; apply Hrest, elem_of_app; auto).
  rewrite <- !(assoc add). f_equal.
  rewrite (comm add (msum add zero W l2) x). by rewrite !(assoc add).
Qed.

Lemma balanced_appended (h : heap) (p : ref) (d : Qc) (ti : CmakeTraceInfo)
    (w W w' W' : ref → M) (x : M) :
  wf h → p < length h → balanced add zero h w W →
  w' (length h) = x → W' (length h) = x →
  (∀ i, i < length h → w' i = w i) →
  (∀ i, i < length h →
     W' i = if decide (i ∈ ancestors h p) then add (W i) x else W i) →
  balanced add zero (appended h p d ti) w' W'.
Proof.
  intros Hwf Hp Hbal Hw Hx Hw' HW' i n' Hi.
  pose proof (wf_decreasing h Hwf) as Hdec.
  apply (appended_inv h p d ti Hp) in Hi as [[-> ->]|(n & Hn & ->)]; simpl.
  { by rewrite Hw, Hx, add_zero_r. }
  pose proof (lookup_lt_Some _ _ _ Hn) as Hlt.
  rewrite Hw', HW' by done. rewrite (Hbal i n Hn).
  assert (Hkids : ∀ k, k ∈ subtraces n → k < length h).
  { intros k Hk. apply (child_gt h Hwf i k n Hn) in Hk. lia. }
  destruct (chain_child h Hwf p i n Hn)
    as [(Hin & Hne & l1 & k & l2 & Hsplit & Hk & Hrest)|(Hor & Hall)].
  - rewrite decide_True, (decide_False (P := i = p)) by done.
    rewrite Hsplit, (msum_one_bumped W W' x).
    + by rewrite (assoc add).
    + rewrite HW', decide_True; [done..|].
      apply Hkids. rewrite Hsplit, elem_of_app, elem_of_cons. auto.
    + intros k' Hk'. rewrite HW', decide_False; [done|by apply Hrest|].
      apply Hkids. rewrite Hsplit, elem_of_app, elem_of_cons.
      apply elem_of_app in Hk'. tauto.
  - assert (Hsame : msum add zero W' (subtraces n) = msum add zero W (subtraces n)).
    { apply msum_ext. intros k Hk.
      rewrite HW', decide_False; [done|by apply Hall|by apply Hkids]. }
    destruct (decide (i = p)) as [->|Hne].
    + rewrite decide_True by by apply (ancestors_self h Hdec).
      rewrite msum_app, Hsame. simpl. rewrite Hx, add_zero_r.
      by rewrite (assoc add).
    + destruct Hor as [?|Hnin]; [done|].
      by rewrite decide_False, Hsame.
Qed.

End WeightLemmas.

(** ** Frames and ascent *)

Section Frames.

Variable h : heap.
Hypothesis Hwf : wf h.

Let Hdec : decreasing h := wf_decreasing h Hwf.

Lemma frames_from_ok (fuel : nat) (t : ref) :
  t < length h → t < fuel →
  frames_from fuel h t = Ok (frame_of h <$> ancestors h t).
Proof.
  revert t. induction fuel as [|fuel IH]; intros t Ht Hfuel; [lia|].
  apply lookup_lt_is_Some in Ht as [n Hn].
  simpl. unfold deref. rewrite Hn. simpl.
  rewrite (ancestors_unfold h Hdec t n Hn). simpl.
  unfold frame_of at 1. rewrite Hn.
  destruct (parent_trace n) as [q|] eqn:Hq; [|done].
  pose proof (Hdec t n q Hn Hq) as Hlt.
  pose proof (lookup_lt_Some _ _ _ Hn) as Hlen.
  rewrite IH by lia. done.
Qed.

Lemma innermost_valid (p : ref) : p < length h → innermost h p < length h.
Proof.
  intros Hp. unfold innermost. destruct (h !! p) as [n|] eqn:Hn; [|done].
  destruct (last (subtraces n)) as [c|] eqn:Hc; [simpl|done].
  apply last_Some_elem_of in Hc. apply (child_gt h Hwf p c n Hn) in Hc. lia.
Qed.

Lemma enumerate_frames_ok (p : ref) :
  p < length h →
  enumerate_frames h p = Ok (frame_of h <$> ancestors h (innermost h p)).
Proof.
  intros Hp. pose proof (innermost_valid p Hp) as Hin.
  unfold enumerate_frames, deref, innermost in *.
  apply lookup_lt_is_Some in Hp as [n Hn]. rewrite Hn in *. simpl.
  destruct (last (subtraces n)) as [c|]; simpl in *; by apply frames_from_ok.
Qed.

Lemma ascend_lookup (k : nat) (p : ref) :
  p < length h →
  ascend h k p =
    match ancestors h p !! k with
    | Some q => Ok q
    | None => Raise (AssertionError "")
    end.
Proof.
  revert p. induction k as [|k IH]; intros p Hp;
    apply lookup_lt_is_Some in Hp as [n Hn];
    rewrite (ancestors_unfold h Hdec p n Hn); simpl; [done|].
  unfold deref. rewrite Hn. simpl.
  destruct (parent_trace n) as [q|] eqn:Hq; [|done].
  apply IH. pose proof (Hdec p n q Hn Hq). pose proof (lookup_lt_Some _ _ _ Hn). lia.
Qed.

End Frames.

(** ** The loop of the nesting resolver *)

Section Resolver.

Variable h : heap.
Variable ti : CmakeTraceInfo.
Hypothesis Hwf : wf h.

Let Hdec : decreasing h := wf_decreasing h Hwf.

Lemma frame_of_ref (i : ref) : (frame_of h i).1.1 = i.
Proof. unfold frame_of. by destruct (h !! i) as [[? [?|] ? ?]|]. Qed.

Lemma nearest_cons_same (fr : frame) (frames : list frame) (d : Z) :
  same_file_distance ti fr = Some d →
  nearest_frame ti (fr :: frames) =
    match nearest_frame ti frames with
    | Some (w, dw) => if (d <=? dw)%Z then Some (fr.1.1, d) else Some (w, dw)
    | None => Some (fr.1.1, d)
    end.
Proof. intros Hd. simpl. rewrite Hd. by destruct (nearest_frame ti frames) as [[w dw]|]. Qed.

Lemma nearest_cons_other (fr : frame) (frames : list frame) :
  same_file_distance ti fr = None →
  nearest_frame ti (fr :: frames) = nearest_frame ti frames.
Proof. intros Hd. simpl. by rewrite Hd. Qed.

Lemma first_other_cons_same (fr : frame) (frames : list frame) :
  fr.1.2 = Some (cmake_file ti) →
  first_other_file ti (fr :: frames) = first_other_file ti frames.
Proof.
  intros Hf. unfold first_other_file. rewrite filter_cons.
  by rewrite decide_False by (intros Hne; by apply Hne).
Qed.

Lemma first_other_cons_other (fr : frame) (frames : list frame) :
  fr.1.2 ≠ Some (cmake_file ti) →
  first_other_file ti (fr :: frames) = Some fr.1.1.
Proof.
  intros Hf. unfold first_other_file. rewrite filter_cons.
  by rewrite decide_True.
Qed.

(** A frame either shares the file of the event, and then it is not the
    root and the loop compares its distance, or it does not, and then
    the loop can only take it as the fallback. *)
Lemma frame_cases (i : ref) :
  i < length h →
  (∃ d q, same_file_distance ti (frame_of h i) = Some d ∧
          (frame_of h i).1.2 = Some (cmake_file ti) ∧
          parent_of h i = Some q ∧
          ∀ best cand,
            insertion_step h ti (best, cand) (frame_of h i) =
              Ok (if (d <? best)%Z then (d, Some q) else (best, cand)))
  ∨ (same_file_distance ti (frame_of h i) = None ∧
     (frame_of h i).1.2 ≠ Some (cmake_file ti) ∧
     ∀ best cand,
       insertion_step h ti (best, cand) (frame_of h i) =
         Ok (match cand with
             | None => (sys_maxint, Some i)
             | Some _ => (best, cand)
             end)).
Proof.
  intros Hi. apply lookup_lt_is_Some in Hi as [n Hn].
  unfold frame_of, parent_of, insertion_step. rewrite Hn. simpl.
  destruct (trace_info n) as [ti'|] eqn:Hti; simpl.
  - destruct (decide (cmake_file ti' = cmake_file ti)) as [Heq|Hne].
    + left. assert (Hne : i ≠ 0).
      { intros ->. destruct (wf_root h Hwf) as (r & Hr & _ & Hnone). congruence. }
      destruct (wf_node h Hwf i n Hn Hne) as (_ & q & Hq & _).
      exists (Z.abs (cmake_line ti' - cmake_line ti)), q.
      split; [done|]. split; [by rewrite Heq|]. split; [done|].
      intros best cand. rewrite decide_True by by rewrite Heq.
      simpl. unfold deref. rewrite Hn. simpl. rewrite Hq.
      by destruct (_ <? _)%Z.
    + right. split; [done|]. split; [congruence|].
      intros best cand. rewrite decide_False by congruence.
      by destruct cand.
  - right. split; [done|]. split; [done|].
    intros best cand. by destruct cand.
Qed.

Lemma insertion_loop_result (A : list ref) (best : Z) (cand : option ref) :
  (∀ i, i ∈ A → i < length h) →
  (cand = None → best = sys_maxint) →
  insertion_loop h ti (best, cand) (frame_of h <$> A) =
    Ok (loop_result h ti best cand (frame_of h <$> A)).
Proof.
  revert best cand. induction A as [|i A IH]; intros best cand HA Hinit.
  { simpl. unfold loop_result, fallback, first_other_file. simpl.
    by destruct cand. }
  assert (Hi : i < length h) by (apply HA, elem_of_cons; by left).
  assert (HA' : ∀ j, j ∈ A → j < length h)
    by (intros j Hj; apply HA, elem_of_cons; by right).
  rewrite fmap_cons. cbn [insertion_loop].
  destruct (frame_cases i Hi) as [(d & q & Hd & Hf & Hq & Hstep)|(Hd & Hf & Hstep)];
    rewrite Hstep; simpl.
  - unfold loop_result.
    rewrite (nearest_cons_same _ _ d Hd), frame_of_ref.
    unfold fallback at 1 2. rewrite (first_other_cons_same _ _ Hf).
    destruct (d <? best)%Z eqn:Hlt.
    + rewrite IH by done. unfold loop_result.
      destruct (nearest_frame ti (frame_of h <$> A)) as [[w dw]|].
      * destruct (d <=? dw)%Z eqn:Hle.
        -- rewrite Hlt, Hq. by rewrite (proj2 (Z.ltb_ge dw d)) by lia.
        -- rewrite (proj2 (Z.ltb_lt dw d)) by lia.
           by rewrite (proj2 (Z.ltb_lt dw best)) by lia.
      * by rewrite Hlt, Hq.
    + rewrite IH by done. unfold loop_result.
      destruct (nearest_frame ti (frame_of h <$> A)) as [[w dw]|].
      * destruct (d <=? dw)%Z eqn:Hle.
        -- rewrite Hlt. by rewrite (proj2 (Z.ltb_ge dw best)) by lia.
        -- done.
      * by rewrite Hlt.
  - unfold loop_result. rewrite (nearest_cons_other _ _ Hd).
    destruct cand as [c|].
    + rewrite IH by done. unfold loop_result. done.
    + rewrite (Hinit eq_refl). rewrite IH by done. unfold loop_result.
      unfold fallback. rewrite (first_other_cons_other _ _ Hf), frame_of_ref.
      by destruct (nearest_frame ti (frame_of h <$> A)) as [[w dw]|].
Qed.

End Resolver.

(** ** One call of [_update_traces] *)

Section Update.

Variable h : heap.
Hypothesis Hwf : wf h.

Let Hdec : decreasing h := wf_decreasing h Hwf.

Lemma nearest_frame_in (ti : CmakeTraceInfo) (A : list ref) (w : ref) (dw : Z) :
  nearest_frame ti (frame_of h <$> A) = Some (w, dw) →
  w ∈ A ∧ same_file_distance ti (frame_of h w) = Some dw.
Proof.
  induction A as [|i A IH]; [done|]. rewrite fmap_cons. simpl.
  destruct (same_file_distance ti (frame_of h i)) as [d|] eqn:Hd.
  - destruct (nearest_frame ti (frame_of h <$> A)) as [[w' dw']|].
    + destruct (d <=? dw')%Z.
      * rewrite frame_of_ref. intros [= <- <-].
        split; [apply elem_of_cons; by left|done].
      * intros [= <- <-]. destruct IH as [Hin Hsd]; [done|].
        split; [apply elem_of_cons; by right|done].
    + rewrite frame_of_ref. intros [= <- <-].
      split; [apply elem_of_cons; by left|done].
  - intros Hn. destruct (IH Hn) as [Hin Hsd].
    split; [apply elem_of_cons; by right|done].
Qed.

Lemma first_other_file_in (ti : CmakeTraceInfo) (A : list ref) (t : ref) :
  first_other_file ti (frame_of h <$> A) = Some t → t ∈ A.
Proof.
  unfold first_other_file. intros Ht.
  destruct (head _) as [fr|] eqn:Hhead; [|done]. simpl in Ht.
  injection Ht as <-. apply head_Some_elem_of in Hhead.
  apply list_elem_of_filter in Hhead as [_ Hin].
  apply list_elem_of_fmap in Hin as (i & -> & Hi). by rewrite frame_of_ref.
Qed.

Lemma resolve_parent_ok (p : ref) (ti : CmakeTraceInfo) :
  p < length h →
  resolve_parent h p ti =
    Ok (default p
          (loop_result h ti sys_maxint None
             (frame_of h <$> ancestors h (innermost h p))).2).
Proof.
  intros Hp. unfold resolve_parent.
  rewrite (enumerate_frames_ok h Hwf p Hp). simpl.
  rewrite (insertion_loop_result h ti Hwf); [done| |done].
  intros i Hi. by apply (ancestors_valid h Hdec) in Hi.
Qed.

Lemma loop_result_valid (ti : CmakeTraceInfo) (A : list ref) (best : Z) (r : ref) :
  (∀ i, i ∈ A → i < length h) →
  (loop_result h ti best None (frame_of h <$> A)).2 = Some r →
  r < length h.
Proof.
  intros HA. unfold loop_result.
  assert (Hfb : (fallback ti best None (frame_of h <$> A)).2 = Some r →
                r < length h).
  { unfold fallback.
    destruct (first_other_file ti (frame_of h <$> A)) as [t|] eqn:Ht; [|done].
    simpl. intros [= <-]. by apply HA, (first_other_file_in ti). }
  destruct (nearest_frame ti (frame_of h <$> A)) as [[w dw]|] eqn:Hn; [|done].
  destruct (dw <? best)%Z; [|done]. simpl. intros Hpar.
  unfold parent_of in Hpar. destruct (h !! w) as [n|] eqn:Hw; [|done].
  simpl in Hpar. pose proof (Hdec w n r Hw Hpar).
  pose proof (lookup_lt_Some _ _ _ Hw). lia.
Qed.

Lemma attach_point_valid (p p' : ref) (cn pn : Z) (ti : CmakeTraceInfo) :
  p < length h → attach_point h p cn pn ti = Ok p' → p' < length h.
Proof.
  intros Hp. unfold attach_point.
  destruct (cn =? 0)%Z.
  { rewrite resolve_parent_ok by done. intros [= <-].
    destruct (loop_result _ _ _ _ _).2 as [r|] eqn:Hr; simpl; [|done].
    eapply loop_result_valid; [|done].
    intros i Hi. by apply (ancestors_valid h Hdec) in Hi. }
  destruct (cn - pn =? 0)%Z; [by intros [= <-]|].
  destruct (cn - pn <? 0)%Z.
  { rewrite ascend_lookup by done.
    destruct (ancestors h p !! _) as [q|] eqn:Hq; [|done]. intros [= <-].
    apply list_elem_of_lookup_2 in Hq. by apply (ancestors_valid h Hdec) in Hq. }
  destruct (cn - pn =? 1)%Z; [|done].
  pose proof Hp as Hp'. apply lookup_lt_is_Some in Hp' as [n Hn].
  unfold deref. rewrite Hn. simpl.
  destruct (last (subtraces n)) as [c|] eqn:Hc; [|done]. intros [= <-].
  apply last_Some_elem_of in Hc. apply (child_gt h Hwf p c n Hn) in Hc. lia.
Qed.

Lemma root_iff (i : ref) (n : CmakeTrace) :
  h !! i = Some n → (trace_info n = None ↔ i = 0).
Proof.
  intros Hn. split.
  - intros Hti. destruct (decide (i = 0)) as [|Hne]; [done|].
    destruct (wf_node h Hwf i n Hn Hne) as ([? Hs] & _). congruence.
  - intros ->. destruct (wf_root h Hwf) as (r & Hr & _ & Hnone). congruence.
Qed.

Lemma update_traces_eq (traces : list ref) (p : ref) (ct pt : Qc)
    (cn pn : Z) (ti : CmakeTraceInfo) :
  p < length h →
  update_traces h traces p ct pt cn pn ti =
    p' ← attach_point h p cn pn ti;
    Ok (appended h p' (clamp_duration ct pt) ti,
        traces ++ (if decide (p' = 0) then [length h] else []),
        p').
Proof.
  intros Hp.
  assert (Hpost : ∀ p', p' < length h →
    ((h' ← append_new_trace h p' (clamp_duration ct pt) ti; Ok (h', p')) ≫=
     (λ '(h', q),
        n ← deref h' q;
        match trace_info n with
        | None =>
            match last (subtraces n) with
            | None => Raise IndexError
            | Some c => Ok (h', traces ++ [c], q)
            end
        | Some _ => Ok (h', traces, q)
        end)) =
    Ok (appended h p' (clamp_duration ct pt) ti,
        traces ++ (if decide (p' = 0) then [length h] else []), p')).
  { intros p' Hp'. rewrite append_new_trace_appended by done. simpl.
    pose proof Hp' as Hl. apply lookup_lt_is_Some in Hl as [n Hn].
    unfold deref. rewrite (appended_old h p' _ ti p' n Hn). simpl.
    rewrite (decide_True (P := p' = p')) by done.
    destruct (decide (p' = 0)) as [->|Hne].
    - rewrite (proj2 (root_iff 0 n Hn)) by done. by rewrite last_snoc.
    - destruct (trace_info n) eqn:Hti; [by rewrite app_nil_r|].
      by apply (root_iff p' n Hn) in Hti. }
  pose proof (λ p', attach_point_valid p p' cn pn ti Hp) as Hvalid.
  unfold update_traces. unfold attach_point in *.
  destruct (cn =? 0)%Z.
  { destruct (resolve_parent h p ti) as [p'|e]; [|done].
    etrans; [|apply (Hpost p'); by apply Hvalid]. done. }
  destruct (cn - pn =? 0)%Z; [etrans; [|by apply (Hpost p)]; done|].
  destruct (cn - pn <? 0)%Z.
  { destruct (ascend h _ p) as [p'|e]; [|done].
    etrans; [|apply (Hpost p'); by apply Hvalid]. done. }
  destruct (cn - pn =? 1)%Z; [|done].
  destruct (deref h p) as [n|e]; [|done]. simpl in *.
  destruct (last (subtraces n)) as [c|]; [|done].
  etrans; [|apply (Hpost c); by apply Hvalid]. done.
Qed.

End Update.

(** ** The invariant is kept by every created node *)

Lemma clamp_duration_nonneg (a b : Qc) : (0 ≤ clamp_duration a b)%Qc.
Proof.
  unfold clamp_duration. case_bool_decide as Hlt; [done|].
  by apply Qcnot_lt_le.
Qed.

Lemma sum_list_Qc_app (l1 l2 : list Qc) :
  sum_list_Qc (l1 ++ l2) = (sum_list_Qc l1 + sum_list_Qc l2)%Qc.
Proof.
  unfold sum_list_Qc. induction l1 as [|x l1 IH]; simpl.
  - by rewrite Qcplus_0_l.
  - by rewrite IH, Qcplus_assoc.
Qed.


Lemma dur_appended (h : heap) (p : ref) (d : Qc) (ti : CmakeTraceInfo) (i : ref) :
  wf h → p < length h → i < length h →
  dur (appended h p d ti) i =
    if decide (i ∈ ancestors h p) then (dur h i + d)%Qc else dur h i.
Proof.
  intros Hwf Hp Hi. apply lookup_lt_is_Some in Hi as [n Hn].
  unfold dur. rewrite (appended_old h p d ti i n Hn), Hn. done.
Qed.

Lemma heap_ok_appended (h : heap) (traces : list ref) (p p' : ref)
    (own : list Qc) (sites : list CmakeTraceInfo) (d : Qc) (ti : CmakeTraceInfo) :
  heap_ok h traces p own sites → p' < length h → (0 ≤ d)%Qc →
  heap_ok (appended h p' d ti)
    (traces ++ (if decide (p' = 0) then [length h] else [])) p'
    (own ++ [d]) (sites ++ [ti]).
Proof.
  intros [Hwf Hp (r & Hr & Htr) Hlen Hroot Hnn Hbal Htot (sz & Hsz & Hsz0) _ Hsites]
    Hp' Hd.
  pose proof (wf_decreasing h Hwf) as Hdec.
  assert (H0 : 0 < length h) by by eapply lookup_lt_Some.
  assert (Hroot_anc : 0 ∈ ancestors h p') by by apply ancestors_root.
  split.
  - by apply appended_wf.
  - rewrite appended_length by done. lia.
  - eexists. split; [by apply appended_old|]. simpl. rewrite Htr.
    destruct (decide (p' = 0)) as [->|Hne].
    + by rewrite decide_True.
    + rewrite decide_False by done. by rewrite app_nil_r.
  - rewrite length_app, appended_length by done. simpl. lia.
  - rewrite lookup_app_l by lia. done.
  - intros x Hx. apply elem_of_app in Hx as [Hx|Hx]; [by apply Hnn|].
    by apply list_elem_of_singleton in Hx as ->.
  - apply (balanced_appended Qcplus 0%Qc h p' d ti
             (λ i, default 0%Qc (own !! i)) (dur h) _ _ d); try done.
    + rewrite lookup_app_r by lia. by rewrite Hlen, Nat.sub_diag.
    + unfold dur. by rewrite appended_new.
    + intros i Hi. by rewrite lookup_app_l by lia.
    + intros i Hi. by apply dur_appended.
  - rewrite dur_appended, decide_True by done.
    rewrite sum_list_Qc_app, Htot. unfold sum_list_Qc. simpl.
    by rewrite Qcplus_0_r.
  - exists (λ i, if decide (i = length h) then 1
                 else if decide (i ∈ ancestors h p') then sz i + 1 else sz i).
    split.
    + apply (balanced_appended Nat.add 0 h p' d ti (λ _, 1) sz _ _ 1); try done.
      * by rewrite decide_True.
      * intros i Hi. by rewrite decide_False by lia.
    + rewrite decide_False, decide_True by (done || lia).
      rewrite appended_length by done. lia.
  - intros _. pose proof Hp' as Hl. apply lookup_lt_is_Some in Hl as [n Hn].
    eexists. split; [by apply appended_old|]. simpl.
    rewrite decide_True by done. by destruct (subtraces n).
  - unfold appended. rewrite fmap_app, fmap_imap, (fmap_app _ sites).
    rewrite app_comm_cons, <- Hsites. f_equal.
    rewrite <- (imap_const trace_info h). by apply imap_ext.
Qed.

(** ** The invariant along [_collect_stats] *)

Lemma collect_init_eq : collect_init [] = Ok init_state.
Proof. reflexivity. Qed.

Lemma init_state_ok : state_ok init_state [0%Qc] [].
Proof.
  split; simpl.
  - split; simpl.
    + by eexists.
    + intros [|i] n Hn Hne; [done|]. by destruct i.
    + intros [|i] n Hn; [injection Hn as <-; apply NoDup_nil_2|]. by destruct i.
    + intros [|[|i]] n k Hn; try done. injection Hn as <-. simpl.
      split; [intros Hk; by apply elem_of_nil in Hk|].
      unfold parent_of. by destruct k as [|[|k]].
  - lia.
  - by eexists.
  - done.
  - done.
  - intros d Hd. by apply list_elem_of_singleton in Hd as ->.
  - intros [|[|i]] n Hn; try done. by injection Hn as <-.
  - done.
  - exists (λ _, 1). split; [|done].
    intros [|[|i]] n Hn; try done. by injection Hn as <-.
  - lia.
  - done.
Qed.

Lemma update_traces_ok (h : heap) (traces : list ref) (p : ref)
    (own : list Qc) (sites : list CmakeTraceInfo) (ct pt : Qc) (cn pn : Z)
    (ti : CmakeTraceInfo) (h' : heap) (traces' : list ref) (p' : ref) :
  heap_ok h traces p own sites →
  update_traces h traces p ct pt cn pn ti = Ok (h', traces', p') →
  attach_point h p cn pn ti = Ok p' ∧
  h' = appended h p' (clamp_duration ct pt) ti ∧
  traces' = traces ++ (if decide (p' = 0) then [length h] else []) ∧
  heap_ok h' traces' p' (own ++ [clamp_duration ct pt]) (sites ++ [ti]).
Proof.
  intros Hok Hup. pose proof (ok_wf _ _ _ _ _ Hok) as Hwf.
  pose proof (ok_cursor _ _ _ _ _ Hok) as Hp.
  rewrite (update_traces_eq h Hwf) in Hup by done.
  destruct (attach_point h p cn pn ti) as [q|e] eqn:Hq; [|done].
  simpl in Hup. injection Hup as <- <- <-.
  do 3 (split; [done|]).
  apply (heap_ok_appended h traces p); [done| |apply clamp_duration_nonneg].
  by eapply attach_point_valid.
Qed.

Lemma collect_step_ok (s s' : collect_state) (ev : event)
    (own : list Qc) (sites : list CmakeTraceInfo) :
  state_ok s own sites → collect_step s ev = Ok s' →
  state_ok s' (own ++ gaps (fst <$> previous s) [ev])
              (sites ++ sites_before (snd <$> previous s) [ev]) ∧
  previous s' = Some (timeval ev, site ev).
Proof.
  intros Hok Hstep. destruct ev as [[cn ct] cti]. unfold collect_step in Hstep.
  destruct (previous s) as [[pt pti]|] eqn:Hprev; simpl in *.
  - inv_bind Hstep. destruct a as [[h' traces'] p'].
    apply (update_traces_ok _ _ _ own sites) in Ha as (_ & _ & _ & Hok'); [|done].
    destruct cn; by injection Hstep as <-.
  - rewrite ?app_nil_r. destruct cn; by injection Hstep as <-.
Qed.

Lemma gaps_cons (prev : option Qc) (ev : event) (events : list event) :
  gaps prev (ev :: events) = gaps prev [ev] ++ gaps (Some (timeval ev)) events.
Proof. simpl. by rewrite app_nil_r. Qed.

Lemma sites_before_cons (prev : option CmakeTraceInfo) (ev : event)
    (events : list event) :
  sites_before prev (ev :: events) =
    sites_before prev [ev] ++ sites_before (Some (site ev)) events.
Proof. simpl. by rewrite app_nil_r. Qed.

Lemma collect_loop_ok (events : list event) (s s' : collect_state)
    (own : list Qc) (sites : list CmakeTraceInfo) :
  state_ok s own sites → collect_loop s events = Ok s' →
  state_ok s' (own ++ gaps (fst <$> previous s) events)
              (sites ++ sites_before (snd <$> previous s) events) ∧
  previous s' = pending_after (previous s) events.
Proof.
  revert s own sites. induction events as [|ev events IH]; intros s own sites Hok Hloop.
  - simpl in *. injection Hloop as <-. by rewrite !app_nil_r.
  - simpl in Hloop. inv_bind Hloop.
    destruct (collect_step_ok _ _ _ _ _ Hok Ha) as [Hok' Hprev].
    destruct (IH _ _ _ Hok' Hloop) as [Hok'' Hprev'].
    rewrite Hprev in Hok'', Hprev'. simpl in Hok''.
    rewrite gaps_cons, sites_before_cons, !app_assoc. split; [done|].
    rewrite Hprev'. unfold pending_after.
    destruct events as [|ev' events]; [reflexivity|].
    rewrite last_cons_cons.
    destruct (last (ev' :: events)) eqn:Hlast; [done|].
    by apply last_None in Hlast.
Qed.

Lemma sites_before_last (prev : option CmakeTraceInfo) (events : list event) :
  sites_before prev events ++
    match last events with
    | Some ev => [site ev]
    | None => match prev with Some ti => [ti] | None => [] end
    end
  = match prev with Some ti => [ti] | None => [] end ++ (site <$> events).
Proof.
  revert prev. induction events as [|ev events IH]; intros prev.
  - simpl. by rewrite app_nil_r.
  - cbn [sites_before]. rewrite <- app_assoc.
    assert (Hlast : match last (ev :: events) with
                    | Some ev0 => [site ev0]
                    | None => match prev with Some ti => [ti] | None => [] end
                    end =
                    match last events with
                    | Some ev0 => [site ev0]
                    | None => [site ev]
                    end).
    { destruct events as [|ev' events]; [reflexivity|].
      rewrite last_cons_cons.
      destruct (last (ev' :: events)) eqn:Hl; [done|].
      by apply last_None in Hl. }
    rewrite Hlast, (IH (Some (site ev))). done.
Qed.

(** A call with equal nesting levels never fails: this is the call of
    the [else] clause. *)
Lemma attach_point_same (h : heap) (p : ref) (pn : Z) (ti : CmakeTraceInfo) :
  wf h → p < length h → ∃ p', attach_point h p pn pn ti = Ok p'.
Proof.
  intros Hwf Hp. unfold attach_point.
  destruct (pn =? 0)%Z; [rewrite resolve_parent_ok by done; by eexists|].
  rewrite Z.sub_diag. simpl. by eexists.
Qed.

Lemma collect_finish_ok (s : collect_state) (own : list Qc)
    (sites : list CmakeTraceInfo) :
  state_ok s own sites →
  ∃ h traces p, collect_finish s = Ok (h, traces) ∧
    heap_ok h traces p
      (own ++ match previous s with
              | Some (t, _) => [clamp_duration (t + last_duration)%Qc t]
              | None => []
              end)
      (sites ++ match previous s with Some (_, ti) => [ti] | None => [] end).
Proof.
  intros Hok. unfold collect_finish.
  destruct (previous s) as [[t ti]|].
  - pose proof (ok_wf _ _ _ _ _ Hok) as Hwf.
    pose proof (ok_cursor _ _ _ _ _ Hok) as Hp.
    destruct (attach_point_same _ _ (previous_nesting s) ti Hwf Hp) as [p' Hp'].
    rewrite (update_traces_eq _ Hwf) by done. rewrite Hp'. simpl.
    do 3 eexists. split; [done|].
    apply (heap_ok_appended _ _ (st_parent s));
      [done| |apply clamp_duration_nonneg].
    by eapply attach_point_valid.
  - exists (st_heap s), (st_traces s), (st_parent s).
    by rewrite !app_nil_r.
Qed.

Lemma build_eq (events : list event) :
  build events = (s ← builder_state events; collect_finish s).
Proof.
  unfold build, builder_state, collect_events. rewrite collect_init_eq. simpl.
  by destruct (collect_loop init_state events).
Qed.

Lemma builder_state_ok (events : list event) (s : collect_state) :
  builder_state events = Ok s →
  state_ok s (0%Qc :: gaps None events) (sites_before None events) ∧
  previous s = pending_after None events.
Proof.
  unfold builder_state. rewrite collect_init_eq. simpl. intros Hloop.
  by apply (collect_loop_ok events init_state s [0%Qc] [] init_state_ok).
Qed.

Lemma build_ok (events : list event) (h : heap) (traces : list ref) :
  build events = Ok (h, traces) →
  ∃ p, heap_ok h traces p (0%Qc :: attributed events) (site <$> events).
Proof.
  rewrite build_eq. intros Hb. inv_bind Hb. rename a into s.
  destruct (builder_state_ok events s Ha) as [Hok Hprev].
  destruct (collect_finish_ok s _ _ Hok) as (h' & traces' & p & Hfin & Hok').
  rewrite Hfin in Hb. injection Hb as <- <-. exists p.
  rewrite Hprev in Hok'. unfold pending_after in Hok'.
  pose proof (sites_before_last None events) as Hsites. simpl in Hsites.
  unfold attributed. rewrite app_comm_cons.
  destruct (last events) as [ev|]; rewrite <- Hsites; done.
Qed.

(** Without a failing step the builder reaches its end. *)
Lemma build_total (events : list event) (s : collect_state) :
  builder_state events = Ok s → ∃ h traces, build events = Ok (h, traces).
Proof.
  intros Hs. rewrite build_eq, Hs. simpl.
  destruct (builder_state_ok events s Hs) as [Hok _].
  destruct (collect_finish_ok s _ _ Hok) as (h & traces & _ & Hfin & _). eauto.
Qed.

(** * The claims *)






(** ** Stored forests and the lines of a trace *)

Lemma count_nodes_eq (ti : option CmakeTraceInfo) (d : Qc) (subs : list StoredTrace) :
  count_nodes (mkStored ti d subs) = S (count_forest subs).
Proof. reflexivity. Qed.

Lemma result_mapM_ok {A B : Type} (f : A → result B) (P : A → B → Prop)
    (l : list A) :
  (∀ k, k ∈ l → ∃ t, f k = Ok t ∧ P k t) →
  ∃ ts, result_mapM f l = Ok ts ∧ Forall2 P l ts.
Proof.
  induction l as [|k l IH]; intros Hl; simpl.
  - exists []. split; [done|constructor].
  - destruct (Hl k) as (t & Ht & HP); [apply elem_of_cons; by left|].
    destruct IH as (ts & Hts & HF).
    { intros k' Hk'. apply Hl, elem_of_cons. by right. }
    exists (t :: ts). rewrite Ht. simpl. rewrite Hts. simpl.
    split; [done|by constructor].
Qed.

Lemma count_forest_msum (sz : ref → nat) (l : list ref) (ts : list StoredTrace) :
  Forall2 (λ k t, count_nodes t = sz k) l ts →
  count_forest ts = msum Nat.add 0 sz l.
Proof. induction 1 as [|k t l ts Hkt _ IH]; simpl; [done|]. by rewrite Hkt, IH. Qed.

Lemma store_trace_count (h : heap) (sz : ref → nat) (fuel : nat) (i : ref) :
  wf h → balanced Nat.add 0 h (λ _, 1) sz →
  i < length h → length h - i ≤ fuel →
  ∃ t, store_trace fuel h i = Ok t ∧ count_nodes t = sz i.
Proof.
  intros Hwf Hbal. revert i. induction fuel as [|fuel IH]; intros i Hi Hfuel; [lia|].
  apply lookup_lt_is_Some in Hi as [n Hn]. simpl. unfold deref. rewrite Hn. simpl.
  destruct (result_mapM_ok (store_trace fuel h)
              (λ k t, count_nodes t = sz k) (subtraces n)) as (ts & Hts & HF).
  { intros k Hk. apply (child_gt h Hwf i k n Hn) in Hk. apply IH; lia. }
  rewrite Hts. simpl. eexists. split; [done|].
  rewrite count_nodes_eq, (count_forest_msum sz _ _ HF).
  by rewrite (Hbal i n Hn).
Qed.

Lemma yielded_yield (ev : option event) (out : parse_output) :
  yielded (yield ev out) = option_list ev ++ yielded out.
Proof. by destruct ev. Qed.

Lemma raised_yield (ev : option event) (out : parse_output) :
  raised (yield ev out) = raised out.
Proof. by destruct ev. Qed.

Lemma count_parseable_cons (line : string) (file_obj : list string) :
  count_parseable (line :: file_obj) =
    (if parseable line then 1 else 0) + count_parseable file_obj.
Proof.
  unfold count_parseable. rewrite filter_cons.
  by destruct (parseable line).
Qed.

Section ParserLemmas.

Variable py_float : string → option Qc.
Variable py_int : string → option Z.

Lemma parse_loop_count (ignore_nesting : bool) (file_obj : list string)
    (cn : option Z) (cur : option (Qc * CmakeTraceInfo)) :
  raised (parse_loop py_float py_int ignore_nesting file_obj cn cur) = None →
  length (yielded (parse_loop py_float py_int ignore_nesting file_obj cn cur)) =
    length (option_list cur) + count_parseable file_obj.
Proof.
  revert cn cur.
  induction file_obj as [|line file_obj IH]; intros cn cur.
  - simpl. rewrite yielded_yield. simpl. rewrite app_nil_r.
    destruct cur as [[t ti]|]; simpl; unfold count_parseable; simpl; lia.
  - rewrite count_parseable_cons. unfold parseable. cbn [parse_loop].
    destruct (matcher_match (rstrip line)) as [m|].
    + rewrite raised_yield, yielded_yield.
      destruct (parse_match py_float py_int ignore_nesting cn m)
        as [[cn' cur']|e]; [|done].
      intros Hr. rewrite length_app, (IH _ _ Hr). simpl.
      destruct cur as [[t ti]|]; simpl; lia.
    + destruct cur as [[t ti]|]; [destruct (match_parens _)|]; simpl;
        intros Hr; by rewrite (IH _ _ Hr).
Qed.

Lemma parse_cmake_log_count (file_obj : list string) (ignore_nesting : bool) :
  raised (parse_cmake_log py_float py_int file_obj ignore_nesting) = None →
  length (yielded (parse_cmake_log py_float py_int file_obj ignore_nesting)) =
    count_parseable file_obj.
Proof. intros Hr. unfold parse_cmake_log. by rewrite parse_loop_count. Qed.

End ParserLemmas.

Lemma collect_events_Ok (out : parse_output) (r : list CmakeTrace * list ref) :
  collect_events [] out = Ok r → raised out = None ∧ build (yielded out) = Ok r.
Proof.
  unfold build, collect_events. rewrite collect_init_eq. simpl.
  destruct (collect_loop init_state (yielded out)) as [s|]; [simpl|done].
  by destruct (raised out).
Qed.

Lemma gaps_length (prev : option Qc) (events : list event) :
  length (gaps prev events) =
    match events with
    | [] => 0
    | _ :: rest => length (option_list prev) + length rest
    end.
Proof.
  revert prev. induction events as [|ev events IH]; intros prev; [done|].
  cbn [gaps]. rewrite length_app, IH.
  destruct prev, events; simpl; lia.
Qed.

Lemma attributed_length (events : list event) :
  length (attributed events) = length events.
Proof.
  unfold attributed. rewrite length_app, gaps_length.
  destruct events as [|ev events]; [done|].
  destruct (last (ev :: events)) eqn:Hl; [simpl; lia|].
  by apply last_None in Hl.
Qed.

(** C3. When the collection of a trace succeeds, the stored forest has
    exactly as many nodes as the trace has parseable lines: every such
    line yields one event, every event owns one object, in the order of
    the events, and there are no other objects but the root. *)
Theorem C3_one_node_per_event (py_float : string → option Qc)
    (py_int : string → option Z) (file_obj : list string)
    (ignore_nesting : bool) (h : heap) (traces : list ref) :
  collect_stats py_float py_int [] file_obj ignore_nesting = Ok (h, traces) →
  let events := yielded (parse_cmake_log py_float py_int file_obj ignore_nesting) in
  length events = count_parseable file_obj ∧
  trace_info <$> h = None :: (Some <$> (site <$> events)) ∧
  ∃ forest, store_traces h traces = Ok forest ∧
            count_forest forest = count_parseable file_obj.
Proof.
  intros Hc events. unfold collect_stats in Hc.
  apply collect_events_Ok in Hc as [Hr Hb].
  pose proof (parse_cmake_log_count py_float py_int _ _ Hr) as Hcount.
  fold events in Hb, Hcount.
  destruct (build_ok events h traces Hb) as [p Hok].
  destruct Hok as [Hwf _ (r & Hr0 & ->) Hlen _ _ _ _ (sz & Hsz & Hsz0) _ Hsites].
  split; [done|]. split; [done|].
  destruct (result_mapM_ok (store_trace (length h) h)
              (λ k t, count_nodes t = sz k) (subtraces r)) as (ts & Hts & HF).
  { intros k Hk. apply (child_gt h Hwf 0 k r Hr0) in Hk.
    apply store_trace_count; try done; lia. }
  exists ts. split; [done|].
  rewrite (count_forest_msum sz _ _ HF).
  pose proof (Hsz 0 r Hr0) as H0. simpl in Hlen, H0.
  rewrite attributed_length in Hlen. lia.
Qed.

Lemma C3_one_node_per_event_witness :
  ∃ h traces,
    collect_stats read_float read_int [] sample_trace false = Ok (h, traces) ∧
    let events := yielded (parse_cmake_log read_float read_int sample_trace false) in
    length events = count_parseable sample_trace ∧
    trace_info <$> h = None :: (Some <$> (site <$> events)) ∧
    ∃ forest, store_traces h traces = Ok forest ∧
              count_forest forest = count_parseable sample_trace.
Proof.
  eexists _, _. split; [vm_compute; reflexivity|].
  apply (C3_one_node_per_event read_float read_int sample_trace false).
  vm_compute; reflexivity.
Defined.

(** ** The nesting resolver *)






(** ** A depth-annotated stream *)

(** C5 (amended). For seven events with the nesting levels 1, 2, 1, 2, 3,
    2, 1, whatever their time stamps and call sites, the builder succeeds,
    object [k] is the node of the [k]-th event, and the node of the
    level-3 event (object 5) is a child of object 4 and a grandchild of
    object 3, the node of the second level-1 event; the node of the first
    level-1 event (object 1) is another top-level entry. *)
Theorem C5_depth_tree (t1 t2 t3 t4 t5 t6 t7 : Qc)
    (s1 s2 s3 s4 s5 s6 s7 : CmakeTraceInfo) :
  let events : list event :=
    [ (Some 1%Z, t1, s1); (Some 2%Z, t2, s2); (Some 1%Z, t3, s3);
      (Some 2%Z, t4, s4); (Some 3%Z, t5, s5); (Some 2%Z, t6, s6);
      (Some 1%Z, t7, s7) ] in
  ∃ h traces, build events = Ok (h, traces) ∧
    trace_info <$> h = None :: (Some <$> [s1; s2; s3; s4; s5; s6; s7]) ∧
    parent_of h 5 = Some 4 ∧ parent_of h 4 = Some 3 ∧
    parent_of h 3 = Some 0 ∧ parent_of h 1 = Some 0 ∧
    1 ∉ ancestors h 5.
Proof.
  intros events. eexists _, _. split.
  { lazy -[Qcplus Qcminus clamp_duration last_duration]. reflexivity. }
  lazy -[Qcplus Qcminus clamp_duration last_duration elem_of].
  repeat split; try reflexivity.
  intros Hin. repeat (apply elem_of_cons in Hin as [Hin|Hin]; [discriminate|]).
  by apply elem_of_nil in Hin.
Qed.

(** C5 as stated fails: in the sample stream the grandparent of the node
    of the level-3 event is object 3, not object 1, the node of the first
    level-1 event. *)
Lemma C5_counterexample :
  ∃ h traces, build sample_events = Ok (h, traces) ∧
    (trace_info <$> h !! 1) = Some (Some (mkTraceInfo "a.cmake" 1 "f()")) ∧
    (trace_info <$> h !! 5) = Some (Some (mkTraceInfo "a.cmake" 5 "j()")) ∧
    (parent_of h 5 ≫= parent_of h) ≠ Some 1.
Proof. eexists _, _. split; [vm_compute; reflexivity|]. by vm_compute. Qed.

(** ** The parser *)

Lemma append_nil_l (r : string) : ("" ++ r)%string = r.
Proof. reflexivity. Qed.

Lemma append_cons (a : ascii) (p r : string) :
  (String a p ++ r)%string = String a (p ++ r)%string.
Proof. reflexivity. Qed.





Lemma lstrip_idemp (s : string) : lstrip (lstrip s) = lstrip s.
Proof.
  induction s as [|c s IH]; [done|]. simpl.
  destruct (is_space c) eqn:Hc; [done|]. simpl. by rewrite Hc.
Qed.

Lemma match_site_code (s file line code : string) :
  match_site s = Some (file, line, code) → lstrip code = code.
Proof.
  unfold match_site. destruct (split_at "(" s) as [[f s1]|]; [simpl|done].
  destruct (split_at ")" s1) as [[l s2]|]; [simpl|done].
  destruct s2 as [|c s2]; [done|].
  destruct (Ascii.eqb_spec c ":") as [->|Hne]; cycle 1.
  { destruct c as [[] [] [] [] [] [] [] []]; try done; by destruct Hne. }
  destruct (has_newline (lstrip s2)); [done|]. intros [= _ _ <-].
  apply lstrip_idemp.
Qed.

(** The code of a matched line never starts with white space: the
    pattern has consumed it. *)
Lemma matcher_match_code (line : string) (m : line_match) :
  matcher_match line = Some m → lstrip (g_code m) = g_code m.
Proof.
  unfold matcher_match. destruct line as [|c s]; [done|].
  destruct (Ascii.eqb_spec c "(") as [->|Hne]; cycle 1.
  { destruct c as [[] [] [] [] [] [] [] []]; try done; by destruct Hne. }
  destruct (split_at ")" s) as [[ts s1]|]; [simpl|done].
  set (wf := match lstrip s1 with
             | String "(" s' => _
             | _ => None
             end).
  assert (Hwf : ∀ m', wf = Some m' → lstrip (g_code m') = g_code m').
  { subst wf. intros m'. destruct (lstrip s1) as [|c s']; [done|].
    destruct (Ascii.eqb_spec c "(") as [->|Hne]; cycle 1.
    { destruct c as [[] [] [] [] [] [] [] []]; try done; by destruct Hne. }
    destruct (split_at ")" s') as [[fr s2]|]; [simpl|done].
    destruct (match_site (lstrip s2)) as [[[f l] c]|] eqn:Hs; [simpl|done].
    intros [= <-]. simpl. by eapply match_site_code. }
  destruct wf as [m'|]; [intros [= <-]; by apply Hwf|].
  destruct (match_site (lstrip s1)) as [[[f l] c]|] eqn:Hs; [simpl|done].
  intros [= <-]. simpl. by eapply match_site_code.
Qed.

Section ParserClaims.

Variable py_float : string → option Qc.
Variable py_int : string → option Z.


Lemma parse_loop_ignore (file_obj : list string)
    (cur : option (Qc * CmakeTraceInfo)) (ev : event) :
  ev ∈ yielded (parse_loop py_float py_int true file_obj None cur) →
  nesting ev = None.
Proof.
  revert cur. induction file_obj as [|line file_obj IH]; intros cur.
  - simpl. rewrite yielded_yield. simpl. rewrite app_nil_r.
    destruct cur as [[t ti]|]; simpl; [|by intros ?%elem_of_nil].
    by intros ->%list_elem_of_singleton.
  - cbn [parse_loop]. destruct (matcher_match (rstrip line)) as [m|].
    + rewrite yielded_yield. intros [Hin|Hin]%elem_of_app.
      * destruct cur as [[t ti]|]; simpl in Hin; [|by apply elem_of_nil in Hin].
        by apply list_elem_of_singleton in Hin as ->.
      * unfold parse_match in Hin. simpl in Hin.
        destruct (py_float (g_timestamp m)); [|by apply elem_of_nil in Hin].
        destruct (py_int (g_line m)); [|by apply elem_of_nil in Hin].
        by eapply IH.
    + destruct cur as [[t ti]|]; [destruct (match_parens _)|]; simpl; apply IH.
Qed.



End ParserClaims.





(** ** Aborts of the builder *)

Lemma collect_loop_app (s : collect_state) (l1 l2 : list event) :
  collect_loop s (l1 ++ l2) = (s' ← collect_loop s l1; collect_loop s' l2).
Proof.
  revert s. induction l1 as [|ev l1 IH]; intros s; simpl; [done|].
  destruct (collect_step s ev) as [s'|e]; simpl; [apply IH|done].
Qed.

Lemma builder_state_snoc (events : list event) (ev : event) :
  builder_state (events ++ [ev]) = (s ← builder_state events; collect_step s ev).
Proof.
  unfold builder_state. rewrite collect_init_eq. simpl.
  rewrite collect_loop_app. destruct (collect_loop init_state events); simpl; [|done].
  by destruct (collect_step a ev).
Qed.

Lemma collect_step_fields (s s' : collect_state) (ev : event) :
  collect_step s ev = Ok s' →
  previous s' = Some (timeval ev, site ev) ∧
  previous_nesting s' = depth_of ev ∧
  previous_nesting_diff s' =
    match nesting ev with
    | Some c => (c - previous_nesting s)%Z
    | None => 0%Z
    end.
Proof.
  destruct ev as [[cn ct] cti]. unfold collect_step. intros Hstep.
  inv_bind Hstep. destruct a as [[h' traces'] p'].
  destruct cn; by injection Hstep as <-.
Qed.

(** The state after at least two events: the pending event, its depth,
    the change of depth it brought, and a cursor with a child. *)
Lemma builder_state_pending (events : list event) (e1 e2 : event)
    (s : collect_state) :
  builder_state (events ++ [e1; e2]) = Ok s →
  previous s = Some (timeval e2, site e2) ∧
  previous_nesting s = depth_of e2 ∧
  previous_nesting_diff s =
    match nesting e2 with
    | Some c => (c - depth_of e1)%Z
    | None => 0%Z
    end ∧
  1 < length (st_heap s).
Proof.
  intros Hs. pose proof Hs as Hs'.
  replace (events ++ [e1; e2]) with ((events ++ [e1]) ++ [e2]) in Hs
    by by rewrite <- app_assoc.
  rewrite builder_state_snoc in Hs. inv_bind Hs. rename a into s1.
  rewrite builder_state_snoc in Ha. inv_bind Ha. rename a into s0.
  destruct (collect_step_fields _ _ _ Ha) as (_ & Hn1 & _).
  destruct (collect_step_fields _ _ _ Hs) as (Hp & Hn & Hd).
  rewrite Hn1 in Hd. do 3 (split; [done|]).
  destruct (builder_state_ok _ _ Hs') as [Hok _].
  pose proof (ok_own_length _ _ _ _ _ Hok) as Hlen. simpl in Hlen.
  rewrite gaps_length in Hlen.
  destruct events as [|e0 events]; simpl in Hlen; [lia|].
  rewrite length_app in Hlen. simpl in Hlen. lia.
Qed.

Lemma attach_point_fails (h : heap) (p : ref) (cn pn : Z) (ti : CmakeTraceInfo) :
  wf h → p < length h → (∃ n, h !! p = Some n ∧ subtraces n ≠ []) →
  cn ≠ 0%Z →
  (is_ok (attach_point h p cn pn ti) = false ↔
     (1 < cn - pn)%Z ∨
     ((cn - pn < 0)%Z ∧ length (ancestors h p) ≤ Z.to_nat (pn - cn))) ∧
  (∀ e, attach_point h p cn pn ti = Raise e →
     e = AssertionError "" ∨
     e = AssertionError "Frames nesting increased by more than 1").
Proof.
  intros Hwf Hp (n & Hn & Hkids) Hcn. unfold attach_point.
  rewrite (proj2 (Z.eqb_neq cn 0)) by done.
  destruct (Z.eqb_spec (cn - pn) 0) as [H0|H0].
  { split; [|done]. simpl. split; [done|lia]. }
  destruct (Z.ltb_spec (cn - pn) 0) as [Hneg|Hpos].
  { rewrite (ascend_lookup h Hwf) by done.
    replace (- (cn - pn))%Z with (pn - cn)%Z by lia.
    destruct (ancestors h p !! Z.to_nat (pn - cn)) as [q|] eqn:Hq; simpl.
    - apply lookup_lt_Some in Hq. split; [|done]. split; [done|lia].
    - apply lookup_ge_None in Hq. split; [|intros e [= <-]; by left].
      split; [intros _; right; lia|done]. }
  destruct (Z.eqb_spec (cn - pn) 1) as [H1|H1].
  { unfold deref. rewrite Hn. simpl.
    destruct (last (subtraces n)) as [c|] eqn:Hc; simpl.
    - split; [|done]. split; [done|lia].
    - by apply last_None in Hc. }
  simpl. split; [|intros e [= <-]; by right].
  split; [intros _; left; lia|done].
Qed.

Lemma collect_step_is_ok (s : collect_state) (ev : event) (own : list Qc)
    (sites : list CmakeTraceInfo) (pt : Qc) (pti : CmakeTraceInfo) :
  state_ok s own sites → previous s = Some (pt, pti) →
  (is_ok (collect_step s ev) =
     is_ok (attach_point (st_heap s) (st_parent s) (previous_nesting s)
              (previous_nesting s - previous_nesting_diff s) pti)) ∧
  (∀ e, collect_step s ev = Raise e →
        attach_point (st_heap s) (st_parent s) (previous_nesting s)
          (previous_nesting s - previous_nesting_diff s) pti = Raise e).
Proof.
  intros Hok Hprev. destruct ev as [[cn ct] cti]. unfold collect_step.
  rewrite Hprev.
  rewrite (update_traces_eq _ (ok_wf _ _ _ _ _ Hok))
    by apply (ok_cursor _ _ _ _ _ Hok).
  destruct (attach_point _ _ _ _ _) as [p'|e]; simpl.
  - split; [by destruct cn|]. by destruct cn.
  - split; [done|]. by intros e' [= <-].
Qed.

(** C8 (amended). After at least two events, let the last one carry the
    depth [c] and the one before it the depth [d1] ([0] when unknown).
    When [c] is not [0], the arrival of one more event aborts the builder
    exactly when [c] exceeds [d1] by more than 1, or [c] is below [d1]
    and the cursor has no more than [d1 - c] objects on its chain to the
    root, so that the ascent would pass the root; the exception is one of
    the two assertions, and no tree is returned for any continuation of
    the stream. When [c] is [0] or unknown the arrival of one more event
    never aborts. *)
Theorem C8_structural_aborts (events : list event) (e1 e2 ev : event)
    (s : collect_state) :
  builder_state (events ++ [e1; e2]) = Ok s →
  let c := depth_of e2 in
  let d1 := depth_of e1 in
  (c = 0%Z → is_ok (collect_step s ev) = true) ∧
  (c ≠ 0%Z →
     (is_ok (collect_step s ev) = false ↔
        (1 < c - d1)%Z ∨
        ((c - d1 < 0)%Z ∧
         length (ancestors (st_heap s) (st_parent s)) ≤ Z.to_nat (d1 - c))) ∧
     ∀ e, collect_step s ev = Raise e →
       (e = AssertionError "" ∨
        e = AssertionError "Frames nesting increased by more than 1") ∧
       ∀ more, build (events ++ [e1; e2] ++ ev :: more) = Raise e).
Proof.
  intros Hs c d1.
  destruct (builder_state_pending events e1 e2 s Hs) as (Hprev & Hn & Hd & Hlen).
  destruct (builder_state_ok _ _ Hs) as [Hok _].
  pose proof (ok_wf _ _ _ _ _ Hok) as Hwf.
  pose proof (ok_cursor _ _ _ _ _ Hok) as Hp.
  destruct (collect_step_is_ok s ev _ _ _ _ Hok Hprev) as [Hisok Hraise].
  rewrite Hn, Hd in Hisok, Hraise. fold c in Hisok, Hraise.
  split.
  - intros Hc. rewrite Hisok. unfold attach_point.
    rewrite Hc. simpl. by rewrite resolve_parent_ok.
  - intros Hc.
    assert (Hpn : (c - match nesting e2 with
                       | Some c0 => c0 - depth_of e1
                       | None => 0
                       end = d1)%Z).
    { unfold c, depth_of in *. destruct (nesting e2); simpl in *; [lia|done]. }
    rewrite Hpn in Hisok, Hraise.
    destruct (attach_point_fails (st_heap s) (st_parent s) c d1 (site e2)
                Hwf Hp (ok_child _ _ _ _ _ Hok Hlen) Hc) as [Hiff Herr].
    split; [by rewrite Hisok|].
    intros e He. split; [by apply Herr, Hraise|].
    intros more.
    assert (Hbs : builder_state ((events ++ [e1; e2]) ++ ev :: more) = Raise e).
    { unfold builder_state in *. rewrite collect_init_eq in *.
      simpl in Hs |- *. rewrite collect_loop_app, Hs. simpl. by rewrite He. }
    by rewrite build_eq, app_assoc, Hbs.
Qed.

Lemma C8_structural_aborts_witness :
  let e1 := mk_event (Some 1%Z) 1 "a.cmake" 1 "f()" in
  let e2 := mk_event (Some 3%Z) 2 "a.cmake" 2 "g()" in
  let ev := mk_event (Some 3%Z) 3 "a.cmake" 3 "h()" in
  ∃ s, builder_state ([] ++ [e1; e2]) = Ok s ∧
    let c := depth_of e2 in
    let d1 := depth_of e1 in
    (c = 0%Z → is_ok (collect_step s ev) = true) ∧
    (c ≠ 0%Z →
       (is_ok (collect_step s ev) = false ↔
          (1 < c - d1)%Z ∨
          ((c - d1 < 0)%Z ∧
           length (ancestors (st_heap s) (st_parent s)) ≤ Z.to_nat (d1 - c))) ∧
       ∀ e, collect_step s ev = Raise e →
         (e = AssertionError "" ∨
          e = AssertionError "Frames nesting increased by more than 1") ∧
         ∀ more, build ([] ++ [e1; e2] ++ ev :: more) = Raise e).
Proof.
  intros e1 e2 ev. eexists. split; [vm_compute; reflexivity|].
  apply (C8_structural_aborts [] e1 e2 ev). vm_compute; reflexivity.
Defined.

(** C8 as stated fails: the depths 1, 0, 1 ask for an ascent past the
    root at the second event, which the specification calls fatal, and
    the builder returns a tree, a depth of 0 being taken as unknown. *)
Lemma C8_counterexample :
  depth_of <$> zero_depth_events = [1%Z; 0%Z; 1%Z] ∧
  spec_fatal 0 1 (depth_of <$> zero_depth_events) = true ∧
  is_ok (build zero_depth_events) = true.
Proof. by vm_compute. Qed.

(** The depth of the last event is never examined: the [else] clause of
    [_collect_stats] passes the same level twice. *)
Example last_event_depth_unchecked :
  spec_fatal 0 1 (depth_of <$> jump_events) = true ∧
  is_ok (build jump_events) = true.
Proof. by vm_compute. Qed.

(** A first event at depth 2 makes the builder index the empty
    [subtraces] of the root. *)
Example first_event_depth_two :
  spec_fatal 0 1 (depth_of <$> deep_start_events) = false ∧
  build deep_start_events = Raise IndexError.
Proof. by vm_compute. Qed.

(** ** Streams without depth *)

Lemma update_unknown_ok (s : collect_state) (own : list Qc)
    (sites : list CmakeTraceInfo) (ct pt : Qc) (pn : Z) (ti : CmakeTraceInfo) :
  state_ok s own sites →
  ∃ r, r < length (st_heap s) ∧
    update_traces (st_heap s) (st_traces s) (st_parent s) ct pt 0 pn ti =
      Ok (appended (st_heap s) r (clamp_duration ct pt) ti,
          st_traces s ++ (if decide (r = 0) then [length (st_heap s)] else []),
          r).
Proof.
  intros Hok. pose proof (ok_wf _ _ _ _ _ Hok) as Hwf.
  pose proof (ok_cursor _ _ _ _ _ Hok) as Hp.
  rewrite (update_traces_eq _ Hwf) by done.
  destruct (attach_point (st_heap s) (st_parent s) 0 pn ti) as [r|e] eqn:Hr.
  - exists r. split; [by eapply attach_point_valid|done].
  - unfold attach_point in Hr. simpl in Hr. by rewrite resolve_parent_ok in Hr.
Qed.

Lemma collect_loop_unknown (events : list event) (s : collect_state)
    (own : list Qc) (sites : list CmakeTraceInfo) :
  state_ok s own sites →
  (previous s = None ∨ previous_nesting s = 0%Z) →
  (∀ ev, ev ∈ events → nesting ev = None) →
  ∃ s', collect_loop s events = Ok s'.
Proof.
  revert s own sites. induction events as [|ev events IH];
    intros s own sites Hok Hprev Hall; [by eexists|].
  assert (Hev : nesting ev = None) by (apply Hall, elem_of_cons; by left).
  assert (Hstep : ∃ s1, collect_step s ev = Ok s1).
  { destruct ev as [[cn ct] cti]. unfold nesting in Hev. simpl in Hev.
    subst cn. unfold collect_step.
    destruct (previous s) as [[pt pti]|] eqn:Hp; [|by eexists].
    destruct Hprev as [?|Hpn]; [done|]. rewrite Hpn.
    destruct (update_unknown_ok s own sites ct pt
                (0 - previous_nesting_diff s)%Z pti Hok) as (r & _ & ->).
    by eexists. }
  destruct Hstep as [s1 Hs1]. simpl. rewrite Hs1. simpl.
  destruct (collect_step_ok _ _ _ _ _ Hok Hs1) as [Hok1 _].
  destruct (collect_step_fields _ _ _ Hs1) as (_ & Hn & _).
  eapply IH; [done| |].
  - right. rewrite Hn. unfold depth_of. by rewrite Hev.
  - intros ev' Hev'. apply Hall, elem_of_cons. by right.
Qed.

Lemma collect_events_unknown (out : parse_output) :
  (∀ ev, ev ∈ yielded out → nesting ev = None) →
  match raised out with
  | None => ∃ h traces, collect_events [] out = Ok (h, traces)
  | Some e => collect_events [] out = Raise e
  end.
Proof.
  intros Hall. unfold collect_events. rewrite collect_init_eq. simpl.
  destruct (collect_loop_unknown (yielded out) init_state _ _ init_state_ok)
    as [s Hs]; [by left|done|].
  rewrite Hs. simpl. destruct (raised out) as [e|]; [done|].
  pose proof (collect_loop_ok _ _ _ _ _ init_state_ok Hs) as [Hok _].
  destruct (collect_finish_ok s _ _ Hok) as (h & traces & _ & Hfin & _). eauto.
Qed.

Section UnknownDepth.

Variable py_float : string → option Qc.
Variable py_int : string → option Z.

Lemma parse_match_raises (ignore_nesting : bool) (cn : option Z)
    (m : line_match) (e : exn) :
  parse_match py_float py_int ignore_nesting cn m = Raise e → e = ValueError.
Proof.
  unfold parse_match. destruct ignore_nesting; simpl.
  - destruct (py_float _); [|by intros [= <-]].
    destruct (py_int (g_line m)); [done|by intros [= <-]].
  - destruct (g_frame m) as [frame|]; simpl.
    + destruct (py_int frame); simpl; [|by intros [= <-]].
      destruct (py_float _); [|by intros [= <-]].
      destruct (py_int (g_line m)); [done|by intros [= <-]].
    + destruct (py_float _); [|by intros [= <-]].
      destruct (py_int (g_line m)); [done|by intros [= <-]].
Qed.

Lemma parse_loop_raises (ignore_nesting : bool) (file_obj : list string)
    (cn : option Z) (cur : option (Qc * CmakeTraceInfo)) (e : exn) :
  raised (parse_loop py_float py_int ignore_nesting file_obj cn cur) = Some e →
  e = ValueError.
Proof.
  revert cn cur. induction file_obj as [|line file_obj IH]; intros cn cur.
  - simpl. by rewrite raised_yield.
  - cbn [parse_loop]. destruct (matcher_match (rstrip line)) as [m|].
    + rewrite raised_yield.
      destruct (parse_match py_float py_int ignore_nesting cn m)
        as [[cn' cur']|e'] eqn:Hm; [apply IH|].
      simpl. intros [= <-]. by eapply parse_match_raises.
    + destruct cur as [[t ti]|]; [destruct (match_parens _)|]; simpl; apply IH.
Qed.

Lemma parse_loop_no_frame (file_obj : list string)
    (cur : option (Qc * CmakeTraceInfo)) (ev : event) :
  (∀ line m, line ∈ file_obj → matcher_match (rstrip line) = Some m →
             g_frame m = None) →
  ev ∈ yielded (parse_loop py_float py_int false file_obj None cur) →
  nesting ev = None.
Proof.
  revert cur. induction file_obj as [|line file_obj IH]; intros cur Hall.
  - simpl. rewrite yielded_yield. simpl. rewrite app_nil_r.
    destruct cur as [[t ti]|]; simpl; [|by intros ?%elem_of_nil].
    by intros ->%list_elem_of_singleton.
  - assert (Hall' : ∀ line' m, line' ∈ file_obj →
                      matcher_match (rstrip line') = Some m → g_frame m = None).
    { intros line' m Hin. apply Hall, elem_of_cons. by right. }
    cbn [parse_loop]. destruct (matcher_match (rstrip line)) as [m|] eqn:Hm.
    + rewrite yielded_yield. intros [Hin|Hin]%elem_of_app.
      * destruct cur as [[t ti]|]; simpl in Hin; [|by apply elem_of_nil in Hin].
        by apply list_elem_of_singleton in Hin as ->.
      * unfold parse_match in Hin. simpl in Hin.
        rewrite (Hall line m) in Hin by (done || apply elem_of_cons; by left).
        simpl in Hin.
        destruct (py_float (g_timestamp m)); [|by apply elem_of_nil in Hin].
        destruct (py_int (g_line m)); [|by apply elem_of_nil in Hin].
        by eapply IH.
    + destruct cur as [[t ti]|]; [destruct (match_parens _)|]; simpl; by apply IH.
Qed.

(** C10. With an unknown nesting level [_update_traces] always succeeds
    and creates exactly one object, a leaf with the call site of the event
    that becomes the last child of an existing object. Hence a stream of
    events without depth is always built to its end, and a run with
    nesting ignored, or on a trace without depth fields, ends in a tree
    or in the [ValueError] of a number that does not convert, never in a
    structural abort. *)
Theorem C10_unknown_depth_never_aborts :
  (∀ events s ct pt pn ti, builder_state events = Ok s →
     ∃ h' traces' r,
       update_traces (st_heap s) (st_traces s) (st_parent s) ct pt 0 pn ti =
         Ok (h', traces', r) ∧
       r < length (st_heap s) ∧
       length h' = S (length (st_heap s)) ∧
       h' !! length (st_heap s) =
         Some (mkTrace (clamp_duration ct pt) (Some ti) (Some r) []) ∧
       (∃ n, h' !! r = Some n ∧ last (subtraces n) = Some (length (st_heap s))) ∧
       wf h') ∧
  (∀ events, (∀ ev, ev ∈ events → nesting ev = None) →
     ∃ h traces, build events = Ok (h, traces)) ∧
  (∀ file_obj,
     (∃ h traces, collect_stats py_float py_int [] file_obj true = Ok (h, traces)) ∨
     collect_stats py_float py_int [] file_obj true = Raise ValueError) ∧
  (∀ file_obj,
     (∀ line m, line ∈ file_obj → matcher_match (rstrip line) = Some m →
                g_frame m = None) →
     (∃ h traces, collect_stats py_float py_int [] file_obj false = Ok (h, traces)) ∨
     collect_stats py_float py_int [] file_obj false = Raise ValueError).
Proof.
  split; [|split; [|split]].
  - intros events s ct pt pn ti Hs.
    destruct (builder_state_ok _ _ Hs) as [Hok _].
    pose proof (ok_wf _ _ _ _ _ Hok) as Hwf.
    destruct (update_unknown_ok s _ _ ct pt pn ti Hok) as (r & Hr & Hup).
    do 3 eexists. split; [done|]. split; [done|].
    split; [by apply appended_length|]. split; [by apply appended_new|].
    split; [|by apply appended_wf].
    pose proof Hr as Hl. apply lookup_lt_is_Some in Hl as [n Hn].
    eexists. split; [by apply appended_old|]. simpl.
    rewrite decide_True by done. by rewrite last_snoc.
  - intros events Hall.
    by apply (collect_events_unknown (mkOutput events [] None)).
  - intros file_obj. unfold collect_stats.
    pose proof (collect_events_unknown
                  (parse_cmake_log py_float py_int file_obj true)) as Hc.
    destruct (raised _) as [e|] eqn:He.
    + right. apply parse_loop_raises in He as ->. apply Hc.
      intros ev. apply parse_loop_ignore.
    + left. apply Hc. intros ev. apply parse_loop_ignore.
  - intros file_obj Hall. unfold collect_stats.
    pose proof (collect_events_unknown
                  (parse_cmake_log py_float py_int file_obj false)) as Hc.
    destruct (raised _) as [e|] eqn:He.
    + right. apply parse_loop_raises in He as ->. apply Hc.
      intros ev. by apply parse_loop_no_frame.
    + left. apply Hc. intros ev. by apply parse_loop_no_frame.
Qed.

End UnknownDepth.

Lemma C10_unknown_depth_never_aborts_witness :
  (∃ s, builder_state flat_events = Ok s ∧
     ∃ h' traces' r,
       update_traces (st_heap s) (st_traces s) (st_parent s)
         (Q2Qc 4) (Q2Qc 3) 0 0 (mkTraceInfo "a.cmake" 12 "h()") =
         Ok (h', traces', r) ∧
       r < length (st_heap s) ∧
       length h' = S (length (st_heap s)) ∧
       h' !! length (st_heap s) =
         Some (mkTrace (clamp_duration (Q2Qc 4) (Q2Qc 3))
                 (Some (mkTraceInfo "a.cmake" 12 "h()")) (Some r) []) ∧
       (∃ n, h' !! r = Some n ∧ last (subtraces n) = Some (length (st_heap s))) ∧
       wf h') ∧
  (∃ h traces, build flat_events = Ok (h, traces)) ∧
  ((∃ h traces,
      collect_stats read_float read_int [] sample_trace true = Ok (h, traces)) ∨
   collect_stats read_float read_int [] sample_trace true = Raise ValueError).
Proof.
  split; [|split].
  - eexists. split; [vm_compute; reflexivity|].
    eapply (proj1 (C10_unknown_depth_never_aborts read_float read_int)
              flat_events).
    vm_compute; reflexivity.
  - apply (proj1 (proj2 (C10_unknown_depth_never_aborts read_float read_int))
             flat_events).
    intros ev Hev.
    repeat (apply elem_of_cons in Hev as [->|Hev]; [reflexivity|]).
    by apply elem_of_nil in Hev.
  - apply (proj1 (proj2 (proj2
             (C10_unknown_depth_never_aborts read_float read_int)))
             sample_trace).
Defined.

(** ** The report *)

Section PrinterClaims.

Variable args : arguments.
Variable ti_to_string : option CmakeTraceInfo → option Z → string → result string.
Variable whole_duration : Qc.

Lemma print_for_break (rec : list StoredTrace → nat → printed) (indent : nat)
    (pre rest : list StoredTrace) (x : StoredTrace) :
  depth_exceeded args indent = true ∨
  below_threshold args whole_duration x = Ok true →
  print_for args ti_to_string whole_duration rec indent (pre ++ x :: rest) =
  print_for args ti_to_string whole_duration rec indent pre.
Proof.
  intros Hbreak. induction pre as [|y pre IH]; simpl.
  - destruct (depth_exceeded args indent); [done|].
    destruct Hbreak as [? | ->]; done.
  - by rewrite IH.
Qed.

End PrinterClaims.

(** C9. In the loop over the siblings of one level, a node that is
    deeper than a non-zero maximum depth, or whose share of the whole
    duration is strictly below the threshold, ends the loop: neither it
    nor any later sibling is printed, whatever their durations, and what
    was printed for the earlier siblings stands. With the threshold 0.5
    and two top-level leaves of shares 0.6 and 0.4, the report is the
    line of the first leaf alone. *)
Theorem C9_short_circuit
    (ti_to_string : option CmakeTraceInfo → option Z → string → result string) :
  (∀ args whole_duration fuel traces indent pre x rest,
     ordered_traces args traces = pre ++ x :: rest →
     depth_exceeded args indent = true ∨
     below_threshold args whole_duration x = Ok true →
     print_traces_loop args ti_to_string whole_duration (S fuel) traces indent =
     print_for args ti_to_string whole_duration
       (print_traces_loop args ti_to_string whole_duration fuel) indent pre) ∧
  (∀ sort tiA tiB,
     let A := mkStored tiA (Q2Qc (6 # 10)) [] in
     let B := mkStored tiB (Q2Qc (4 # 10)) [] in
     let args := mkArgs (Q2Qc (1 # 2)) 0 None sort false in
     whole_duration_of [A; B] = Q2Qc 1 ∧
     print_traces args ti_to_string [A; B] (whole_duration_of [A; B]) =
       match ti_to_string tiA None "1" with
       | Ok ti_str => ([mkLine 0 ti_str (Q2Qc (6 # 10)) (Q2Qc 60)], None)
       | Raise e => ([], Some e)
       end).
Proof.
  split.
  - intros args whole_duration fuel traces indent pre x rest Hord Hbreak.
    cbn [print_traces_loop]. rewrite Hord. by apply print_for_break.
  - intros sort tiA tiB A B args.
    assert (Hwhole : whole_duration_of [A; B] = Q2Qc 1)
      by (apply Qc_is_canon; reflexivity).
    split; [done|]. rewrite Hwhole.
    assert (Hord : ordered_traces args [A; B] = [A; B]) by by destruct sort.
    unfold print_traces. cbn [print_traces_loop]. rewrite Hord.
    assert (HA : below_threshold args (Q2Qc 1) A = Ok false) by reflexivity.
    assert (HB : below_threshold args (Q2Qc 1) B = Ok true) by reflexivity.
    assert (Hpct : (Q2Qc (6 # 10) / Q2Qc 1 * Q2Qc 100)%Qc = Q2Qc 60)
      by (apply Qc_is_canon; reflexivity).
    cbn [print_for]. change (depth_exceeded args 0) with false.
    cbv iota. rewrite HA, HB.
    change (pretty (0 + 1)) with "1".
    destruct (ti_to_string (s_trace_info A) (trace_info_width args) "1")
      as [ti_str|e] eqn:Hti; simpl in Hti |- *; rewrite Hti; [|done].
    assert (Hnil : ordered_traces args [] = []) by by destruct sort.
    simpl. rewrite Hpct, Hnil. reflexivity.
Qed.

Lemma C9_short_circuit_witness :
  let f : option CmakeTraceInfo → option Z → string → result string :=
    λ _ _ nesting, Ok nesting in
  let args := mkArgs (Q2Qc (1 # 2)) 0 None false false in
  let X := mkStored None (Q2Qc (4 # 10)) [] in
  let Y := mkStored None (Q2Qc (6 # 10)) [] in
  print_traces_loop args f (Q2Qc 1) 1 [X; Y] 0 =
  print_for args f (Q2Qc 1) (print_traces_loop args f (Q2Qc 1) 0) 0 [].
Proof.
  intros f args X Y.
  apply (proj1 (C9_short_circuit f) args (Q2Qc 1) 0 [X; Y] 0 [] X [Y]).
  - reflexivity.
  - right. vm_compute. reflexivity.
Defined.

(** * Further properties of the script *)

(** ** Lines and white space *)

Lemma rstrip_all_space (ws : string) : all_space ws = true → rstrip ws = "".
Proof.
  induction ws as [|c ws IH]; [done|]. simpl.
  intros [Hc Hws]%andb_prop. by rewrite IH, Hc.
Qed.

Lemma rstrip_app_space (s ws : string) :
  all_space ws = true → rstrip (s ++ ws) = rstrip s.
Proof.
  intros Hws. induction s as [|c s IH].
  - rewrite append_nil_l. by rewrite rstrip_all_space.
  - rewrite append_cons. simpl. by rewrite IH.
Qed.

Lemma parse_loop_rstrip (py_float : string → option Qc)
    (py_int : string → option Z) (ignore_nesting : bool)
    (l1 l2 : list string) (cn : option Z) (cur : option (Qc * CmakeTraceInfo)) :
  rstrip <$> l1 = rstrip <$> l2 →
  parse_loop py_float py_int ignore_nesting l1 cn cur =
  parse_loop py_float py_int ignore_nesting l2 cn cur.
Proof.
  revert l2 cn cur. induction l1 as [|a l1 IH]; intros [|b l2] cn cur Heq;
    try done.
  rewrite !fmap_cons in Heq. injection Heq as Hab Heq.
  cbn [parse_loop]. rewrite Hab.
  destruct (matcher_match (rstrip b)) as [m|].
  - destruct (parse_match py_float py_int ignore_nesting cn m) as [[cn' cur']|];
      [|done]. by rewrite (IH l2).
  - destruct cur as [[t ti]|]; [destruct (match_parens _)|]; by rewrite (IH l2).
Qed.

(** X1. White space at the end of the lines, such as the carriage return
    and newline of a Windows file, changes nothing: the events, the
    diagnostics and the outcome of the collection are the same. *)
Theorem X1_trailing_space_ignored (py_float : string → option Qc)
    (py_int : string → option Z) (file_obj file_obj' : list string)
    (ignore_nesting : bool) :
  Forall2 (λ line line', ∃ ws, all_space ws = true ∧ line' = (line ++ ws)%string)
    file_obj file_obj' →
  parse_cmake_log py_float py_int file_obj' ignore_nesting =
    parse_cmake_log py_float py_int file_obj ignore_nesting ∧
  collect_stats py_float py_int [] file_obj' ignore_nesting =
    collect_stats py_float py_int [] file_obj ignore_nesting.
Proof.
  intros HF.
  assert (Hr : rstrip <$> file_obj' = rstrip <$> file_obj).
  { induction HF as [|l l' ls ls' (ws & Hws & ->) _ IH]; [done|].
    rewrite !fmap_cons, IH. by rewrite rstrip_app_space. }
  assert (Hp : parse_cmake_log py_float py_int file_obj' ignore_nesting =
               parse_cmake_log py_float py_int file_obj ignore_nesting)
    by by apply parse_loop_rstrip.
  split; [done|]. unfold collect_stats. by rewrite Hp.
Qed.

Lemma X1_trailing_space_ignored_witness :
  parse_cmake_log read_float read_int
    ((λ line, (line ++ crlf)%string) <$> sample_trace) false =
    parse_cmake_log read_float read_int sample_trace false ∧
  collect_stats read_float read_int []
    ((λ line, (line ++ crlf)%string) <$> sample_trace) false =
    collect_stats read_float read_int [] sample_trace false.
Proof.
  apply (X1_trailing_space_ignored read_float read_int sample_trace).
  repeat (constructor; [exists crlf; split; reflexivity|]). constructor.
Defined.

(** ** Parentheses *)

Lemma paren_nesting_count (code : string) (n : Z) :
  paren_nesting code n = (n + count_char "(" code - count_char ")" code)%Z.
Proof.
  revert n. induction code as [|c code IH]; intros n; simpl; [lia|].
  rewrite IH.
  destruct (Ascii.eqb_spec c "(") as [->|Hne]; simpl; [lia|].
  destruct (Ascii.eqb c ")"); lia.
Qed.

(** X2. [match_parens] compares the numbers of opening and closing
    parentheses and nothing else: neither their order nor quoting
    matters. *)
Theorem X2_match_parens_counts (code : string) :
  match_parens code = true ↔ count_char "(" code = count_char ")" code.
Proof.
  unfold match_parens. rewrite paren_nesting_count, Z.eqb_eq. lia.
Qed.

(** ** Durations *)





(** ** Traces without trace lines, and numbers that do not convert *)

Section ConversionFailures.

Variable py_float : string → option Qc.
Variable py_int : string → option Z.

Lemma parse_loop_unmatched (ignore_nesting : bool) (file_obj : list string)
    (cn : option Z) :
  count_parseable file_obj = 0 →
  parse_loop py_float py_int ignore_nesting file_obj cn None =
    mkOutput [] ((λ line, ("Ignored: " ++ rstrip line)%string) <$> file_obj) None.
Proof.
  induction file_obj as [|line file_obj IH]; [done|].
  rewrite count_parseable_cons. unfold parseable. cbn [parse_loop].
  destruct (matcher_match (rstrip line)) as [m|]; [lia|].
  intros Hc. rewrite IH by lia. done.
Qed.

(** X4. A trace in which no line matches the pattern, the empty trace
    among them, gives no event and no node: the collection returns the
    root sentinel alone and an empty forest, and every line is echoed to
    stderr behind [Ignored: ], stripped of its trailing white space. *)
Theorem X4_no_trace_lines (file_obj : list string) (ignore_nesting : bool) :
  count_parseable file_obj = 0 →
  parse_cmake_log py_float py_int file_obj ignore_nesting =
    mkOutput [] ((λ line, ("Ignored: " ++ rstrip line)%string) <$> file_obj) None ∧
  collect_stats py_float py_int [] file_obj ignore_nesting =
    Ok ([mkTrace 0%Qc None None []], []).
Proof.
  intros Hc. unfold collect_stats, parse_cmake_log.
  rewrite (parse_loop_unmatched _ _ _ Hc). done.
Qed.

Lemma parse_loop_converted (ignore_nesting : bool) (file_obj : list string)
    (cn : option Z) (cur : option (Qc * CmakeTraceInfo)) :
  raised (parse_loop py_float py_int ignore_nesting file_obj cn cur) = None →
  ∀ line m, line ∈ file_obj → matcher_match (rstrip line) = Some m →
    is_Some (py_float (g_timestamp m)) ∧ is_Some (py_int (g_line m)) ∧
    (ignore_nesting = false → ∀ frame, g_frame m = Some frame →
       is_Some (py_int frame)).
Proof.
  revert cn cur. induction file_obj as [|a file_obj IH]; intros cn cur Hr line m Hin Hm.
  { by apply elem_of_nil in Hin. }
  cbn [parse_loop] in Hr.
  destruct (matcher_match (rstrip a)) as [ma|] eqn:Hma.
  - rewrite raised_yield in Hr.
    destruct (parse_match py_float py_int ignore_nesting cn ma)
      as [[cn' cur']|e] eqn:Hpm; [|done].
    apply elem_of_cons in Hin as [->|Hin]; [|by eapply IH].
    rewrite Hma in Hm. injection Hm as <-.
    unfold parse_match in Hpm.
    destruct ignore_nesting; simpl in Hpm.
    + destruct (py_float _); [|done]. destruct (py_int (g_line ma)); [|done].
      by repeat split.
    + destruct (g_frame ma) as [frame|]; simpl in Hpm.
      * destruct (py_int frame) eqn:Hf; simpl in Hpm; [|done].
        destruct (py_float _); [|done]. destruct (py_int (g_line ma)); [|done].
        repeat split; try done. intros _ frame' [= <-]. by rewrite Hf.
      * destruct (py_float _); [|done]. destruct (py_int (g_line ma)); [|done].
        by repeat split.
  - apply elem_of_cons in Hin as [->|Hin]; [congruence|].
    destruct cur as [[t ti]|]; [destruct (match_parens _)|]; simpl in Hr;
      by eapply IH.
Qed.

(** X5. One number that does not convert aborts the whole collection:
    when [float] rejects the time stamp of a matched line, or [int] its
    line number or, with nesting not ignored, its depth, no tree is
    returned. *)
Theorem X5_conversion_failure_aborts (file_obj : list string)
    (ignore_nesting : bool) (line : string) (m : line_match) :
  line ∈ file_obj → matcher_match (rstrip line) = Some m →
  py_float (g_timestamp m) = None ∨ py_int (g_line m) = None ∨
  (ignore_nesting = false ∧ ∃ frame, g_frame m = Some frame ∧ py_int frame = None) →
  ∃ e, collect_stats py_float py_int [] file_obj ignore_nesting = Raise e.
Proof.
  intros Hin Hm Hbad.
  destruct (collect_stats py_float py_int [] file_obj ignore_nesting)
    as [r|e] eqn:Hc; [exfalso|by eexists].
  unfold collect_stats in Hc. apply collect_events_Ok in Hc as [Hr _].
  destruct (parse_loop_converted _ _ _ _ Hr line m Hin Hm) as (Ht & Hl & Hf).
  destruct Hbad as [Hb|[Hb|(Hig & frame & Hfr & Hb)]].
  - rewrite Hb in Ht. by destruct Ht.
  - rewrite Hb in Hl. by destruct Hl.
  - specialize (Hf Hig frame Hfr). rewrite Hb in Hf. by destruct Hf.
Qed.

End ConversionFailures.

Lemma X4_no_trace_lines_witness :
  let file_obj := ["-- Configuring"; ""; "CMake Warning at a.cmake:3 (message):"] in
  parse_cmake_log read_float read_int file_obj false =
    mkOutput [] ((λ line, ("Ignored: " ++ rstrip line)%string) <$> file_obj) None ∧
  collect_stats read_float read_int [] file_obj false =
    Ok ([mkTrace 0%Qc None None []], []).
Proof.
  intros file_obj. apply (X4_no_trace_lines read_float read_int file_obj false).
  reflexivity.
Defined.

Lemma X5_conversion_failure_aborts_witness :
  ∃ e, collect_stats read_float read_int []
         ["(1.0) (1) a.cmake(1):  f()"; "(now) (1) a.cmake(2):  g()"] false =
       Raise e.
Proof.
  apply (X5_conversion_failure_aborts read_float read_int _ false
           "(now) (1) a.cmake(2):  g()"
           (mkMatch "now" (Some "1") "a.cmake" "2" "g()")).
  - apply elem_of_cons. right. apply elem_of_cons. by left.
  - vm_compute; reflexivity.
  - left. vm_compute; reflexivity.
Defined.

(** ** Events and lines *)

Lemma string_app_assoc (a b c : string) :
  ((a ++ b) ++ c)%string = (a ++ b ++ c)%string.
Proof.
  induction a as [|x a IH]; [done|]. rewrite !append_cons. by rewrite IH.
Qed.

Lemma string_app_nil_r (a : string) : (a ++ "")%string = a.
Proof. induction a as [|x a IH]; [done|]. rewrite append_cons. by rewrite IH. Qed.

Lemma extends_refl (ti : CmakeTraceInfo) : extends ti ti.
Proof. repeat split. exists "". by rewrite string_app_nil_r. Qed.

Lemma extends_extend_code (ti ti' : CmakeTraceInfo) (line : string) :
  extends (extend_code ti line) ti' → extends ti ti'.
Proof.
  intros (Hf & Hl & suffix & Hc). repeat split; [done..|].
  exists ("\n" ++ line ++ suffix)%string. rewrite Hc. simpl.
  by rewrite !string_app_assoc.
Qed.

Section EventOrder.

Variable py_float : string → option Qc.
Variable py_int : string → option Z.

Lemma parse_match_Ok (ignore_nesting : bool) (cn cn' : option Z)
    (m : line_match) (t : Qc) (ti : CmakeTraceInfo) :
  parse_match py_float py_int ignore_nesting cn m = Ok (cn', (t, ti)) →
  py_float (g_timestamp m) = Some t ∧
  ∃ line, py_int (g_line m) = Some line ∧
          ti = mkTraceInfo (g_file m) line (g_code m).
Proof.
  unfold parse_match.
  destruct (if ignore_nesting then _ else _) as [n|]; [simpl|done].
  destruct (py_float (g_timestamp m)) as [t'|]; [|done].
  destruct (py_int (g_line m)) as [l|]; [|done].
  intros [= _ <- <-]. eauto.
Qed.

Lemma parse_loop_events (ignore_nesting : bool) (file_obj : list string)
    (cn : option Z) (cur : option (Qc * CmakeTraceInfo)) :
  raised (parse_loop py_float py_int ignore_nesting file_obj cn cur) = None →
  ∃ first evs,
    yielded (parse_loop py_float py_int ignore_nesting file_obj cn cur) =
      first ++ evs ∧
    Forall2 (event_of_line py_float py_int) (matched_lines file_obj) evs ∧
    match cur with
    | None => first = []
    | Some (t, ti) => ∃ ti', first = [(cn, t, ti')] ∧ extends ti ti'
    end.
Proof.
  revert cn cur. unfold matched_lines.
  induction file_obj as [|line file_obj IH]; intros cn cur Hr.
  - simpl. rewrite yielded_yield. simpl. rewrite app_nil_r.
    destruct cur as [[t ti]|]; simpl.
    + exists [(cn, t, ti)], []. split; [done|]. split; [constructor|].
      exists ti. split; [done|apply extends_refl].
    + exists [], []. split; [done|]. split; [constructor|done].
  - cbn [parse_loop omap list_omap] in *.
    destruct (matcher_match (rstrip line)) as [m|] eqn:Hm.
    + rewrite raised_yield in Hr. rewrite yielded_yield.
      destruct (parse_match py_float py_int ignore_nesting cn m)
        as [[cn' [t' ti_m]]|e] eqn:Hpm; [|done].
      destruct (IH cn' (Some (t', ti_m)) Hr)
        as (first & evs & Hy & HF & ti' & -> & Hext).
      apply parse_match_Ok in Hpm as (Ht & l & Hl & ->).
      exists (option_list (pending_event cn cur)), ((cn', t', ti') :: evs).
      split; [by rewrite Hy|]. split.
      * constructor; [|done]. split; [done|]. by exists l.
      * destruct cur as [[t ti]|]; simpl; [|done].
        exists ti. split; [done|apply extends_refl].
    + destruct cur as [[t ti]|].
      * destruct (match_parens (cmake_code_line ti)).
        -- by apply (IH cn (Some (t, ti))).
        -- destruct (IH cn (Some (t, extend_code ti (rstrip line))) Hr)
             as (first & evs & Hy & HF & ti' & -> & Hext).
           exists [(cn, t, ti')], evs. split; [done|]. split; [done|].
           exists ti'. split; [done|]. by eapply extends_extend_code.
      * by apply (IH cn None).
Qed.

(** X6. When no conversion fails, the events come in the order of the
    matched lines, one for each: an event has the time stamp, the file
    and the line number of its line, and its code is the code of the line,
    possibly followed by continuation text. Lines that do not match never
    add or reorder events. *)
Theorem X6_events_follow_lines (file_obj : list string) (ignore_nesting : bool) :
  raised (parse_cmake_log py_float py_int file_obj ignore_nesting) = None →
  Forall2 (event_of_line py_float py_int) (matched_lines file_obj)
    (yielded (parse_cmake_log py_float py_int file_obj ignore_nesting)).
Proof.
  intros Hr. destruct (parse_loop_events _ _ _ _ Hr) as (first & evs & Hy & HF & ->).
  unfold parse_cmake_log. by rewrite Hy.
Qed.

End EventOrder.

Lemma X6_events_follow_lines_witness :
  Forall2 (event_of_line read_float read_int) (matched_lines sample_trace)
    (yielded (parse_cmake_log read_float read_int sample_trace false)).
Proof.
  apply (X6_events_follow_lines read_float read_int sample_trace false).
  vm_compute; reflexivity.
Defined.

(** ** Statements on one line *)

Section Balanced.

Variable py_float : string → option Qc.
Variable py_int : string → option Z.

Lemma parse_loop_balanced (ignore_nesting : bool) (file_obj : list string)
    (cn : option Z) (cur : option (Qc * CmakeTraceInfo)) :
  (∀ m, m ∈ matched_lines file_obj → match_parens (g_code m) = true) →
  (∀ t ti, cur = Some (t, ti) → match_parens (cmake_code_line ti) = true) →
  raised (parse_loop py_float py_int ignore_nesting file_obj cn cur) = None →
  (λ ev : event, cmake_code_line (site ev)) <$>
    yielded (parse_loop py_float py_int ignore_nesting file_obj cn cur) =
    (option_list (cmake_code_line ∘ snd <$> cur)) ++
    (g_code <$> matched_lines file_obj) ∧
  ignored (parse_loop py_float py_int ignore_nesting file_obj cn cur) =
    (λ line, ("Ignored: " ++ line)%string) <$> unmatched_lines file_obj.
Proof.
  revert cn cur. unfold matched_lines, unmatched_lines.
  induction file_obj as [|line file_obj IH]; intros cn cur Hall Hcur Hr.
  - simpl. rewrite yielded_yield. simpl.
    destruct cur as [[t ti]|]; by simpl.
  - cbn [parse_loop omap list_omap] in *.
    destruct (matcher_match (rstrip line)) as [m|] eqn:Hm.
    + rewrite raised_yield in Hr. rewrite yielded_yield.
      destruct (parse_match py_float py_int ignore_nesting cn m)
        as [[cn' [t' ti_m]]|e] eqn:Hpm; [|done].
      apply parse_match_Ok in Hpm as (_ & l & _ & ->).
      destruct (IH cn' (Some (t', mkTraceInfo (g_file m) l (g_code m))))
        as [Hy Hi]; [| |done|].
      * intros m' Hm'. apply Hall, elem_of_cons. by right.
      * intros t ti [= <- <-]. apply Hall, elem_of_cons. by left.
      * rewrite fmap_app, Hy. split; [|by destruct cur as [[? ?]|]].
        by destruct cur as [[t ti]|].
    + destruct cur as [[t ti]|].
      * rewrite (Hcur t ti eq_refl) in *. simpl.
        destruct (IH cn (Some (t, ti)) Hall Hcur Hr) as [Hy Hi].
        by rewrite Hy, Hi.
      * simpl. destruct (IH cn None Hall Hcur Hr) as [Hy Hi].
        by rewrite Hy, Hi.
Qed.

(** X7. When the code of every matched line has as many opening as
    closing parentheses, no line is taken for a continuation: the codes
    of the events are the codes of the matched lines, and every other
    line is reported as ignored, in the order of the trace. *)
Theorem X7_balanced_statements (file_obj : list string) (ignore_nesting : bool) :
  (∀ m, m ∈ matched_lines file_obj → match_parens (g_code m) = true) →
  raised (parse_cmake_log py_float py_int file_obj ignore_nesting) = None →
  (λ ev : event, cmake_code_line (site ev)) <$>
    yielded (parse_cmake_log py_float py_int file_obj ignore_nesting) =
    g_code <$> matched_lines file_obj ∧
  ignored (parse_cmake_log py_float py_int file_obj ignore_nesting) =
    (λ line, ("Ignored: " ++ line)%string) <$> unmatched_lines file_obj.
Proof.
  intros Hall Hr. by apply (parse_loop_balanced ignore_nesting file_obj None None).
Qed.

End Balanced.

Lemma X7_balanced_statements_witness :
  let file_obj := [ "(1.0) (1) a.cmake(1):  f()"; "-- Configuring";
                    "(2.0) (1) a.cmake(2):  g(x)"; "y)" ] in
  (λ ev : event, cmake_code_line (site ev)) <$>
    yielded (parse_cmake_log read_float read_int file_obj false) =
    g_code <$> matched_lines file_obj ∧
  ignored (parse_cmake_log read_float read_int file_obj false) =
    (λ line, ("Ignored: " ++ line)%string) <$> unmatched_lines file_obj.
Proof.
  intros file_obj.
  apply (X7_balanced_statements read_float read_int file_obj false).
  - intros m Hm. vm_compute in Hm.
    repeat (apply elem_of_cons in Hm as [->|Hm]; [reflexivity|]).
    by apply elem_of_nil in Hm.
  - vm_compute; reflexivity.
Defined.

(** ** The stored forest *)

Lemma store_trace_mirrors (h : heap) (fuel : nat) (i : ref) :
  wf h → i < length h → length h - i ≤ fuel →
  ∃ t, store_trace fuel h i = Ok t ∧ mirrors h i t.
Proof.
  intros Hwf. revert i. induction fuel as [|fuel IH]; intros i Hi Hfuel; [lia|].
  apply lookup_lt_is_Some in Hi as [n Hn]. simpl. unfold deref. rewrite Hn. simpl.
  destruct (result_mapM_ok (store_trace fuel h) (mirrors h) (subtraces n))
    as (ts & Hts & HF).
  { intros k Hk. apply (child_gt h Hwf i k n Hn) in Hk. apply IH; lia. }
  rewrite Hts. simpl. eexists. split; [done|]. by constructor.
Qed.








Lemma build_store_traces (events : list event) (h : heap) (traces : list ref) :
  build events = Ok (h, traces) →
  ∃ forest, store_traces h traces = Ok forest ∧ Forall2 (mirrors h) traces forest.
Proof.
  intros Hb. destruct (build_ok events h traces Hb) as [p Hok].
  destruct Hok as [Hwf _ (r & Hr & ->) _ _ _ _ _ _ _ _].
  apply result_mapM_ok. intros k Hk.
  apply (child_gt h Hwf 0 k r Hr) in Hk. apply store_trace_mirrors; try done; lia.
Qed.

(** X8. After a successful collection [store_trace] copies every
    top-level entry with everything below it, call sites, durations and
    the order of the children included, and never fails. *)
Theorem X8_store_trace_copies (events : list event) (h : heap)
    (traces : list ref) :
  build events = Ok (h, traces) →
  ∃ forest, store_traces h traces = Ok forest ∧ Forall2 (mirrors h) traces forest.
Proof.
  apply build_store_traces.
Qed.

Lemma X8_store_trace_copies_witness :
  ∃ h traces, build sample_events = Ok (h, traces) ∧
    ∃ forest, store_traces h traces = Ok forest ∧
              Forall2 (mirrors h) traces forest.
Proof.
  eexists _, _. split; [vm_compute; reflexivity|].
  apply (X8_store_trace_copies sample_events). vm_compute; reflexivity.
Defined.




(** ** The report in sort mode *)

Lemma insert_by_duration_perm (x : StoredTrace) (l : list StoredTrace) :
  insert_by_duration x l ≡ₚ x :: l.
Proof.
  induction l as [|y l IH]; simpl; [done|].
  case_bool_decide; [|done]. rewrite IH. apply Permutation_swap.
Qed.

Lemma sorted_by_duration_perm (l : list StoredTrace) :
  sorted_by_duration l ≡ₚ l.
Proof.
  induction l as [|x l IH]; simpl; [done|].
  change (insert_by_duration x (sorted_by_duration l) ≡ₚ x :: l).
  by rewrite insert_by_duration_perm, IH.
Qed.

Lemma insert_by_duration_sorted (x : StoredTrace) (l : list StoredTrace) :
  StronglySorted (λ a b, (s_duration b ≤ s_duration a)%Qc) l →
  StronglySorted (λ a b, (s_duration b ≤ s_duration a)%Qc)
    (insert_by_duration x l).
Proof.
  induction 1 as [|y l Hs IH Hall]; simpl.
  - repeat constructor.
  - case_bool_decide as Hlt.
    + constructor; [done|].
      rewrite insert_by_duration_perm. constructor; [|done].
      by apply Qclt_le_weak.
    + apply Qcnot_lt_le in Hlt. constructor; [by constructor|].
      constructor; [done|].
      eapply Forall_impl; [done|]. intros z Hz. simpl in Hz. by etrans.
Qed.

Lemma sorted_by_duration_sorted (l : list StoredTrace) :
  StronglySorted (λ a b, (s_duration b ≤ s_duration a)%Qc)
    (sorted_by_duration l).
Proof.
  induction l as [|x l IH]; [constructor|].
  by apply insert_by_duration_sorted.
Qed.

(** X10. In sort mode the siblings are printed by decreasing duration and
    none is lost by the reordering; with a positive whole duration, once
    a sibling falls below the threshold every sibling after it is below
    the threshold too, so that ending the loop there skips only siblings
    that a filter would have dropped. *)
Theorem X10_sorted_cut_is_a_filter (args : arguments) (whole_duration : Qc)
    (traces pre rest : list StoredTrace) (x : StoredTrace) :
  sort_traces args = true → (0 < whole_duration)%Qc →
  ordered_traces args traces = pre ++ x :: rest →
  below_threshold args whole_duration x = Ok true →
  ordered_traces args traces ≡ₚ traces ∧
  (∀ y, y ∈ pre → (s_duration x ≤ s_duration y)%Qc) ∧
  (∀ y, y ∈ rest → below_threshold args whole_duration y = Ok true).
Proof.
  intros Hsort Hpos Hord Hx. unfold ordered_traces in *. rewrite Hsort in *.
  split; [apply sorted_by_duration_perm|].
  pose proof (sorted_by_duration_sorted traces) as Hs. rewrite Hord in Hs.
  split.
  - intros y Hy.
    apply (StronglySorted_app_1_elem_of _ _ _ y x Hs); [done|].
    apply elem_of_cons. by left.
  - apply StronglySorted_app_1_r in Hs.
    apply StronglySorted_cons in Hs as [Hall _].
    intros y Hy. rewrite Forall_forall in Hall. specialize (Hall y Hy).
    unfold below_threshold, py_div in *.
    rewrite bool_decide_eq_false_2 in *
      by (intros Hz; rewrite Hz in Hpos; by apply Qclt_not_eq in Hpos).
    simpl in *. injection Hx as Hx. f_equal.
    apply bool_decide_eq_true in Hx. apply bool_decide_eq_true.
    eapply Qcle_lt_trans; [|done]. unfold Qcdiv.
    apply Qcmult_le_mono_nonneg_r; [|done].
    apply Qclt_le_weak. by apply Qcinv_pos.
Qed.

Lemma X10_sorted_cut_is_a_filter_witness :
  let args := mkArgs (Q2Qc (1 # 2)) 0 None true false in
  let X := mkStored None (Q2Qc (3 # 10)) [] in
  let Y := mkStored None (Q2Qc (6 # 10)) [] in
  let Z := mkStored None (Q2Qc (1 # 10)) [] in
  ordered_traces args [X; Y; Z] ≡ₚ [X; Y; Z] ∧
  (∀ y, y ∈ [Y] → (s_duration X ≤ s_duration y)%Qc) ∧
  (∀ y, y ∈ [Z] → below_threshold args (Q2Qc 1) y = Ok true).
Proof.
  intros args X Y Z.
  apply (X10_sorted_cut_is_a_filter args (Q2Qc 1) [X; Y; Z] [Y] [Z] X);
    reflexivity.
Defined.

(** ** The depth rules *)

Lemma ancestors_appended_old (h : heap) (p : ref) (d : Qc)
    (ti : CmakeTraceInfo) (i : ref) :
  wf h → p < length h → i < length h →
  ancestors (appended h p d ti) i = ancestors h i.
Proof.
  intros Hwf Hp Hi. apply ancestors_agree.
  - apply wf_decreasing. by apply appended_wf.
  - intros j Hj. assert (Hlt : j < length h) by lia.
    apply lookup_lt_is_Some in Hlt as [n Hn].
    by rewrite (appended_old h p d ti j n Hn), Hn.
Qed.

Lemma ancestors_appended_new (h : heap) (p : ref) (d : Qc) (ti : CmakeTraceInfo) :
  wf h → p < length h →
  ancestors (appended h p d ti) (length h) = length h :: ancestors h p.
Proof.
  intros Hwf Hp.
  rewrite (ancestors_unfold _ (wf_decreasing _ (appended_wf h p d ti Hwf Hp))
             _ _ (appended_new h p d ti Hp)).
  simpl. by rewrite ancestors_appended_old.
Qed.

Lemma ancestors_lookup_drop (h : heap) (p q : ref) (j : nat) :
  wf h → ancestors h p !! j = Some q → ancestors h q = drop j (ancestors h p).
Proof.
  intros Hwf. pose proof (wf_decreasing h Hwf) as Hdec.
  revert p. induction j as [|j IH]; intros p Hq.
  - destruct (h !! p) as [n|] eqn:Hn.
    + rewrite (ancestors_unfold h Hdec p n Hn) in Hq. by injection Hq as <-.
    + by rewrite ancestors_dangling in Hq.
  - destruct (h !! p) as [n|] eqn:Hn.
    + rewrite (ancestors_unfold h Hdec p n Hn) in Hq |- *. simpl in *.
      destruct (parent_trace n) as [par|]; [by apply IH|done].
    + by rewrite ancestors_dangling in Hq.
Qed.

Lemma level_appended_old (h : heap) (p : ref) (d : Qc) (ti : CmakeTraceInfo)
    (i : ref) :
  wf h → p < length h → i < length h →
  level (appended h p d ti) i = level h i.
Proof. intros. unfold level. by rewrite ancestors_appended_old. Qed.

Lemma level_appended_new (h : heap) (p : ref) (d : Qc) (ti : CmakeTraceInfo) :
  wf h → p < length h →
  level (appended h p d ti) (length h) = (level h p + 1)%Z.
Proof.
  intros. unfold level. rewrite ancestors_appended_new by done. simpl. lia.
Qed.

(** The parent chosen by the depth rules sits one level above the depth
    of the event, provided the cursor sits one level above the depth of
    the event before. *)
Lemma attach_point_level (h : heap) (p : ref) (cn pn : Z) (ti : CmakeTraceInfo) :
  wf h → p < length h →
  (1 ≤ cn)%Z → (cn ≤ pn + 1)%Z → (level h p + 1 = pn)%Z →
  (cn = pn + 1 → ∃ n, h !! p = Some n ∧ subtraces n ≠ [])%Z →
  ∃ p', attach_point h p cn pn ti = Ok p' ∧ (level h p' + 1 = cn)%Z.
Proof.
  intros Hwf Hp Hcn Hle Hlev Hkid. pose proof (wf_decreasing h Hwf) as Hdec.
  unfold attach_point. rewrite (proj2 (Z.eqb_neq cn 0)) by lia.
  destruct (Z.eqb_spec (cn - pn) 0) as [H0|H0].
  { exists p. split; [done|lia]. }
  destruct (Z.ltb_spec (cn - pn) 0) as [Hneg|Hpos].
  { rewrite (ascend_lookup h Hwf) by done.
    unfold level in *.
    destruct (ancestors h p !! Z.to_nat (- (cn - pn))) as [q|] eqn:Hq.
    - exists q. split; [done|].
      rewrite (ancestors_lookup_drop h p q _ Hwf Hq), length_drop. lia.
    - apply lookup_ge_None in Hq. lia. }
  rewrite (proj2 (Z.eqb_eq (cn - pn) 1)) by lia.
  destruct Hkid as (n & Hn & Hkids); [lia|].
  unfold deref. rewrite Hn. simpl.
  destruct (last (subtraces n)) as [c|] eqn:Hc; [|by apply last_None in Hc].
  exists c. split; [done|].
  apply last_Some_elem_of in Hc.
  pose proof (child_parent h Hwf p c n Hn Hc) as Hpar.
  unfold parent_of in Hpar. destruct (h !! c) as [m|] eqn:Hm; [|done].
  simpl in Hpar. unfold level in *.
  rewrite (ancestors_unfold h Hdec c m Hm), Hpar. simpl. lia.
Qed.

Lemma well_nested_snoc (prev d : Z) (depths : list Z) :
  well_nested prev (depths ++ [d]) =
    well_nested prev depths &&
    ((1 <=? d)%Z && (d <=? default prev (last depths) + 1)%Z).
Proof.
  revert prev. induction depths as [|x depths IH]; intros prev; simpl.
  - by rewrite andb_true_r.
  - rewrite IH, last_cons. destruct (last depths); simpl; by rewrite !andb_assoc.
Qed.

Lemma builder_heap_length (events : list event) (s : collect_state) :
  builder_state events = Ok s →
  length (st_heap s) = Nat.max 1 (length events) ∧
  (previous s = None ↔ events = []).
Proof.
  intros Hs. destruct (builder_state_ok _ _ Hs) as [Hok Hprev].
  pose proof (ok_own_length _ _ _ _ _ Hok) as Hlen. simpl in Hlen.
  rewrite gaps_length in Hlen. rewrite Hprev. unfold pending_after.
  destruct events as [|e0 events]; [done|]. simpl in Hlen. split; [simpl; lia|].
  destruct (last (e0 :: events)) eqn:Hl; [done|]. by apply last_None in Hl.
Qed.


Lemma builder_state_well_nested (events : list event) :
  well_nested 0 (depth_of <$> events) = true →
  ∃ s, builder_state events = Ok s ∧ follows_depths events s.
Proof.
  induction events as [|ev events IH] using rev_ind; intros Hwn.
  { exists init_state. split; [reflexivity|].
    unfold follows_depths. simpl. repeat split; try done. }
  rewrite fmap_app in Hwn. change (depth_of <$> [ev]) with [depth_of ev] in Hwn.
  rewrite well_nested_snoc in Hwn.
  apply andb_prop in Hwn as [Hwn Hd]. apply andb_prop in Hd as [Hd1 Hd2].
  apply Z.leb_le in Hd1, Hd2.
  destruct (IH Hwn) as (s & Hs & Hb & Hh & Hc & Hdiff & He & Hf).
  destruct (builder_state_ok _ _ Hs) as [Hok _].
  destruct (builder_heap_length _ _ Hs) as [Hlen Hprev].
  rewrite builder_state_snoc, Hs. simpl.
  destruct ev as [[cn tv] ti]. change (depth_of (cn, tv, ti)) with (default 0%Z cn) in *.
  destruct cn as [c|]; simpl in Hd1, Hd2; [|lia].
  destruct s as [h traces p pnest prev pdiff]. simpl in *.
  destruct prev as [[pt pti]|].
  - assert (Hne : events ≠ []) by (intros E; by apply Hprev in E).
    assert (Hlen' : length h = length events)
      by (destruct events; [done|simpl in *; lia]).
    assert (Hlast : ∃ e, last events = Some e ∧ pnest = depth_of e).
    { destruct (last events) as [e|] eqn:Hl; [|by apply last_None in Hl].
      exists e. split; [done|]. by rewrite Hb, fmap_last, Hl. }
    destruct Hlast as (e & Hl & Hpn).
    rewrite fmap_last, Hl in Hd2. simpl in Hd2.
    unfold state_ok in Hok. simpl in Hok.
    pose proof (ok_wf _ _ _ _ _ Hok) as Hwf.
    pose proof (ok_cursor _ _ _ _ _ Hok) as Hp.
    destruct (attach_point_level h p pnest (pnest - pdiff) pti)
      as (p' & Hp' & Hlev); [done|done|lia|lia|lia| |].
    { intros Hk. apply (ok_child _ _ _ _ _ Hok).
      destruct (decide (length h = 1)) as [E|E]; [apply He in E|]; lia. }
    pose proof (attach_point_valid h Hwf p p' _ _ _ Hp Hp') as Hv.
    unfold collect_step. simpl. rewrite (update_traces_eq h Hwf) by done.
    rewrite Hp'. simpl.
    eexists. split; [reflexivity|]. unfold follows_depths. simpl.
    split; [by rewrite fmap_last, last_snoc|].
    split; [done|].
    split; [rewrite level_appended_old by done; lia|].
    split; [lia|].
    split; [rewrite appended_length by done; lia|].
    intros i ev' Hi Hlt. rewrite length_app in Hlt. simpl in Hlt.
    rewrite lookup_app_l in Hi by lia.
    destruct (decide (S i < length events)) as [Hs'|Hs'].
    + rewrite level_appended_old by (done || lia). by apply Hf.
    + assert (Hi' : S i = length h) by lia. rewrite Hi'.
      rewrite level_appended_new by done.
      rewrite last_lookup in Hl.
      replace (pred (length events)) with i in Hl by lia.
      rewrite Hi in Hl. injection Hl as ->. lia.
  - assert (events = []) as -> by by apply Hprev.
    simpl in *. unfold collect_step. simpl.
    eexists. split; [reflexivity|]. unfold follows_depths. simpl.
    repeat split; try done; try lia.
Qed.

(** X11 ([_collect_stats], [_update_traces]): on a stream whose depths
    start at 1, never fall below 1 and never grow by more than one from
    an event to the next, the builder does not abort, allocates one object
    per event, and puts every event that has a successor at the level of
    the tree that its depth names. The last event is appended below the
    cursor as it stands: it lands at the depth of the event before it,
    whatever its own depth, and at level 1 when it is the only event. *)
Theorem X11_depths_become_levels (events : list event) :
  well_nested 0 (depth_of <$> events) = true →
  ∃ h traces, build events = Ok (h, traces) ∧
    length h = S (length events) ∧
    (∀ i ev, events !! i = Some ev → S i < length events →
             level h (S i) = depth_of ev) ∧
    (∀ front e1 e2, events = front ++ [e1; e2] →
                    level h (length events) = depth_of e1) ∧
    (∀ e, events = [e] → level h 1 = 1%Z).
Proof.
  intros Hwn.
  destruct (builder_state_well_nested events Hwn)
    as (s & Hs & Hb & Hh & Hc & Hdiff & He & Hf).
  destruct (builder_state_ok _ _ Hs) as [Hok _].
  destruct (builder_heap_length _ _ Hs) as [Hlen Hprev].
  rewrite build_eq, Hs. simpl.
  destruct s as [h traces p pnest prev pdiff]. simpl in *.
  unfold state_ok in Hok. simpl in Hok.
  pose proof (ok_wf _ _ _ _ _ Hok) as Hwf.
  pose proof (ok_cursor _ _ _ _ _ Hok) as Hp.
  unfold collect_finish. simpl. destruct prev as [[pt pti]|].
  - assert (Hne : events ≠ []) by (intros E; by apply Hprev in E).
    assert (Hlen' : length h = length events)
      by (destruct events; [done|simpl in *; lia]).
    rewrite (update_traces_eq h Hwf) by done.
    unfold attach_point. rewrite (proj2 (Z.eqb_neq pnest 0)) by lia.
    rewrite Z.sub_diag. simpl.
    do 2 eexists. split; [reflexivity|].
    split; [rewrite appended_length by done; lia|].
    split; [|split].
    + intros i ev Hi Hlt. rewrite level_appended_old by (done || lia).
      by apply Hf.
    + intros front e1 e2 ->. rewrite <- Hlen', level_appended_new by done.
      destruct (builder_state_pending _ _ _ _ Hs) as (_ & Hn & Hd & _).
      simpl in Hn, Hd. unfold depth_of in Hn, Hd |- *.
      destruct (nesting e2) as [c|]; simpl in Hn; lia.
    + intros e ->. simpl in *. rewrite <- Hlen'.
      rewrite level_appended_new by done. rewrite He in Hc by done.
      apply andb_prop in Hwn as [Hwn _]. apply andb_prop in Hwn as [H1 H2].
      apply Z.leb_le in H1, H2. lia.
  - assert (events = []) as -> by by apply Hprev.
    do 2 eexists. split; [reflexivity|]. simpl in *.
    split; [done|]. split; [intros; lia|].
    split; [by intros [|? ?] ? ? ?|done].
Qed.

Lemma X11_depths_become_levels_witness :
  well_nested 0 (depth_of <$> sample_events) = true ∧
  ∃ h traces, build sample_events = Ok (h, traces) ∧
    length h = S (length sample_events) ∧
    (∀ i ev, sample_events !! i = Some ev → S i < length sample_events →
             level h (S i) = depth_of ev) ∧
    (∀ front e1 e2, sample_events = front ++ [e1; e2] →
                    level h (length sample_events) = depth_of e1) ∧
    (∀ e, sample_events = [e] → level h 1 = 1%Z).
Proof.
  split; [vm_compute; reflexivity|].
  apply (X11_depths_become_levels sample_events). vm_compute; reflexivity.
Defined.

(** ** The report: formatters, filters and order *)

Lemma StoredTrace_forall_ind (P : StoredTrace → Prop) :
  (∀ ti d subs, Forall P subs → P (mkStored ti d subs)) → ∀ t, P t.
Proof.
  intros H. fix IH 1. intros [ti d subs]. apply H.
  induction subs as [|t subs IHsubs]; constructor; [apply IH|apply IHsubs].
Qed.

Lemma height_eq (ti : option CmakeTraceInfo) (d : Qc) (subs : list StoredTrace) :
  height (mkStored ti d subs) = S (forest_height subs).
Proof. reflexivity. Qed.

Lemma forest_height_elem (t : StoredTrace) (l : list StoredTrace) :
  t ∈ l → height t ≤ forest_height l.
Proof.
  induction l as [|x l IH]; intros Hin; [by apply elem_of_nil in Hin|].
  apply elem_of_cons in Hin as [->|Hin]; simpl; [lia|].
  specialize (IH Hin). lia.
Qed.

Lemma subtraces_height (t : StoredTrace) :
  height t = S (forest_height (s_subtraces t)).
Proof. by destruct t. Qed.

Lemma preorder_eq (indent : nat) (t : StoredTrace) :
  preorder indent t = (indent, t) :: preorder_forest (S indent) (s_subtraces t).
Proof. by destruct t. Qed.

Lemma preorder_forest_elem (indent : nat) (l : list StoredTrace)
    (it : nat * StoredTrace) :
  it ∈ preorder_forest indent l ↔ ∃ t, t ∈ l ∧ it ∈ preorder indent t.
Proof.
  induction l as [|x l IH]; simpl.
  - split; [by intros ?%elem_of_nil|]. intros (t & Ht & _).
    by apply elem_of_nil in Ht.
  - rewrite elem_of_app, IH. split.
    + intros [Hx|(t & Ht & Hit)].
      * exists x. split; [apply elem_of_cons; by left|done].
      * exists t. split; [apply elem_of_cons; by right|done].
    + intros (t & Ht & Hit). apply elem_of_cons in Ht as [->|Ht];
        [by left|right; by exists t].
Qed.

Lemma to_string_adjusted_raises (self : option CmakeTraceInfo)
    (width : option Z) (nesting : string) :
  to_string_adjusted self width nesting = Raise TypeError.
Proof. by destruct self. Qed.

Section ReportLines.

Variable args : arguments.
Variable ti_to_string : option CmakeTraceInfo → option Z → string → result string.
Variable whole_duration : Qc.

Lemma print_for_ext (rec1 rec2 : list StoredTrace → nat → printed)
    (indent : nat) (l : list StoredTrace) :
  (∀ t, t ∈ l → rec1 (s_subtraces t) (S indent) = rec2 (s_subtraces t) (S indent)) →
  print_for args ti_to_string whole_duration rec1 indent l =
  print_for args ti_to_string whole_duration rec2 indent l.
Proof.
  induction l as [|t l IH]; intros Hrec; simpl; [done|].
  rewrite (Hrec t) by (apply elem_of_cons; by left).
  rewrite IH; [done|]. intros t' Ht'. apply Hrec, elem_of_cons. by right.
Qed.

Lemma ordered_traces_elem (t : StoredTrace) (traces : list StoredTrace) :
  t ∈ ordered_traces args traces ↔ t ∈ traces.
Proof.
  unfold ordered_traces. destruct (sort_traces args); [|done].
  by rewrite sorted_by_duration_perm.
Qed.

(** The recursion of the printer is as deep as the forest is high: any
    fuel above the height gives the same report. *)
Lemma print_traces_loop_fuel (n m : nat) (traces : list StoredTrace)
    (indent : nat) :
  forest_height traces < n → forest_height traces < m →
  print_traces_loop args ti_to_string whole_duration n traces indent =
  print_traces_loop args ti_to_string whole_duration m traces indent.
Proof.
  revert m traces indent.
  induction n as [|n IH]; intros m traces indent Hn Hm; [lia|].
  destruct m as [|m]; [lia|]. simpl. apply print_for_ext.
  intros t Ht. apply (proj1 (ordered_traces_elem _ _)) in Ht.
  apply forest_height_elem in Ht.
  rewrite subtraces_height in Ht. apply IH; lia.
Qed.

(** Where a printed line comes from. *)
Lemma print_for_elem (rec : list StoredTrace → nat → printed) (indent : nat)
    (l : list StoredTrace) (line : report_line) :
  line ∈ (print_for args ti_to_string whole_duration rec indent l).1 →
  depth_exceeded args indent = false ∧
  ∃ t, t ∈ l ∧
    ((∃ ti_str,
        below_threshold args whole_duration t = Ok false ∧
        ti_to_string (s_trace_info t) (trace_info_width args)
          (pretty (indent + 1)) = Ok ti_str ∧
        line = mkLine (indent * indent_step) ti_str (s_duration t)
                 (s_duration t / whole_duration * Q2Qc 100)%Qc) ∨
     line ∈ (rec (s_subtraces t) (S indent)).1).
Proof.
  induction l as [|t l IH]; simpl; [by intros ?%elem_of_nil|].
  destruct (depth_exceeded args indent) eqn:Hd; [by intros ?%elem_of_nil|].
  destruct (below_threshold args whole_duration t) as [[|]|e] eqn:Hb;
    [by intros ?%elem_of_nil| |by intros ?%elem_of_nil].
  destruct (ti_to_string _ _ _) as [ti_str|e] eqn:Hs;
    [|by intros ?%elem_of_nil].
  unfold then_print at 1. simpl. intros Hin. split; [done|].
  apply elem_of_cons in Hin as [->|Hin].
  { exists t. split; [apply elem_of_cons; by left|]. left. by exists ti_str. }
  unfold then_print in Hin.
  destruct ((rec (s_subtraces t) (S indent)).2) eqn:Hr; simpl in Hin.
  { exists t. split; [apply elem_of_cons; by left|]. by right. }
  apply elem_of_app in Hin as [Hin|Hin].
  { exists t. split; [apply elem_of_cons; by left|]. by right. }
  destruct (one args && (indent =? 0)); [by apply elem_of_nil in Hin|].
  destruct (IH Hin) as (_ & t' & Ht' & Hline).
  exists t'. split; [apply elem_of_cons; by right|done].
Qed.

Lemma print_traces_loop_elem (fuel : nat) (traces : list StoredTrace)
    (indent : nat) (line : report_line) :
  line ∈ (print_traces_loop args ti_to_string whole_duration fuel traces indent).1 →
  ∃ k t ti_str,
    (k, t) ∈ preorder_forest indent traces ∧
    depth_exceeded args k = false ∧
    below_threshold args whole_duration t = Ok false ∧
    ti_to_string (s_trace_info t) (trace_info_width args) (pretty (k + 1)) =
      Ok ti_str ∧
    line = mkLine (k * indent_step) ti_str (s_duration t)
             (s_duration t / whole_duration * Q2Qc 100)%Qc.
Proof.
  revert traces indent.
  induction fuel as [|fuel IH]; intros traces indent; simpl;
    [by intros ?%elem_of_nil|].
  intros Hin. apply print_for_elem in Hin as (Hd & t & Ht & Hline).
  apply (proj1 (ordered_traces_elem _ _)) in Ht.
  destruct Hline as [(ti_str & Hb & Hs & ->)|Hsub].
  - exists indent, t, ti_str. repeat split; try done.
    apply preorder_forest_elem. exists t. split; [done|].
    rewrite preorder_eq. apply elem_of_cons. by left.
  - destruct (IH _ _ Hsub) as (k & t' & ti_str & Hk & Hrest).
    exists k, t', ti_str. split; [|done].
    apply preorder_forest_elem. exists t. split; [done|].
    rewrite preorder_eq. apply elem_of_cons. by right.
Qed.

End ReportLines.

Lemma depth_exceeded_false (args : arguments) (k : nat) :
  depth_exceeded args k = false →
  (depth args = 0 ∨ Z.of_nat k + 1 ≤ depth args)%Z.
Proof.
  unfold depth_exceeded. intros Hd.
  apply andb_false_iff in Hd as [Hd|Hd].
  - left. apply negb_false_iff in Hd. by apply Z.eqb_eq in Hd.
  - right. rewrite Z.gtb_ltb in Hd. by apply Z.ltb_ge in Hd.
Qed.

Lemma below_threshold_false (args : arguments) (whole_duration : Qc)
    (t : StoredTrace) :
  below_threshold args whole_duration t = Ok false ↔
  whole_duration ≠ 0%Qc ∧ (threshold args ≤ s_duration t / whole_duration)%Qc.
Proof.
  unfold below_threshold, py_div. case_bool_decide as Hz; simpl.
  - split; [done|]. by intros [? _].
  - split.
    + intros [= Hlt]. apply bool_decide_eq_false in Hlt.
      split; [done|]. by apply Qcnot_lt_le.
    + intros [_ Hle]. f_equal. apply bool_decide_eq_false.
      by apply Qcle_not_lt.
Qed.

(** X12 ([to_string_adjusted], [_main], [_print_traces]): the formatter of
    the option [-w] takes [len] of the line number, an [int], and so
    raises [TypeError] on every call. A report with a trace info width
    never prints a line: it ends with [TypeError] at the first trace that
    passes the depth and the threshold test. *)
Theorem X12_width_option_never_prints (args : arguments)
    (all_traces : list StoredTrace) :
  trace_info_width args ≠ None →
  (report args all_traces).1 = [] ∧
  (∀ t rest,
     ordered_traces args all_traces = t :: rest →
     depth_exceeded args 0 = false →
     below_threshold args (whole_duration_of all_traces) t = Ok false →
     report args all_traces = ([], Some TypeError)).
Proof.
  intros Hw. unfold report, trace_info_to_string, print_traces.
  destruct (trace_info_width args) as [w|] eqn:Hwidth; [|done].
  cbn [print_traces_loop].
  destruct (ordered_traces args all_traces) as [|t l]; [by split|].
  cbn [print_for]. rewrite to_string_adjusted_raises. split.
  - destruct (depth_exceeded args 0); [done|].
    by destruct (below_threshold _ _ _) as [[|]|?].
  - intros t' rest [= <- <-] -> ->. done.
Qed.

Lemma X12_width_option_never_prints_witness :
  let args := mkArgs 0%Qc 0 (Some 40%Z) false false in
  let traces := [mkStored (Some (mkTraceInfo "a.cmake" 1 "f()")) (Q2Qc 1) []] in
  (report args traces).1 = [] ∧
  (∀ t rest,
     ordered_traces args traces = t :: rest →
     depth_exceeded args 0 = false →
     below_threshold args (whole_duration_of traces) t = Ok false →
     report args traces = ([], Some TypeError)).
Proof.
  intros args traces. by apply (X12_width_option_never_prints args traces).
Defined.

(** X13 ([_print_traces]): every line of a report is the line of a node
    of the forest, indented by two spaces per level and labelled with the
    level counted from 1, and that node passed both tests: its level does
    not exceed a non-zero maximum depth, and its share of the whole
    duration, which is not zero, is not below the threshold. *)
Theorem X13_printed_lines_pass_filters (args : arguments)
    (ti_to_string : option CmakeTraceInfo → option Z → string → result string)
    (all_traces : list StoredTrace) (whole_duration : Qc) (line : report_line) :
  line ∈ (print_traces args ti_to_string all_traces whole_duration).1 →
  ∃ k t ti_str,
    (k, t) ∈ preorder_forest 0 all_traces ∧
    line = mkLine (k * indent_step) ti_str (s_duration t)
             (s_duration t / whole_duration * Q2Qc 100)%Qc ∧
    ti_to_string (s_trace_info t) (trace_info_width args) (pretty (k + 1)) =
      Ok ti_str ∧
    (depth args = 0 ∨ Z.of_nat k + 1 ≤ depth args)%Z ∧
    whole_duration ≠ 0%Qc ∧
    (threshold args ≤ s_duration t / whole_duration)%Qc.
Proof.
  intros Hin. unfold print_traces in Hin.
  apply print_traces_loop_elem in Hin
    as (k & t & ti_str & Hk & Hd & Hb & Hs & ->).
  apply below_threshold_false in Hb as [Hz Hle].
  exists k, t, ti_str. repeat split; try done.
  by apply depth_exceeded_false.
Qed.

(** X14 ([_print_traces]): with the option [-1] the report is the report
    of the first top-level trace alone, the most expensive one in sort
    mode, with everything below it; the percentages still refer to the
    whole duration of all traces. *)
Theorem X14_one_prints_first_tree (args : arguments)
    (ti_to_string : option CmakeTraceInfo → option Z → string → result string)
    (all_traces : list StoredTrace) (whole_duration : Qc)
    (t : StoredTrace) (rest : list StoredTrace) :
  one args = true → ordered_traces args all_traces = t :: rest →
  print_traces args ti_to_string all_traces whole_duration =
  print_traces args ti_to_string [t] whole_duration.
Proof.
  intros Hone Hord. unfold print_traces. cbn [print_traces_loop].
  assert (Ht : t ∈ all_traces).
  { apply (ordered_traces_elem args). rewrite Hord. apply elem_of_cons. by left. }
  apply forest_height_elem in Ht. rewrite subtraces_height in Ht.
  assert (Hsingle : ordered_traces args [t] = [t])
    by (unfold ordered_traces; by destruct (sort_traces args)).
  rewrite Hord, Hsingle. cbn [print_for]. rewrite Hone. simpl.
  rewrite (print_traces_loop_fuel args ti_to_string whole_duration
             (forest_height all_traces) (height t `max` 0)
             (s_subtraces t) 1); [done|lia|].
  rewrite subtraces_height. lia.
Qed.

Lemma X13_printed_lines_pass_filters_witness :
  let args := mkArgs (Q2Qc (1 # 2)) 0 None false false in
  let A := mkStored (Some (mkTraceInfo "a.cmake" 1 "f()")) (Q2Qc (6 # 10)) [] in
  let B := mkStored (Some (mkTraceInfo "a.cmake" 2 "g()")) (Q2Qc (4 # 10)) [] in
  ∃ line,
    line ∈ (print_traces args to_string_plain [A; B] (Q2Qc 1)).1 ∧
    ∃ k t ti_str,
      (k, t) ∈ preorder_forest 0 [A; B] ∧
      line = mkLine (k * indent_step) ti_str (s_duration t)
               (s_duration t / Q2Qc 1 * Q2Qc 100)%Qc ∧
      to_string_plain (s_trace_info t) (trace_info_width args) (pretty (k + 1)) =
        Ok ti_str ∧
      (depth args = 0 ∨ Z.of_nat k + 1 ≤ depth args)%Z ∧
      Q2Qc 1 ≠ 0%Qc ∧
      (threshold args ≤ s_duration t / Q2Qc 1)%Qc.
Proof.
  intros args A B. eexists.
  refine ((λ H, conj H (X13_printed_lines_pass_filters args to_string_plain
                          [A; B] (Q2Qc 1) _ H)) _).
  vm_compute. apply elem_of_cons. left. reflexivity.
Defined.

Lemma X14_one_prints_first_tree_witness :
  let args := mkArgs 0%Qc 0 None true true in
  let X := mkStored (Some (mkTraceInfo "a.cmake" 1 "f()")) (Q2Qc (3 # 10)) [] in
  let Y := mkStored (Some (mkTraceInfo "a.cmake" 2 "g()")) (Q2Qc (6 # 10)) [X] in
  ordered_traces args [X; Y] = [Y; X] ∧
  print_traces args to_string_plain [X; Y] (Q2Qc 1) =
  print_traces args to_string_plain [Y] (Q2Qc 1).
Proof.
  intros args X Y. split; [vm_compute; reflexivity|].
  apply (X14_one_prints_first_tree args to_string_plain [X; Y] (Q2Qc 1) Y [X]);
    vm_compute; reflexivity.
Defined.

(** ** The default report *)

Lemma printable_eq (t : StoredTrace) :
  printable t = true ↔
  is_Some (s_trace_info t) ∧ (0 ≤ s_duration t)%Qc ∧
  Forall (λ t', printable t' = true) (s_subtraces t).
Proof.
  destruct t as [ti d subs]. simpl.
  rewrite !andb_true_iff, !bool_decide_eq_true.
  assert (Hl : (fix printable_list (l : list StoredTrace) : bool :=
                  match l with
                  | [] => true
                  | t' :: l' => printable t' && printable_list l'
                  end) subs = true ↔
               Forall (λ t', printable t' = true) subs).
  { induction subs as [|x subs IH]; [by split|].
    rewrite andb_true_iff, Forall_cons, IH. done. }
  rewrite Hl. tauto.
Qed.

Lemma preorder_length (indent : nat) (t : StoredTrace) :
  length (preorder indent t) = count_nodes t.
Proof.
  revert indent. induction t as [ti d subs IH] using StoredTrace_forall_ind.
  intros indent. rewrite preorder_eq, count_nodes_eq. simpl. f_equal.
  induction IH as [|x subs Hx _ IHsubs]; simpl; [done|].
  by rewrite length_app, Hx, IHsubs.
Qed.

Lemma preorder_forest_length (indent : nat) (l : list StoredTrace) :
  length (preorder_forest indent l) = count_forest l.
Proof.
  induction l as [|x l IH]; simpl; [done|].
  by rewrite length_app, preorder_length, IH.
Qed.

Section DefaultReport.

Variable args : arguments.
Variable whole_duration : Qc.
Hypothesis Hdepth : depth args = 0%Z.
Hypothesis Hwidth : trace_info_width args = None.
Hypothesis Hsort : sort_traces args = false.
Hypothesis Hone : one args = false.
Hypothesis Hthreshold : (threshold args ≤ 0)%Qc.
Hypothesis Hwhole : (0 < whole_duration)%Qc.

Lemma default_loop (n : nat) (traces : list StoredTrace) (indent : nat) :
  forest_height traces < n →
  Forall (λ t, printable t = true) traces →
  print_traces_loop args to_string_plain whole_duration n traces indent =
    (plain_line whole_duration <$> preorder_forest indent traces, None).
Proof.
  revert traces indent.
  induction n as [|n IH]; intros traces indent Hh Hp; [lia|].
  cbn [print_traces_loop]. unfold ordered_traces. rewrite Hsort.
  induction Hp as [|t l Ht Hl IHl]; [done|].
  simpl in Hh. cbn [print_for].
  assert (Hd : depth_exceeded args indent = false)
    by (unfold depth_exceeded; by rewrite Hdepth).
  apply printable_eq in Ht as ([ti Hti] & Hnn & Hsubs).
  assert (Hb : below_threshold args whole_duration t = Ok false).
  { apply below_threshold_false. split.
    - intros Hz. rewrite Hz in Hwhole. by apply Qclt_not_eq in Hwhole.
    - etrans; [done|]. unfold Qcdiv.
      replace 0%Qc with (0 * / whole_duration)%Qc by ring.
      apply Qcmult_le_mono_nonneg_r; [|done].
      apply Qclt_le_weak. by apply Qcinv_pos. }
  rewrite Hd, Hb, Hwidth, Hti. cbn [to_string_plain].
  rewrite IH by (try done; rewrite subtraces_height in Hh; lia).
  rewrite IHl by lia. rewrite Hone. simpl.
  rewrite preorder_eq, !fmap_app, fmap_cons. unfold plain_line at 3. simpl.
  by rewrite Hti.
Qed.

End DefaultReport.

(** X15 ([_print_traces], [to_string_plain], [_main]): without [-d],
    [-w], [-s] and [-1] and with a threshold that is not positive, the
    report of a forest whose nodes have call sites and durations that are
    not negative, with a positive whole duration, raises nothing and has
    one line per node, the nodes of every tree in the order parent first,
    then the children from the first to the last, each line indented by
    two spaces per level and labelled with the level counted from 1. *)
Theorem X15_default_report (args : arguments) (all_traces : list StoredTrace) :
  depth args = 0%Z → trace_info_width args = None →
  sort_traces args = false → one args = false →
  (threshold args ≤ 0)%Qc →
  (0 < whole_duration_of all_traces)%Qc →
  Forall (λ t, printable t = true) all_traces →
  report args all_traces =
    (plain_line (whole_duration_of all_traces) <$> preorder_forest 0 all_traces,
     None) ∧
  length (preorder_forest 0 all_traces) = count_forest all_traces.
Proof.
  intros Hdepth Hwidth Hsort Hone Hthr Hwhole Hp.
  split; [|apply preorder_forest_length].
  unfold report, trace_info_to_string, print_traces. rewrite Hwidth.
  apply default_loop; try done. lia.
Qed.

Lemma X15_default_report_witness :
  let args := mkArgs 0%Qc 0 None false false in
  let X := mkStored (Some (mkTraceInfo "a.cmake" 1 "f()")) (Q2Qc (3 # 10)) [] in
  let Y := mkStored (Some (mkTraceInfo "a.cmake" 2 "g()")) (Q2Qc (6 # 10)) [X] in
  report args [Y; X] =
    (plain_line (whole_duration_of [Y; X]) <$> preorder_forest 0 [Y; X], None) ∧
  length (preorder_forest 0 [Y; X]) = count_forest [Y; X].
Proof.
  intros args X Y.
  apply (X15_default_report args [Y; X]);
    first [reflexivity | by repeat constructor | vm_compute; reflexivity].
Defined.





(** ** The order of the trace *)

Lemma tiles_app (sz : ref → nat) (start : nat) (l1 l2 : list ref) :
  tiles sz start (l1 ++ l2) ↔
  tiles sz start l1 ∧ tiles sz (start + msum Nat.add 0 sz l1) l2.
Proof.
  revert start. induction l1 as [|c l1 IH]; intros start; simpl.
  - rewrite Nat.add_0_r. tauto.
  - rewrite IH, Nat.add_assoc. tauto.
Qed.

Lemma tiles_ext (sz sz' : ref → nat) (start : nat) (l : list ref) :
  (∀ c, c ∈ l → sz' c = sz c) → tiles sz start l → tiles sz' start l.
Proof.
  revert start. induction l as [|c l IH]; intros start Hext; simpl; [done|].
  intros [-> Hl]. split; [done|].
  rewrite (Hext start) by (apply elem_of_cons; by left).
  apply IH; [|done]. intros c Hc. apply Hext, elem_of_cons. by right.
Qed.

Lemma msum_nat_app (sz : ref → nat) (l1 l2 : list ref) :
  msum Nat.add 0 sz (l1 ++ l2) =
    msum Nat.add 0 sz l1 + msum Nat.add 0 sz l2.
Proof. induction l1 as [|c l1 IH]; simpl; [done|]. rewrite IH. lia. Qed.

Lemma msum_nat_zero (sz : ref → nat) (l : list ref) :
  (∀ c, c ∈ l → 1 ≤ sz c) → msum Nat.add 0 sz l = 0 → l = [].
Proof.
  destruct l as [|c l]; [done|]. simpl. intros Hpos Hz.
  pose proof (Hpos c (proj2 (elem_of_cons _ _ _) (or_introl eq_refl))). lia.
Qed.

Section Tiled.

Variable h : heap.
Variable sz : ref → nat.
Hypothesis Hwf : wf h.
Hypothesis Ht : tiled h sz.

Let Hdec : decreasing h := wf_decreasing h Hwf.

Lemma tiled_pos (i : ref) : i < length h → 1 ≤ sz i.
Proof.
  intros Hi. apply lookup_lt_is_Some in Hi as [n Hn].
  rewrite (tiled_sizes h sz Ht i n Hn). lia.
Qed.

Lemma tiled_split (i : ref) (n : CmakeTrace) (l1 l2 : list ref) (k : ref) :
  h !! i = Some n → subtraces n = l1 ++ k :: l2 →
  k = S i + msum Nat.add 0 sz l1 ∧
  i + sz i = k + sz k + msum Nat.add 0 sz l2.
Proof.
  intros Hn Hs.
  pose proof (tiled_children h sz Ht i n Hn) as Hc.
  pose proof (tiled_sizes h sz Ht i n Hn) as Hb.
  rewrite Hs in Hc, Hb. apply tiles_app in Hc as [_ [Hk _]].
  rewrite msum_nat_app in Hb. simpl in Hb. lia.
Qed.

(** An object that ends where the heap ends is a last child. *)
Lemma edge_last_child (i : ref) (n : CmakeTrace) (l1 l2 : list ref) (k : ref) :
  h !! i = Some n → subtraces n = l1 ++ k :: l2 →
  k + sz k = length h → l2 = [] ∧ i + sz i = length h.
Proof.
  intros Hn Hs Hk. destruct (tiled_split i n l1 l2 k Hn Hs) as [_ Hsum].
  pose proof (tiled_bound h sz Ht i (lookup_lt_Some _ _ _ Hn)) as Hb.
  assert (Hz : msum Nat.add 0 sz l2 = 0) by lia.
  split; [|lia]. apply (msum_nat_zero sz); [|done].
  intros c Hc. apply tiled_pos.
  assert (Hin : c ∈ subtraces n)
    by (rewrite Hs; apply elem_of_app; right; apply elem_of_cons; by right).
  apply (child_gt h Hwf i c n Hn) in Hin. lia.
Qed.

Lemma edge_parent (i q : ref) (n : CmakeTrace) :
  h !! i = Some n → parent_trace n = Some q →
  i + sz i = length h → q + sz q = length h.
Proof.
  intros Hn Hq Hi.
  pose proof (Hdec i n q Hn Hq) as Hlt.
  pose proof (lookup_lt_Some _ _ _ Hn) as Hil.
  assert (Hql : q < length h) by lia.
  apply lookup_lt_is_Some in Hql as [m Hm].
  assert (Hin : i ∈ subtraces m).
  { apply (wf_child h Hwf q m i Hm). unfold parent_of. by rewrite Hn. }
  apply list_elem_of_split in Hin as (l1 & l2 & Hs).
  by destruct (edge_last_child q m l1 l2 i Hm Hs Hi).
Qed.

Lemma edge_chain (i a : ref) :
  i + sz i = length h → a ∈ ancestors h i → a + sz a = length h.
Proof.
  revert a. induction i as [i IH] using lt_wf_ind. intros a Hi Ha.
  destruct (h !! i) as [n|] eqn:Hn;
    [|rewrite (ancestors_dangling h i Hn) in Ha; by apply elem_of_nil in Ha].
  rewrite (ancestors_unfold h Hdec i n Hn) in Ha.
  apply elem_of_cons in Ha as [->|Ha]; [done|].
  destruct (parent_trace n) as [q|] eqn:Hq; [|by apply elem_of_nil in Ha].
  apply (IH q); [by apply (Hdec i n q)| |done].
  by apply (edge_parent i q n).
Qed.

(** The object made last has nothing below it. *)
Lemma newest_edge : 0 < length h → (length h - 1) + sz (length h - 1) = length h.
Proof.
  intros Hlen.
  assert (Hl : length h - 1 < length h) by lia.
  apply lookup_lt_is_Some in Hl as [n Hn].
  rewrite (tiled_sizes h sz Ht _ n Hn).
  destruct (subtraces n) as [|c l] eqn:Hs; [simpl; lia|].
  assert (Hin : c ∈ subtraces n) by (rewrite Hs; apply elem_of_cons; by left).
  apply (child_gt h Hwf _ c n Hn) in Hin. lia.
Qed.

Lemma tiled_root : 0 < length h → sz 0 = length h.
Proof.
  intros Hlen.
  apply (edge_chain (length h - 1) 0 (newest_edge Hlen)).
  apply (ancestors_root h Hwf). lia.
Qed.

End Tiled.

Lemma msum_nat_ext (sz sz' : ref → nat) (l : list ref) :
  (∀ c, c ∈ l → sz' c = sz c) →
  msum Nat.add 0 sz' l = msum Nat.add 0 sz l.
Proof.
  induction l as [|c l IH]; intros Hext; simpl; [done|].
  rewrite (Hext c) by (apply elem_of_cons; by left).
  rewrite IH; [done|]. intros c' Hc'. apply Hext, elem_of_cons. by right.
Qed.

(** Appending a leaf below an object that ends where the heap ends keeps
    the blocks in place. *)
Lemma tiled_appended (h : heap) (sz : ref → nat) (p : ref) (d : Qc)
    (ti : CmakeTraceInfo) :
  wf h → tiled h sz → p < length h → p + sz p = length h →
  tiled (appended h p d ti) (sizes_after h p sz).
Proof.
  intros Hwf Ht Hp Hedge.
  assert (Hanc : ∀ a, a ∈ ancestors h p → a + sz a = length h)
    by (intros a; by apply (edge_chain h sz Hwf Ht p a)).
  assert (Hold : ∀ c, c < length h → c ∉ ancestors h p →
                      sizes_after h p sz c = sz c).
  { intros c Hc Hn. unfold sizes_after.
    rewrite decide_False by lia. by rewrite decide_False. }
  constructor.
  - apply (balanced_appended Nat.add 0 h p d ti (λ _, 1) sz _ _ 1); try done.
    + apply (tiled_sizes h sz Ht).
    + unfold sizes_after. by rewrite decide_True.
    + intros i Hi. unfold sizes_after. by rewrite decide_False by lia.
  - intros i n' Hn'.
    apply (appended_inv h p d ti Hp) in Hn' as [[-> ->]|(n & Hn & ->)]; [done|].
    simpl.
    pose proof (tiled_children h sz Ht i n Hn) as Hc.
    assert (Hkids : ∀ c, c ∈ subtraces n → c < length h).
    { intros c Hc'. apply (child_gt h Hwf i c n Hn) in Hc'. lia. }
    destruct (chain_child h Hwf p i n Hn)
      as [(Hi & Hne & l1 & k & l2 & Hs & Hk & Hrest)|[Hi Hrest]].
    + rewrite decide_False by done.
      destruct (edge_last_child h sz Hwf Ht i n l1 l2 k Hn Hs (Hanc k Hk))
        as [-> _].
      rewrite app_nil_r in Hrest.
      assert (Hl1 : ∀ c, c ∈ l1 → sizes_after h p sz c = sz c).
      { intros c Hc'. apply Hold; [|by apply Hrest].
        apply Hkids. rewrite Hs. apply elem_of_app. by left. }
      rewrite Hs in Hc |- *. apply tiles_app in Hc as [Hc1 [Hc2 _]].
      apply tiles_app. split; [by apply (tiles_ext sz)|].
      simpl. split; [|done]. by rewrite (msum_nat_ext sz).
    + assert (Hsame : ∀ c, c ∈ subtraces n → sizes_after h p sz c = sz c).
      { intros c Hc'. apply Hold; [by apply Hkids|by apply Hrest]. }
      assert (Hc' : tiles (sizes_after h p sz) (S i) (subtraces n))
        by by apply (tiles_ext sz).
      destruct (decide (i = p)) as [->|Hne]; [|done].
      apply tiles_app. split; [done|]. simpl. split; [|done].
      rewrite (msum_nat_ext sz) by done.
      pose proof (tiled_sizes h sz Ht p n Hn) as Hb. simpl in Hb. lia.
  - intros i Hi. rewrite appended_length in Hi |- * by done.
    unfold sizes_after. destruct (decide (i = length h)) as [->|Hne]; [lia|].
    destruct (decide (i ∈ ancestors h p)) as [Hin|Hin].
    + specialize (Hanc i Hin). lia.
    + pose proof (tiled_bound h sz Ht i). lia.
Qed.

Section AttachChain.

Variable h : heap.
Hypothesis Hwf : wf h.

Let Hdec : decreasing h := wf_decreasing h Hwf.

Lemma loop_result_chain (ti : CmakeTraceInfo) (A : list ref) (best : Z)
    (r : ref) :
  (loop_result h ti best None (frame_of h <$> A)).2 = Some r →
  r ∈ A ∨ ∃ w, w ∈ A ∧ parent_of h w = Some r.
Proof.
  unfold loop_result.
  assert (Hfb : (fallback ti best None (frame_of h <$> A)).2 = Some r → r ∈ A).
  { unfold fallback.
    destruct (first_other_file ti (frame_of h <$> A)) as [t|] eqn:Ht; [|done].
    simpl. intros [= <-]. by apply (first_other_file_in h ti). }
  destruct (nearest_frame ti (frame_of h <$> A)) as [[w dw]|] eqn:Hn;
    [|by left; apply Hfb].
  destruct (dw <? best)%Z; [|by left; apply Hfb]. simpl. intros Hpar.
  right. exists w. split; [|done]. by apply (nearest_frame_in h ti A w dw).
Qed.

Lemma parent_in_chain (i w r : ref) :
  w ∈ ancestors h i → parent_of h w = Some r → r ∈ ancestors h i.
Proof.
  intros Hw Hpar. apply list_elem_of_lookup_1 in Hw as [j Hj].
  pose proof (ancestors_lookup_drop h i w j Hwf Hj) as Hdrop.
  unfold parent_of in Hpar. destruct (h !! w) as [n|] eqn:Hn; [|done].
  simpl in Hpar. rewrite (ancestors_unfold h Hdec w n Hn), Hpar in Hdrop.
  pose proof (Hdec w n r Hn Hpar) as Hlt.
  pose proof (lookup_lt_Some _ _ _ Hn) as Hwl.
  assert (Hr : r ∈ drop j (ancestors h i)).
  { rewrite <- Hdrop. apply elem_of_cons. right.
    apply (ancestors_self h Hdec). lia. }
  apply list_elem_of_lookup_1 in Hr as [k Hk]. rewrite lookup_drop in Hk.
  by eapply list_elem_of_lookup_2.
Qed.

Lemma chain_innermost (p a : ref) :
  p < length h → a ∈ ancestors h p → a ∈ ancestors h (innermost h p).
Proof.
  intros Hp Ha. unfold innermost.
  pose proof Hp as Hl. apply lookup_lt_is_Some in Hl as [n Hn]. rewrite Hn.
  destruct (last (subtraces n)) as [c|] eqn:Hc; [simpl|done].
  apply last_Some_elem_of in Hc.
  pose proof (child_parent h Hwf p c n Hn Hc) as Hpar.
  unfold parent_of in Hpar. destruct (h !! c) as [m|] eqn:Hm; [|done].
  simpl in Hpar. rewrite (ancestors_unfold h Hdec c m Hm), Hpar.
  apply elem_of_cons. by right.
Qed.

(** The new node is attached to a frame that [enumerate_frames] visits. *)
Lemma attach_point_chain (p p' : ref) (cn pn : Z) (ti : CmakeTraceInfo) :
  p < length h → attach_point h p cn pn ti = Ok p' →
  p' ∈ ancestors h (innermost h p).
Proof.
  intros Hp. pose proof (ancestors_self h Hdec p Hp) as Hself.
  unfold attach_point. destruct (cn =? 0)%Z.
  { rewrite (resolve_parent_ok h Hwf) by done. intros [= <-].
    destruct (loop_result _ _ _ _ _).2 as [r|] eqn:Hr; simpl;
      [|by apply chain_innermost].
    apply loop_result_chain in Hr as [Hr|(w & Hw & Hpar)]; [done|].
    by apply (parent_in_chain _ w). }
  destruct (cn - pn =? 0)%Z; [intros [= <-]; by apply chain_innermost|].
  destruct (cn - pn <? 0)%Z.
  { rewrite (ascend_lookup h Hwf) by done.
    destruct (ancestors h p !! _) as [q|] eqn:Hq; [|done]. intros [= <-].
    apply list_elem_of_lookup_2 in Hq. by apply chain_innermost. }
  destruct (cn - pn =? 1)%Z; [|done].
  pose proof Hp as Hl. apply lookup_lt_is_Some in Hl as [n Hn].
  unfold deref, innermost. rewrite Hn. simpl.
  destruct (last (subtraces n)) as [c|] eqn:Hc; [|done]. intros [= <-]. simpl.
  apply (ancestors_self h Hdec).
  apply last_Some_elem_of in Hc. apply (child_gt h Hwf p c n Hn) in Hc. lia.
Qed.

End AttachChain.

Lemma in_trace_order_appended (h : heap) (p p' : ref) (cn pn : Z) (d : Qc)
    (ti : CmakeTraceInfo) :
  wf h → p < length h → in_trace_order h p →
  attach_point h p cn pn ti = Ok p' →
  in_trace_order (appended h p' d ti) p'.
Proof.
  intros Hwf Hp [[sz Ht] Hin] Hatt.
  pose proof (attach_point_valid h Hwf p p' _ _ _ Hp Hatt) as Hp'.
  pose proof (attach_point_chain h Hwf p p' _ _ _ Hp Hatt) as Hchain.
  rewrite Hin in Hchain. split.
  - exists (sizes_after h p' sz). apply tiled_appended; try done.
    apply (edge_chain h sz Hwf Ht (length h - 1)); [|done].
    apply (newest_edge h sz Hwf Ht). lia.
  - pose proof Hp' as Hl. apply lookup_lt_is_Some in Hl as [n Hn].
    unfold innermost. rewrite (appended_old h p' d ti p' n Hn). simpl.
    rewrite decide_True by done. rewrite last_snoc. simpl.
    rewrite appended_length by done. lia.
Qed.

Lemma init_state_order : in_trace_order (st_heap init_state) (st_parent init_state).
Proof.
  split; [|done]. exists (λ _, 1). constructor.
  - intros [|[|i]] n Hn; try done. by injection Hn as <-.
  - intros [|[|i]] n Hn; try done. by injection Hn as <-.
  - simpl. intros i Hi. lia.
Qed.

Lemma builder_state_order (events : list event) (s : collect_state) :
  builder_state events = Ok s → in_trace_order (st_heap s) (st_parent s).
Proof.
  revert s. induction events as [|ev events IH] using rev_ind; intros s Hs.
  { injection Hs as <-. apply init_state_order. }
  rewrite builder_state_snoc in Hs. inv_bind Hs.
  specialize (IH a Ha). destruct (builder_state_ok _ _ Ha) as [Hok _].
  pose proof (ok_wf _ _ _ _ _ Hok) as Hwf.
  pose proof (ok_cursor _ _ _ _ _ Hok) as Hp.
  destruct ev as [[cn ct] cti]. unfold collect_step in Hs.
  destruct (previous a) as [[pt pti]|]; simpl in Hs.
  - inv_bind Hs. destruct a0 as [[h' traces'] p'].
    rewrite (update_traces_eq _ Hwf) in Ha0 by done. inv_bind Ha0.
    injection Ha0 as <- <- <-.
    assert (Ho : in_trace_order
                   (appended (st_heap a) a0 (clamp_duration ct pt) pti) a0)
      by by eapply in_trace_order_appended.
    destruct cn; by injection Hs as <-.
  - destruct cn; by injection Hs as <-.
Qed.

Lemma build_order (events : list event) (h : heap) (traces : list ref) :
  build events = Ok (h, traces) → ∃ sz, tiled h sz.
Proof.
  rewrite build_eq. intros Hb. inv_bind Hb.
  pose proof (builder_state_order _ _ Ha) as Ho.
  destruct (builder_state_ok _ _ Ha) as [Hok _].
  pose proof (ok_wf _ _ _ _ _ Hok) as Hwf.
  pose proof (ok_cursor _ _ _ _ _ Hok) as Hp.
  unfold collect_finish in Hb. destruct (previous a) as [[pt pti]|].
  - inv_bind Hb. destruct a0 as [[h' traces'] p'].
    rewrite (update_traces_eq _ Hwf) in Ha0 by done. inv_bind Ha0.
    injection Ha0 as <- <- <-. injection Hb as <- <-.
    by eapply in_trace_order_appended.
  - injection Hb as <- <-. apply Ho.
Qed.

Lemma site_at_seq (h : heap) :
  site_at h <$> seq 0 (length h) = trace_info <$> h.
Proof.
  apply list_eq. intros j. rewrite !list_lookup_fmap.
  destruct (decide (j < length h)) as [Hj|Hj].
  - rewrite lookup_seq_lt by done. simpl. unfold site_at.
    apply lookup_lt_is_Some in Hj as [n Hn]. by rewrite Hn.
  - rewrite lookup_seq_ge by lia.
    by rewrite (proj2 (lookup_ge_None h j)) by lia.
Qed.

Section TraceOrder.

Variable h : heap.
Variable sz : ref → nat.
Hypothesis Ht : tiled h sz.

Lemma mirrors_preorder_list (P : StoredTrace → Prop) (k : nat)
    (cs : list ref) (subs : list StoredTrace) :
  (∀ t i, P t → mirrors h i t →
     (λ it, s_trace_info it.2) <$> preorder k t = site_at h <$> seq i (sz i)) →
  Forall2 (mirrors h) cs subs → Forall P subs →
  ∀ start, tiles sz start cs →
  (λ it, s_trace_info it.2) <$> preorder_forest k subs =
    site_at h <$> seq start (msum Nat.add 0 sz cs).
Proof.
  intros Htree HF. induction HF as [|c t cs subs Hct HF IH]; intros HP start;
    [done|].
  apply Forall_cons in HP as [Hp HP]. simpl. intros [-> Htiles].
  rewrite fmap_app, seq_app, fmap_app. f_equal; [by apply Htree|by apply IH].
Qed.

Lemma mirrors_preorder (t : StoredTrace) :
  ∀ k i, mirrors h i t →
  (λ it, s_trace_info it.2) <$> preorder k t = site_at h <$> seq i (sz i).
Proof.
  induction t as [ti d subs IH] using StoredTrace_forall_ind.
  intros k i Hm. inversion Hm as [j n subs' Hn HF]; subst.
  rewrite preorder_eq, (tiled_sizes h sz Ht i n Hn). simpl.
  unfold site_at at 1. rewrite Hn. simpl. f_equal.
  apply (mirrors_preorder_list
           (λ t, ∀ k i, mirrors h i t →
              (λ it, s_trace_info it.2) <$> preorder k t =
                site_at h <$> seq i (sz i))); try done.
  - intros t i' Hp Hm'. by apply Hp.
  - by apply (tiled_children h sz Ht i n).
Qed.

End TraceOrder.

Section TraceLevels.

Variable h : heap.
Variable sz : ref → nat.
Hypothesis Hwf : wf h.
Hypothesis Ht : tiled h sz.

Let Hdec : decreasing h := wf_decreasing h Hwf.

Lemma level_child (i c : ref) (n : CmakeTrace) :
  h !! i = Some n → c ∈ subtraces n → level h c = (level h i + 1)%Z.
Proof.
  intros Hn Hc. pose proof (child_parent h Hwf i c n Hn Hc) as Hpar.
  unfold parent_of in Hpar. destruct (h !! c) as [m|] eqn:Hm; [|done].
  simpl in Hpar. unfold level.
  rewrite (ancestors_unfold h Hdec c m Hm), Hpar. simpl. lia.
Qed.

Lemma mirrors_levels_list (P : StoredTrace → Prop) (k : nat)
    (cs : list ref) (subs : list StoredTrace) :
  (∀ t i, P t → mirrors h i t → level h i = (Z.of_nat k + 1)%Z →
     (λ it, Z.of_nat it.1 + 1)%Z <$> preorder k t = level h <$> seq i (sz i)) →
  Forall2 (mirrors h) cs subs → Forall P subs →
  (∀ c, c ∈ cs → level h c = (Z.of_nat k + 1)%Z) →
  ∀ start, tiles sz start cs →
  (λ it, Z.of_nat it.1 + 1)%Z <$> preorder_forest k subs =
    level h <$> seq start (msum Nat.add 0 sz cs).
Proof.
  intros Htree HF. induction HF as [|c t cs subs Hct HF IH];
    intros HP Hlev start; [done|].
  apply Forall_cons in HP as [Hp HP]. simpl. intros [-> Htiles].
  rewrite fmap_app, seq_app, fmap_app. f_equal.
  - apply Htree; [done|done|]. apply Hlev, elem_of_cons. by left.
  - apply IH; [done| |done]. intros c Hc. apply Hlev, elem_of_cons. by right.
Qed.

Lemma mirrors_levels (t : StoredTrace) :
  ∀ k i, mirrors h i t → level h i = (Z.of_nat k + 1)%Z →
  (λ it, Z.of_nat it.1 + 1)%Z <$> preorder k t = level h <$> seq i (sz i).
Proof.
  induction t as [ti d subs IH] using StoredTrace_forall_ind.
  intros k i Hm Hlev. inversion Hm as [j n subs' Hn HF]; subst.
  rewrite preorder_eq, (tiled_sizes h sz Ht i n Hn). simpl.
  rewrite Hlev. f_equal.
  apply (mirrors_levels_list
           (λ t, ∀ k i, mirrors h i t → level h i = (Z.of_nat k + 1)%Z →
              (λ it, Z.of_nat it.1 + 1)%Z <$> preorder k t =
                level h <$> seq i (sz i))); try done.
  - intros t i' Hp Hm' Hl. by apply Hp.
  - intros c Hc. rewrite (level_child i c n Hn Hc). lia.
  - by apply (tiled_children h sz Ht i n).
Qed.

End TraceLevels.

(** The stored forest, read parent first and then the subtraces from the
    first to the last, lists the objects after the root in the order of
    their creation: their call sites are the call sites of the events,
    and their levels are the levels of the objects. *)
Lemma build_forest_order (events : list event) (h : heap)
    (traces : list ref) (forest : list StoredTrace) :
  build events = Ok (h, traces) → store_traces h traces = Ok forest →
  (λ it, s_trace_info it.2) <$> preorder_forest 0 forest =
    Some <$> (site <$> events) ∧
  (λ it, Z.of_nat it.1 + 1)%Z <$> preorder_forest 0 forest =
    level h <$> seq 1 (length events).
Proof.
  intros Hb Hst.
  destruct (build_store_traces events h traces Hb) as (forest' & Hst' & HF).
  rewrite Hst in Hst'. injection Hst' as <-.
  destruct (build_order events h traces Hb) as [sz Ht].
  destruct (build_ok events h traces Hb) as [p Hok].
  pose proof (ok_wf _ _ _ _ _ Hok) as Hwf.
  pose proof (ok_sites _ _ _ _ _ Hok) as Hsites.
  pose proof (ok_cursor _ _ _ _ _ Hok) as Hp.
  pose proof (ok_own_length _ _ _ _ _ Hok) as Hlen.
  simpl in Hlen. rewrite attributed_length in Hlen.
  destruct (ok_traces _ _ _ _ _ Hok) as (r & Hr & ->).
  pose proof (tiled_sizes h sz Ht 0 r Hr) as Hb0. simpl in Hb0.
  rewrite (tiled_root h sz Hwf Ht) in Hb0 by lia.
  assert (Hm : msum Nat.add 0 sz (subtraces r) = length events) by lia.
  pose proof (tiled_children h sz Ht 0 r Hr) as Htiles.
  split.
  - rewrite (mirrors_preorder_list h sz (λ _, True) 0 (subtraces r) forest)
      with (start := 1); try done.
    + pose proof (site_at_seq h) as Hseq. rewrite Hsites, Hb0 in Hseq.
      simpl in Hseq. by injection Hseq.
    + intros t i _ Hmi. by apply mirrors_preorder.
    + by apply Forall_true.
  - rewrite <- Hm.
    apply (mirrors_levels_list h sz (λ _, True)); try done.
    + intros t i _ Hmi Hl. by apply mirrors_levels.
    + by apply Forall_true.
    + intros c Hc. rewrite (level_child h Hwf 0 c r Hr Hc).
      destruct (wf_root h Hwf) as (r' & Hr' & Hpar & _).
      rewrite Hr in Hr'. injection Hr' as <-. unfold level.
      by rewrite (ancestors_unfold h (wf_decreasing h Hwf) 0 r Hr), Hpar.
Qed.


Lemma build_forest_lookup (events : list event) (h : heap)
    (traces : list ref) (forest : list StoredTrace) :
  build events = Ok (h, traces) → store_traces h traces = Ok forest →
  ∀ i ev, events !! i = Some ev →
  ∃ k t, preorder_forest 0 forest !! i = Some (k, t) ∧
         s_trace_info t = Some (site ev) ∧
         (Z.of_nat k + 1 = level h (S i))%Z.
Proof.
  intros Hb Hst i ev Hev.
  destruct (build_forest_order events h traces forest Hb Hst) as [Hsites Hlev].
  assert (Hs : ((λ it : nat * StoredTrace, s_trace_info it.2) <$>
                  preorder_forest 0 forest) !! i = Some (Some (site ev)))
    by by rewrite Hsites, !list_lookup_fmap, Hev.
  rewrite list_lookup_fmap in Hs.
  destruct (preorder_forest 0 forest !! i) as [[k t]|] eqn:Hit; [|done].
  simpl in Hs. injection Hs as Hs.
  assert (Hl : ((λ it : nat * StoredTrace, Z.of_nat it.1 + 1)%Z <$>
                  preorder_forest 0 forest) !! i = Some (level h (S i))).
  { rewrite Hlev, list_lookup_fmap, lookup_seq_lt; [done|].
    by apply lookup_lt_Some in Hev. }
  rewrite list_lookup_fmap, Hit in Hl. simpl in Hl. injection Hl as Hl.
  by exists k, t.
Qed.

(** X17 ([_update_traces], [_collect_stats], [store_trace]): the tree
    keeps the order of the trace. Read parent first and then the
    subtraces from the first to the last, the stored forest lists the
    call sites of the events in the order in which the generator yielded
    them, whether the nodes were placed by the depth fields or by the
    nesting resolver; the node of the event at position [i] is found at
    position [i], at the level of the object made for that event. *)
Theorem X17_forest_in_trace_order (events : list event) (h : heap)
    (traces : list ref) (forest : list StoredTrace) :
  build events = Ok (h, traces) → store_traces h traces = Ok forest →
  (λ it, s_trace_info it.2) <$> preorder_forest 0 forest =
    Some <$> (site <$> events) ∧
  ∀ i ev, events !! i = Some ev →
    ∃ k t, preorder_forest 0 forest !! i = Some (k, t) ∧
           s_trace_info t = Some (site ev) ∧
           (Z.of_nat k + 1 = level h (S i))%Z.
Proof.
  intros Hb Hst. split.
  - by destruct (build_forest_order events h traces forest Hb Hst).
  - by apply (build_forest_lookup events h traces).
Qed.

Lemma X17_forest_in_trace_order_witness :
  ∃ h traces forest,
    build flat_events = Ok (h, traces) ∧
    store_traces h traces = Ok forest ∧
    (λ it, s_trace_info it.2) <$> preorder_forest 0 forest =
      Some <$> (site <$> flat_events) ∧
    ∀ i ev, flat_events !! i = Some ev →
      ∃ k t, preorder_forest 0 forest !! i = Some (k, t) ∧
             s_trace_info t = Some (site ev) ∧
             (Z.of_nat k + 1 = level h (S i))%Z.
Proof.
  eexists _, _, _.
  split; [vm_compute; reflexivity|]. split; [vm_compute; reflexivity|].
  eapply (X17_forest_in_trace_order flat_events); vm_compute; reflexivity.
Defined.

Lemma build_levels (events : list event) (h : heap) (traces : list ref) :
  well_nested 0 (depth_of <$> events) = true →
  build events = Ok (h, traces) →
  ∀ i ev, events !! i = Some ev → S i < length events →
          level h (S i) = depth_of ev.
Proof.
  intros Hwn Hb.
  destruct (builder_state_well_nested events Hwn)
    as (s & Hs & _ & Hh & _ & _ & _ & Hf).
  destruct (builder_state_ok _ _ Hs) as [Hok _].
  destruct (builder_heap_length _ _ Hs) as [Hlen _].
  rewrite build_eq, Hs in Hb. simpl in Hb.
  pose proof (ok_wf _ _ _ _ _ Hok) as Hwf.
  pose proof (ok_cursor _ _ _ _ _ Hok) as Hp.
  unfold collect_finish in Hb. destruct (previous s) as [[pt pti]|].
  - rewrite (update_traces_eq _ Hwf) in Hb by done.
    inv_bind Hb. inv_bind Ha. injection Ha as <-. injection Hb as <- <-.
    pose proof (attach_point_valid _ Hwf _ _ _ _ _ Hp Ha0) as Hv.
    intros i ev Hi Hlt. rewrite level_appended_old by (done || lia).
    by apply Hf.
  - injection Hb as <- <-. apply Hf.
Qed.

(** X18 ([_collect_stats], [_update_traces], [store_trace],
    [to_string_plain], [_print_traces]): on a stream whose depths start at
    1, never fall below 1 and never grow by more than one, the node of
    every event that has a successor is found in the stored forest at
    the position of the event and at the level of its depth, so that its
    line in a plain report is indented by two spaces for every depth
    above 1 and labelled with the depth that the trace line carried. *)
Theorem X18_labels_are_depths (events : list event) (h : heap)
    (traces : list ref) (forest : list StoredTrace) (whole_duration : Qc) :
  well_nested 0 (depth_of <$> events) = true →
  build events = Ok (h, traces) → store_traces h traces = Ok forest →
  ∀ i ev, events !! i = Some ev → S i < length events →
    ∃ k t, preorder_forest 0 forest !! i = Some (k, t) ∧
           (Z.of_nat k + 1 = depth_of ev)%Z ∧
           plain_line whole_duration (k, t) =
             mkLine (k * indent_step)
               (format_site (pretty (k + 1)) (cmake_file (site ev))
                  (cmake_line (site ev)) (cmake_code_line (site ev)))
               (s_duration t)
               (s_duration t / whole_duration * Q2Qc 100)%Qc.
Proof.
  intros Hwn Hb Hst i ev Hev Hlt.
  destruct (build_forest_lookup events h traces forest Hb Hst i ev Hev)
    as (k & t & Hit & Hsite & Hlev).
  exists k, t. split; [done|]. split.
  - by rewrite Hlev, (build_levels events h traces Hwn Hb i ev).
  - unfold plain_line. simpl. by rewrite Hsite.
Qed.

Lemma X18_labels_are_depths_witness :
  ∃ h traces forest,
    build sample_events = Ok (h, traces) ∧
    store_traces h traces = Ok forest ∧
    ∀ i ev, sample_events !! i = Some ev → S i < length sample_events →
      ∃ k t, preorder_forest 0 forest !! i = Some (k, t) ∧
             (Z.of_nat k + 1 = depth_of ev)%Z ∧
             plain_line (Q2Qc 1) (k, t) =
               mkLine (k * indent_step)
                 (format_site (pretty (k + 1)) (cmake_file (site ev))
                    (cmake_line (site ev)) (cmake_code_line (site ev)))
                 (s_duration t)
                 (s_duration t / Q2Qc 1 * Q2Qc 100)%Qc.
Proof.
  eexists _, _, _.
  split; [vm_compute; reflexivity|]. split; [vm_compute; reflexivity|].
  eapply (X18_labels_are_depths sample_events); vm_compute; reflexivity.
Defined.

(** ** The pattern of the trace lines *)

Lemma split_at_app (c : ascii) (pre post : string) :
  lacks c pre = true →
  split_at c (pre ++ String c post) = Some (pre, post).
Proof.
  induction pre as [|a pre IH]; simpl.
  - by rewrite Ascii.eqb_refl.
  - intros [Ha Hpre]%andb_prop. apply negb_true_iff in Ha.
    by rewrite Ha, (IH Hpre).
Qed.

Lemma split_at_inv (c : ascii) (s pre post : string) :
  split_at c s = Some (pre, post) →
  s = (pre ++ String c post)%string ∧ lacks c pre = true.
Proof.
  revert pre. induction s as [|a s IH]; intros pre; simpl; [done|].
  destruct (Ascii.eqb a c) eqn:Hac.
  - intros [= <- <-]. apply Ascii.eqb_eq in Hac as ->. done.
  - destruct (split_at c s) as [[pre' post']|]; [|done]. simpl.
    intros [= <- <-]. destruct (IH pre' eq_refl) as [-> Hl].
    simpl. by rewrite Hac, Hl.
Qed.

Lemma lstrip_app_space (ws s : string) :
  all_space ws = true → lstrip (ws ++ s) = lstrip s.
Proof.
  induction ws as [|c ws IH]; [done|]. simpl.
  intros [Hc Hws]%andb_prop. by rewrite Hc, IH.
Qed.

Lemma lstrip_inv (s : string) :
  ∃ ws, all_space ws = true ∧ s = (ws ++ lstrip s)%string.
Proof.
  induction s as [|c s (ws & Hws & IH)]; [by exists EmptyString|].
  simpl. destruct (is_space c) eqn:Hc.
  - exists (String c ws). split; [simpl; by rewrite Hc, Hws|].
    rewrite append_cons. f_equal. exact IH.
  - by exists EmptyString.
Qed.

Lemma match_site_app (ws3 file line code : string) :
  all_space ws3 = true →
  lacks "(" file = true → lacks ")" line = true →
  has_newline code = false → lstrip code = code →
  match_site (file ++ "(" ++ line ++ "):" ++ ws3 ++ code) =
    Some (file, line, code).
Proof.
  intros Hws Hfile Hline Hnl Hcode. unfold match_site.
  rewrite !append_cons, !append_nil_l.
  rewrite (split_at_app "(" file _ Hfile). simpl.
  rewrite (split_at_app ")" line _ Hline). simpl.
  by rewrite (lstrip_app_space ws3 code Hws), Hcode, Hnl.
Qed.

Lemma match_site_inv (s file line code : string) :
  match_site s = Some (file, line, code) →
  ∃ ws3, all_space ws3 = true ∧
    s = (file ++ "(" ++ line ++ "):" ++ ws3 ++ code)%string ∧
    lacks "(" file = true ∧ lacks ")" line = true ∧
    has_newline code = false.
Proof.
  unfold match_site.
  destruct (split_at "(" s) as [[file' s1]|] eqn:H1; [simpl|done].
  destruct (split_at ")" s1) as [[line' s2]|] eqn:H2; [simpl|done].
  destruct s2 as [|a s2]; [done|].
  destruct (Ascii.eqb_spec a ":") as [->|Hne];
    [|by destruct a as [[] [] [] [] [] [] [] []]].
  destruct (has_newline (lstrip s2)) eqn:Hnl; [done|].
  intros [= <- <- <-].
  apply split_at_inv in H1 as [-> Hf]. apply split_at_inv in H2 as [-> Hl].
  destruct (lstrip_inv s2) as (ws3 & Hws & Hs2).
  exists ws3. repeat split; try done.
  rewrite !append_cons, !append_nil_l. by rewrite <- Hs2.
Qed.

Lemma lstrip_length (s : string) :
  String.length (lstrip s) ≤ String.length s.
Proof.
  induction s as [|c s IH]; simpl; [done|].
  destruct (is_space c); simpl; lia.
Qed.

Lemma lstrip_fixed_app (s t : string) :
  lstrip s = s → s ≠ EmptyString → lstrip (s ++ t) = (s ++ t)%string.
Proof.
  destruct s as [|c s]; [done|]. intros Hs _.
  rewrite append_cons. simpl in *.
  destruct (is_space c); [|done].
  pose proof (lstrip_length s) as Hl. rewrite Hs in Hl. simpl in Hl. lia.
Qed.

Lemma lstrip_site (file rest : string) :
  lstrip file = file →
  lstrip (file ++ String "(" rest) = (file ++ String "(" rest)%string.
Proof.
  intros Hf. destruct file as [|c file]; [done|]. by apply lstrip_fixed_app.
Qed.

(** X19 ([matcher] of [_parse_cmake_log]): a line of the shape that the
    pattern describes is read into its fields. When the time stamp, the
    depth and the line number hold no closing parenthesis, the file name
    holds no opening parenthesis and does not begin with white space, the
    code holds no newline and does not begin with white space, and a line
    without depth has a file name that is not empty, the match has
    exactly these groups, whatever white space separates them. *)
Theorem X19_matcher_reads_trace_lines (ws1 ws2 ws3 : string) (m : line_match) :
  all_space ws1 = true → all_space ws2 = true → all_space ws3 = true →
  lacks ")" (g_timestamp m) = true →
  (∀ frame, g_frame m = Some frame → lacks ")" frame = true) →
  (g_frame m = None → g_file m ≠ EmptyString) →
  lacks "(" (g_file m) = true → lstrip (g_file m) = g_file m →
  lacks ")" (g_line m) = true →
  has_newline (g_code m) = false → lstrip (g_code m) = g_code m →
  matcher_match (trace_line ws1 ws2 ws3 m) = Some m.
Proof.
  destruct m as [ts fr file line code]. simpl.
  intros H1 H2 H3 Hts Hfr Hnone Hfile Hfile' Hline Hnl Hcode.
  pose proof (match_site_app ws3 file line code H3 Hfile Hline Hnl Hcode) as Hsite.
  unfold trace_line, matcher_match. simpl g_timestamp. simpl g_frame.
  simpl g_file. simpl g_line. simpl g_code.
  rewrite !append_cons, !append_nil_l in *.
  rewrite (split_at_app ")" ts _ Hts). simpl.
  rewrite (lstrip_app_space ws1 _ H1).
  destruct fr as [frame|].
  - rewrite !append_cons, !append_nil_l.
    change (lstrip (String "(" ?s)) with (String "(" s). lazy beta iota.
    rewrite (split_at_app ")" frame _ (Hfr frame eq_refl)). simpl.
    rewrite (lstrip_app_space ws2 _ H2), (lstrip_site file _ Hfile'), Hsite.
    done.
  - rewrite (lstrip_site file _ Hfile'), Hsite.
    destruct file as [|c file]; [by destruct Hnone|].
    rewrite append_cons. simpl in Hfile.
    apply andb_prop in Hfile as [Hc _]. apply negb_true_iff in Hc.
    destruct (Ascii.eqb_spec c "(") as [->|Hne]; [done|].
    by destruct c as [[] [] [] [] [] [] [] []].
Qed.

Lemma X19_matcher_reads_trace_lines_witness :
  matcher_match
    (trace_line " " " " "  "
       (mkMatch "1.5" (Some "2") "/src/CMakeLists.txt" "12" "add_library(foo)")) =
  Some (mkMatch "1.5" (Some "2") "/src/CMakeLists.txt" "12" "add_library(foo)").
Proof.
  apply (X19_matcher_reads_trace_lines " " " " "  "
           (mkMatch "1.5" (Some "2") "/src/CMakeLists.txt" "12"
              "add_library(foo)")); try reflexivity.
  - intros frame [= <-]. reflexivity.
  - discriminate.
Defined.

Lemma framed_line_shape (ts s0 ws1 s' frame rest file ln code : string) :
  s0 = (ws1 ++ String "(" s')%string →
  split_at ")" s' = Some (frame, rest) →
  match_site (lstrip rest) = Some (file, ln, code) →
  ∃ ws2 ws3, all_space ws2 = true ∧ all_space ws3 = true ∧
    String "(" (ts ++ String ")" s0) =
      trace_line ws1 ws2 ws3 (mkMatch ts (Some frame) file ln code) ∧
    lacks ")" frame = true ∧ lacks "(" file = true ∧
    lacks ")" ln = true ∧ has_newline code = false.
Proof.
  intros -> Hfr Hsite. apply split_at_inv in Hfr as [-> Hfr].
  destruct (lstrip_inv rest) as (ws2 & H2 & Hrest).
  apply match_site_inv in Hsite as (ws3 & H3 & Hsite & Hf & Hl & Hnl).
  exists ws2, ws3. repeat split; try done.
  unfold trace_line. simpl. rewrite !append_cons, !append_nil_l.
  do 6 f_equal. by rewrite Hrest, Hsite at 1.
Qed.

Lemma plain_line_shape (ts s0 ws1 s1 file ln code : string) :
  s0 = (ws1 ++ s1)%string →
  match_site s1 = Some (file, ln, code) →
  ∃ ws3, all_space ws3 = true ∧
    String "(" (ts ++ String ")" s0) =
      trace_line ws1 EmptyString ws3 (mkMatch ts None file ln code) ∧
    lacks "(" file = true ∧ lacks ")" ln = true ∧
    has_newline code = false.
Proof.
  intros -> Hsite.
  apply match_site_inv in Hsite as (ws3 & H3 & Hsite & Hf & Hl & Hnl).
  exists ws3. repeat split; try done.
  unfold trace_line. simpl. rewrite !append_cons, !append_nil_l.
  by rewrite Hsite at 1.
Qed.

(** X20 ([matcher] of [_parse_cmake_log]): a match loses nothing of the
    line but white space. The line is its groups in their order, between
    the parentheses and the colon of the pattern, with white space after
    the time stamp, after the depth and before the code; the time stamp,
    the depth and the line number hold no closing parenthesis, the file
    name no opening one, and the code neither begins with white space
    nor holds a newline. *)
Theorem X20_match_decomposes_line (line : string) (m : line_match) :
  matcher_match line = Some m →
  ∃ ws1 ws2 ws3,
    all_space ws1 = true ∧ all_space ws2 = true ∧ all_space ws3 = true ∧
    line = trace_line ws1 ws2 ws3 m ∧
    lacks ")" (g_timestamp m) = true ∧
    (∀ frame, g_frame m = Some frame → lacks ")" frame = true) ∧
    lacks "(" (g_file m) = true ∧ lacks ")" (g_line m) = true ∧
    has_newline (g_code m) = false ∧ lstrip (g_code m) = g_code m.
Proof.
  intros Hm. pose proof (matcher_match_code line m Hm) as Hcode.
  unfold matcher_match in Hm. destruct line as [|a s]; [done|].
  destruct (Ascii.eqb_spec a "(") as [->|Hne];
    [|by destruct a as [[] [] [] [] [] [] [] []]].
  destruct (split_at ")" s) as [[ts s0]|] eqn:Hts; [simpl in Hm|done].
  apply split_at_inv in Hts as [-> Hts].
  destruct (lstrip_inv s0) as (ws1 & H1 & Hs0).
  assert (Hplain :
    ('(file, ln, code) ← match_site (lstrip s0);
     Some (mkMatch ts None file ln code)) = Some m →
    ∃ ws1 ws2 ws3,
      all_space ws1 = true ∧ all_space ws2 = true ∧ all_space ws3 = true ∧
      String "(" (ts ++ String ")" s0) = trace_line ws1 ws2 ws3 m ∧
      lacks ")" (g_timestamp m) = true ∧
      (∀ frame, g_frame m = Some frame → lacks ")" frame = true) ∧
      lacks "(" (g_file m) = true ∧ lacks ")" (g_line m) = true ∧
      has_newline (g_code m) = false ∧ lstrip (g_code m) = g_code m).
  { destruct (match_site (lstrip s0)) as [[[file ln] code]|] eqn:Hsite;
      [|done].
    simpl. intros [= <-].
    destruct (plain_line_shape ts s0 ws1 _ file ln code Hs0 Hsite)
      as (ws3 & H3 & Hline & Hf & Hl & Hnl).
    exists ws1, EmptyString, ws3. by repeat split. }
  destruct (lstrip s0) as [|b s'] eqn:Hl0; [by apply Hplain|].
  destruct (Ascii.eqb_spec b "(") as [->|Hne];
    [|apply Hplain; by destruct b as [[] [] [] [] [] [] [] []]].
  destruct (split_at ")" s') as [[frame rest]|] eqn:Hfr;
    [|simpl in Hm; by apply Hplain].
  simpl in Hm.
  destruct (match_site (lstrip rest)) as [[[file ln] code]|] eqn:Hsite;
    [|simpl in Hm; by apply Hplain].
  simpl in Hm. injection Hm as <-.
  destruct (framed_line_shape ts s0 ws1 s' frame rest file ln code Hs0 Hfr Hsite)
    as (ws2 & ws3 & H2 & H3 & Hline & Hfrl & Hf & Hl & Hnl).
  exists ws1, ws2, ws3. repeat split; try done.
  by intros frame' [= <-].
Qed.

Lemma X20_match_decomposes_line_witness :
  let m := mkMatch "1.5" None "a.cmake" "3" "f(x)" in
  ∃ ws1 ws2 ws3,
    all_space ws1 = true ∧ all_space ws2 = true ∧ all_space ws3 = true ∧
    "(1.5) a.cmake(3):  f(x)" = trace_line ws1 ws2 ws3 m ∧
    lacks ")" (g_timestamp m) = true ∧
    (∀ frame, g_frame m = Some frame → lacks ")" frame = true) ∧
    lacks "(" (g_file m) = true ∧ lacks ")" (g_line m) = true ∧
    has_newline (g_code m) = false ∧ lstrip (g_code m) = g_code m.
Proof.
  intros m. apply (X20_match_decomposes_line "(1.5) a.cmake(3):  f(x)" m).
  reflexivity.
Defined.

(** ** Nesting without depth *)

Section OtherFile.

Variable h : heap.
Hypothesis Hwf : wf h.

Let Hdec : decreasing h := wf_decreasing h Hwf.

Lemma frame_of_file (i : ref) : (frame_of h i).1.2 = file_at h i.
Proof.
  unfold frame_of, file_at. destruct (h !! i) as [n|]; [simpl|done].
  by destruct (trace_info n).
Qed.

Lemma file_at_root : file_at h 0 = None.
Proof.
  unfold file_at. destruct (wf_root h Hwf) as (r & Hr & _ & Hti).
  rewrite Hr. simpl. by rewrite Hti.
Qed.

Lemma same_file_frame (ti : CmakeTraceInfo) (w : ref) (dw : Z) :
  same_file_distance ti (frame_of h w) = Some dw →
  file_at h w = Some (cmake_file ti).
Proof.
  rewrite <- frame_of_file. unfold same_file_distance.
  destruct (frame_of h w) as [[t [file|]] [line|]]; try done.
  simpl. by destruct (decide (file = cmake_file ti)) as [->|].
Qed.

Lemma first_other_file_other (ti : CmakeTraceInfo) (A : list ref) (t : ref) :
  first_other_file ti (frame_of h <$> A) = Some t →
  file_at h t ≠ Some (cmake_file ti).
Proof.
  unfold first_other_file. intros Ht.
  destruct (head _) as [fr|] eqn:Hhead; [|done]. simpl in Ht.
  injection Ht as <-. apply head_Some_elem_of in Hhead.
  apply list_elem_of_filter in Hhead as [Hne Hin].
  apply list_elem_of_fmap in Hin as (i & -> & Hi).
  by rewrite frame_of_ref, <- frame_of_file.
Qed.

Lemma first_other_file_root (ti : CmakeTraceInfo) (A : list ref) :
  0 ∈ A → is_Some (first_other_file ti (frame_of h <$> A)).
Proof.
  intros H0. unfold first_other_file.
  assert (Hin : frame_of h 0 ∈
                filter (λ fr : frame, fr.1.2 ≠ Some (cmake_file ti))
                  (frame_of h <$> A)).
  { apply list_elem_of_filter. split.
    - by rewrite frame_of_file, file_at_root.
    - apply list_elem_of_fmap. by exists 0. }
  destruct (filter _ _) as [|fr l]; [by apply elem_of_nil in Hin|].
  simpl. by eexists.
Qed.

(** Without depth the new node goes below an object of another file. *)
Lemma unknown_attach_point (p : ref) (pn : Z) (ti : CmakeTraceInfo) :
  across_files h → p < length h →
  ∃ r, attach_point h p 0 pn ti = Ok r ∧ r < length h ∧
       file_at h r ≠ Some (cmake_file ti).
Proof.
  intros Hacross Hp. unfold attach_point. simpl.
  rewrite (resolve_parent_ok h Hwf) by done.
  set (A := ancestors h (innermost h p)).
  assert (H0 : 0 ∈ A)
    by (apply (ancestors_root h Hwf); by apply (innermost_valid h Hwf)).
  assert (HA : ∀ i, i ∈ A → i < length h)
    by (intros i Hi; by apply (ancestors_valid h Hdec) in Hi).
  assert (Hres : ∃ r, (loop_result h ti sys_maxint None (frame_of h <$> A)).2 =
                        Some r ∧ file_at h r ≠ Some (cmake_file ti)).
  { unfold loop_result.
    assert (Hfb : ∃ r, (fallback ti sys_maxint None (frame_of h <$> A)).2 =
                         Some r ∧ file_at h r ≠ Some (cmake_file ti)).
    { unfold fallback. destruct (first_other_file_root ti A H0) as [t Ht].
      rewrite Ht. exists t. split; [done|]. by eapply first_other_file_other. }
    destruct (nearest_frame ti (frame_of h <$> A)) as [[w dw]|] eqn:Hn; [|done].
    destruct (dw <? sys_maxint)%Z; [|done]. simpl.
    apply (nearest_frame_in h ti) in Hn as [Hw Hsame].
    apply same_file_frame in Hsame.
    assert (Hw0 : w ≠ 0).
    { intros ->. by rewrite file_at_root in Hsame. }
    pose proof (HA w Hw) as Hwl. apply lookup_lt_is_Some in Hwl as [n Hnw].
    destruct (wf_node h Hwf w n Hnw Hw0) as (_ & q & Hq & _).
    assert (Hpar : parent_of h w = Some q)
      by (unfold parent_of; by rewrite Hnw).
    exists q. split; [done|]. intros Hfq.
    apply (Hacross w q Hpar). by rewrite Hsame, Hfq. }
  destruct Hres as (r & Hr & Hfile). rewrite Hr. simpl.
  exists r. split; [done|]. split; [|done].
  by apply (loop_result_valid h Hwf ti A sys_maxint).
Qed.

Lemma file_at_appended (p : ref) (d : Qc) (ti : CmakeTraceInfo) (i : ref) :
  p < length h →
  file_at (appended h p d ti) i =
    if decide (i = length h) then Some (cmake_file ti) else file_at h i.
Proof.
  intros Hp. unfold file_at. destruct (decide (i = length h)) as [->|Hne].
  - by rewrite (appended_new h p d ti Hp).
  - destruct (h !! i) as [n|] eqn:Hn.
    + by rewrite (appended_old h p d ti i n Hn).
    + apply lookup_ge_None in Hn.
      rewrite (proj2 (lookup_ge_None (appended h p d ti) i)); [done|].
      rewrite appended_length by done. lia.
Qed.

Lemma across_files_appended (p : ref) (d : Qc) (ti : CmakeTraceInfo) :
  across_files h → p < length h →
  file_at h p ≠ Some (cmake_file ti) →
  across_files (appended h p d ti).
Proof.
  intros Hacross Hp Hfile i q Hpar.
  rewrite (appended_parent_of h p d ti) in Hpar by done.
  rewrite !file_at_appended by done.
  destruct (decide (i = length h)) as [->|Hne].
  - injection Hpar as <-. rewrite decide_False by lia. congruence.
  - assert (Hq : q < length h).
    { unfold parent_of in Hpar. destruct (h !! i) as [n|] eqn:Hn; [|done].
      simpl in Hpar. pose proof (Hdec i n q Hn Hpar).
      pose proof (lookup_lt_Some _ _ _ Hn). lia. }
    rewrite decide_False by lia. by apply Hacross.
Qed.

End OtherFile.

Lemma builder_state_unknown (events : list event) (s : collect_state) :
  (∀ ev, ev ∈ events → nesting ev = None) →
  builder_state events = Ok s →
  across_files (st_heap s) ∧ (previous s = None ∨ previous_nesting s = 0%Z).
Proof.
  revert s. induction events as [|ev events IH] using rev_ind; intros s Hall Hs.
  { injection Hs as <-. split; [|by left].
    intros [|[|i]] q Hpar; done. }
  rewrite builder_state_snoc in Hs. inv_bind Hs.
  destruct (IH a) as [Hacross Hprev]; [|done|].
  { intros ev' Hev'. apply Hall, elem_of_app. by left. }
  assert (Hev : nesting ev = None)
    by (apply Hall, elem_of_app; right; apply elem_of_cons; by left).
  destruct (builder_state_ok _ _ Ha) as [Hok _].
  pose proof (ok_wf _ _ _ _ _ Hok) as Hwf.
  pose proof (ok_cursor _ _ _ _ _ Hok) as Hp.
  destruct ev as [[cn ct] cti]. unfold nesting in Hev. simpl in Hev. subst cn.
  unfold collect_step in Hs.
  destruct (previous a) as [[pt pti]|] eqn:Hpa; simpl in Hs.
  - destruct Hprev as [?|Hpn]; [done|]. rewrite Hpn in Hs.
    rewrite (update_traces_eq _ Hwf) in Hs by done.
    destruct (unknown_attach_point _ Hwf (st_parent a)
                (0 - previous_nesting_diff a) pti Hacross Hp)
      as (r & Hr & Hrl & Hfile).
    rewrite Hr in Hs. simpl in Hs. injection Hs as <-. simpl.
    split; [by apply across_files_appended|by right].
  - injection Hs as <-. simpl. split; [done|by right].
Qed.

(** X21 ([_update_traces], the nesting resolver): in a trace without
    depth information no call is nested in a call of its own file. Every
    node hangs below the root or below a node of another file, so that
    consecutive commands of one file are siblings and nesting arises only
    where the trace passes from one file to another. *)
Theorem X21_no_nesting_within_a_file (events : list event) (h : heap)
    (traces : list ref) :
  (∀ ev, ev ∈ events → nesting ev = None) →
  build events = Ok (h, traces) →
  ∀ i q, parent_of h i = Some q → file_at h i ≠ file_at h q.
Proof.
  intros Hall Hb. rewrite build_eq in Hb. inv_bind Hb.
  destruct (builder_state_unknown events a Hall Ha) as [Hacross Hprev].
  destruct (builder_state_ok _ _ Ha) as [Hok _].
  pose proof (ok_wf _ _ _ _ _ Hok) as Hwf.
  pose proof (ok_cursor _ _ _ _ _ Hok) as Hp.
  unfold collect_finish in Hb.
  destruct (previous a) as [[pt pti]|] eqn:Hpa.
  - destruct Hprev as [?|Hpn]; [done|]. rewrite Hpn in Hb.
    rewrite (update_traces_eq _ Hwf) in Hb by done.
    destruct (unknown_attach_point _ Hwf (st_parent a) 0 pti Hacross Hp)
      as (r & Hr & Hrl & Hfile).
    rewrite Hr in Hb. simpl in Hb. injection Hb as <- <-.
    by apply across_files_appended.
  - injection Hb as <- <-. apply Hacross.
Qed.

Lemma X21_no_nesting_within_a_file_witness :
  ∃ h traces,
    build flat_events = Ok (h, traces) ∧
    ∀ i q, parent_of h i = Some q → file_at h i ≠ file_at h q.
Proof.
  eexists _, _. split; [vm_compute; reflexivity|].
  eapply (X21_no_nesting_within_a_file flat_events); [|vm_compute; reflexivity].
  intros ev Hev. repeat (apply elem_of_cons in Hev as [->|Hev]; [reflexivity|]).
  by apply elem_of_nil in Hev.
Defined.

(** ** Statements that span lines *)

Section Continuation.

Variable py_float : string → option Qc.
Variable py_int : string → option Z.

Lemma parse_loop_ignored_tail (ignore_nesting : bool)
    (tail rest : list string) (cn : option Z) (t : Qc) (ti : CmakeTraceInfo) :
  (∀ l, l ∈ tail → matcher_match (rstrip l) = None) →
  match_parens (cmake_code_line ti) = true →
  parse_loop py_float py_int ignore_nesting (tail ++ rest) cn (Some (t, ti)) =
    foldr print_ignored
      (parse_loop py_float py_int ignore_nesting rest cn (Some (t, ti)))
      (rstrip <$> tail).
Proof.
  intros Hun Hbal. induction tail as [|l tail IH]; [done|].
  rewrite <- app_comm_cons. cbn [parse_loop].
  rewrite (Hun l) by (apply elem_of_cons; by left). rewrite Hbal.
  rewrite IH; [done|]. intros l' Hl'. apply Hun, elem_of_cons. by right.
Qed.

Lemma parse_loop_joined (ignore_nesting : bool) (ls rest : list string)
    (cn : option Z) (t : Qc) (ti : CmakeTraceInfo) :
  (∀ l, l ∈ ls → matcher_match (rstrip l) = None) →
  (∀ k, k < length ls →
     match_parens (join_lines (cmake_code_line ti) (rstrip <$> take k ls)) =
       false) →
  parse_loop py_float py_int ignore_nesting (ls ++ rest) cn (Some (t, ti)) =
    parse_loop py_float py_int ignore_nesting rest cn
      (Some (t, with_code ti
                  (join_lines (cmake_code_line ti) (rstrip <$> ls)))).
Proof.
  revert ti. induction ls as [|l ls IH]; intros ti Hun Hopen.
  { by destruct ti. }
  rewrite <- app_comm_cons. cbn [parse_loop].
  rewrite (Hun l) by (apply elem_of_cons; by left).
  pose proof (Hopen 0 ltac:(simpl; lia)) as H0. simpl in H0. rewrite H0.
  rewrite IH.
  - done.
  - intros l' Hl'. apply Hun, elem_of_cons. by right.
  - intros k Hk. apply (Hopen (S k)). simpl. lia.
Qed.

(** X22 ([_parse_cmake_log]): a statement that runs over several lines
    is joined until its parentheses balance. From a pending statement,
    lines that the pattern does not match are appended to its code, each
    stripped and behind a backslash and the letter n, as long as the code
    joined so far has not as many opening as closing parentheses; once it
    has, the lines that follow are printed as ignored and the code stays
    as it is. No event is yielded on the way. *)
Theorem X22_statement_joined_until_balanced (ignore_nesting : bool)
    (ls tail rest : list string) (cn : option Z) (t : Qc)
    (ti : CmakeTraceInfo) :
  (∀ l, l ∈ ls ++ tail → matcher_match (rstrip l) = None) →
  (∀ k, k < length ls →
     match_parens (join_lines (cmake_code_line ti) (rstrip <$> take k ls)) =
       false) →
  match_parens (join_lines (cmake_code_line ti) (rstrip <$> ls)) = true →
  parse_loop py_float py_int ignore_nesting (ls ++ tail ++ rest) cn
    (Some (t, ti)) =
    foldr print_ignored
      (parse_loop py_float py_int ignore_nesting rest cn
         (Some (t, with_code ti
                     (join_lines (cmake_code_line ti) (rstrip <$> ls)))))
      (rstrip <$> tail).
Proof.
  intros Hun Hopen Hbal.
  rewrite parse_loop_joined; [|intros l Hl; apply Hun, elem_of_app; by left|done].
  apply parse_loop_ignored_tail; [|done].
  intros l Hl. apply Hun, elem_of_app. by right.
Qed.

End Continuation.

Lemma X22_statement_joined_until_balanced_witness :
  let ti := mkTraceInfo "a.cmake" 2 "g(x" in
  parse_loop read_float read_int false
    (["    y"; "    z)"] ++ ["-- done"] ++ ["(3.5) (1) a.cmake(3):  h()"])
    (Some 2%Z) (Some (Q2Qc 2, ti)) =
    foldr print_ignored
      (parse_loop read_float read_int false ["(3.5) (1) a.cmake(3):  h()"]
         (Some 2%Z)
         (Some (Q2Qc 2,
                with_code ti
                  (join_lines (cmake_code_line ti)
                     (rstrip <$> ["    y"; "    z)"])))))
      (rstrip <$> ["-- done"]).
Proof.
  intros ti.
  apply (X22_statement_joined_until_balanced read_float read_int false
           ["    y"; "    z)"] ["-- done"] ["(3.5) (1) a.cmake(3):  h()"]
           (Some 2%Z) (Q2Qc 2) ti).
  - intros l Hl.
    repeat (apply elem_of_cons in Hl as [->|Hl]; [reflexivity|]).
    by apply elem_of_nil in Hl.
  - intros [|[|k]] Hk; [reflexivity|reflexivity|simpl in Hk; lia].
  - reflexivity.
Defined.
